(** * note-svg: a shallow embedding of the document/stroke engine

    The development follows the JavaScript sources:
    - [utils.js]            : [roundNumber], [isValidSvg], [parseSizeString]
    - [notesvg.js]          : [transform]
    - [document-editor.js]  : [DocumentEditor]
    - [stroke.js]           : [StrokeRenderer]
    - [ui.js], [main.js]    : the resize handler, [deserializeDocument]

    JavaScript strings are modelled as [string] (sequences of code units
    below 256), integers produced by [parseInt] as [Z] with [None] for NaN,
    objects mutated in place as values threaded through the functions. *)

From Stdlib Require Import ZArith Ascii String List Lia Bool.
From Stdlib Require Import DecimalString DecimalPos.
From stdpp Require Import base option list gmap strings.

Import ListNotations.
Local Open Scope string_scope.
Local Open Scope Z_scope.
Local Open Scope list_scope.
#[local] Arguments String.append !s1 s2 : simpl nomatch.

(** ** utils.js — strings *)

Module Utils.

(** ECMAScript WhiteSpace and LineTerminator code units that fit in a byte:
    TAB, LF, VT, FF, CR, SP and NBSP. *)
Definition isWhiteSpace (c : ascii) : bool :=
  let n := nat_of_ascii c in
  ((9 <=? n) && (n <=? 13) || (n =? 32) || (n =? 160))%nat.

Fixpoint trimStart (s : string) : string :=
  match s with
  | EmptyString => EmptyString
  | String c r => if isWhiteSpace c then trimStart r else s
  end.

Fixpoint trimEnd (s : string) : string :=
  match s with
  | EmptyString => EmptyString
  | String c r =>
      match trimEnd r with
      | EmptyString => if isWhiteSpace c then EmptyString else String c EmptyString
      | r' => String c r'
      end
  end.

(** [String.prototype.trim] *)
Definition trim (s : string) : string := trimEnd (trimStart s).

(** [String.prototype.startsWith] *)
Fixpoint startsWith (s p : string) : bool :=
  match p, s with
  | EmptyString, _ => true
  | String a p', String b s' => if Ascii.eqb a b then startsWith s' p' else false
  | String _ _, EmptyString => false
  end.

(** [String.prototype.endsWith]: the last [length p] code units of [s]. *)
Definition endsWith (s p : string) : bool :=
  let n := String.length s in
  let k := String.length p in
  if (k <=? n)%nat then String.eqb (substring (n - k) k s) p else false.

(** [isValidSvg(text)] *)
Definition isValidSvg (text : string) : bool :=
  startsWith (trim text) "<svg" && endsWith (trim text) "</svg>".

(** [String.prototype.split] with a one code unit separator. *)
Fixpoint split (sep : ascii) (s : string) : list string :=
  match s with
  | EmptyString => [EmptyString]
  | String c r =>
      if Ascii.eqb c sep then EmptyString :: split sep r
      else match split sep r with
           | h :: t => String c h :: t
           | [] => [String c EmptyString]
           end
  end.

(** *** [parseInt] with no radix argument *)

Definition digitValue (c : ascii) : option Z :=
  let n := Z.of_nat (nat_of_ascii c) in
  if (48 <=? n) && (n <=? 57) then Some (n - 48)
  else if (97 <=? n) && (n <=? 122) then Some (n - 87)
  else if (65 <=? n) && (n <=? 90) then Some (n - 55)
  else None.

(** Value of the longest prefix of [s] made of radix-[R] digits, [None] when
    that prefix is empty.  [acc] is [None] until a digit has been read. *)
Fixpoint parseDigits (R : Z) (s : string) (acc : option Z) : option Z :=
  match s with
  | EmptyString => acc
  | String c r =>
      match digitValue c with
      | Some d =>
          if d <? R then parseDigits R r (Some (default 0 acc * R + d))
          else acc
      | None => acc
      end
  end.

Definition stripSign (s : string) : Z * string :=
  match s with
  | String "-" r => (-1, r)
  | String "+" r => (1, r)
  | _ => (1, s)
  end.

Definition stripPrefix (s : string) : Z * string :=
  match s with
  | String "0" (String "x" r) => (16, r)
  | String "0" (String "X" r) => (16, r)
  | _ => (10, s)
  end.

(** [parseInt(s)]: [None] stands for NaN.  Magnitudes are kept exact (a
    double would round above 2^53) and [-0] is identified with [0]. *)
Definition parseInt (s : string) : option Z :=
  let '(sign, s1) := stripSign (trimStart s) in
  let '(R, s2) := stripPrefix s1 in
  match parseDigits R s2 None with
  | Some n => Some (sign * n)
  | None => None
  end.

(** [parseInt(x)] where [x] may be [undefined]: the argument is first
    converted to the string ["undefined"]. *)
Definition parseIntArg (x : option string) : option Z :=
  match x with
  | Some s => parseInt s
  | None => parseInt "undefined"
  end.

Record Size := mkSize { width : Z; height : Z }.

(** [parseSizeString(sizeStr)]; [None] is the [null] result. *)
Definition parseSizeString (sizeStr : string) : option Size :=
  let dims := split "x" sizeStr in
  let width := parseIntArg (trim <$> dims !! 0%nat) in
  let height := parseIntArg (trim <$> dims !! 1%nat) in
  match width, height with
  | Some w, Some h => Some (mkSize w h)
  | _, _ => None
  end.

(** ToString on an integer-valued number of magnitude below 1e21: its
    decimal digits, after a [-] when negative. *)
Definition showInt (z : Z) : string := NilZero.string_of_int (Z.to_int z).

Fixpoint allChars (f : ascii -> bool) (s : string) : bool :=
  match s with
  | EmptyString => true
  | String c r => f c && allChars f r
  end.

Definition isDecimalDigit (c : ascii) : bool :=
  let n := nat_of_ascii c in ((48 <=? n) && (n <=? 57))%nat.

(** The characters [showInt] prints. *)
Definition isIntChar (c : ascii) : bool :=
  isDecimalDigit c || Ascii.eqb c "-".

End Utils.


(** A call either returns or throws. *)
Inductive Error :=
| TypeError (msg : string)
| JsError (msg : string).

Inductive Outcome (A : Type) :=
| Ok (a : A)
| Throw (e : Error).
Arguments Ok {A} a.
Arguments Throw {A} e.

(** ** The platform: numbers, the canvas, and the vendored libraries

    Doubles, [Number.prototype.toFixed], kld-intersections and the curve
    fitter are not part of the repository; the development is parametric
    in them. *)

Class Platform := {
  number : Type;
  num_of_Z : Z -> number;
  num_sub : number -> number -> number;
  (** ToBoolean on a number: false for NaN and zero *)
  num_truthy : number -> bool;
  (** [num.toFixed(decimals)] *)
  toFixed : number -> nat -> string;
  (** ToString on a number, as used by template literals *)
  num_toString : number -> string;
  parseFloat : string -> number;
  (** kld-intersections *)
  Shape : Type;
  (** [ShapeInfo.path(d)], which parses the path data and throws on data
      it does not accept; [None] is [undefined] *)
  ShapeInfo_path : option string -> Outcome Shape;
  ShapeInfo_line : number * number -> number * number -> Shape;
  (** [Intersection.intersect(a, b).status] *)
  Intersection_status : Shape -> Shape -> string;
  (** [window.fitCurve(points, maxError)]; [None] when it throws *)
  fitCurve : list (number * number) -> number ->
             option (list ((number * number) * (number * number) *
                           (number * number) * (number * number)))
}.

Section Model.
Context `{P : Platform}.

Definition Point : Type := number * number.
(** [[startPoint, control1, control2, endPoint]] *)
Definition Curve : Type := Point * Point * Point * Point.

Inductive Value :=
| VNum (n : number)
| VStr (s : string)
| VUndefined.

(** ToBoolean *)
Definition truthy (v : Value) : bool :=
  match v with
  | VNum n => num_truthy n
  | VStr s => negb (String.eqb s EmptyString)
  | VUndefined => false
  end.

(** [a || b] *)
Definition orElse (a b : Value) : Value := if truthy a then a else b.

Inductive Path2D := new_Path2D (d : option string).

Record RenderAttributes := mkRender {
  path : option Path2D;
  stroke : option (list Point);
  shape : option Shape
}.

(** [{}] *)
Definition emptyRender : RenderAttributes := mkRender None None None.

(** Attributes keep their insertion order. *)
Definition Attributes : Type := list (string * string).

Fixpoint getAttr (k : string) (a : Attributes) : option string :=
  match a with
  | [] => None
  | (k', v) :: r => if String.eqb k' k then Some v else getAttr k r
  end.

(** [delete attributes[k]] *)
Fixpoint deleteAttr (k : string) (a : Attributes) : Attributes :=
  match a with
  | [] => []
  | (k', v) :: r => if String.eqb k' k then deleteAttr k r else (k', v) :: deleteAttr k r
  end.

(** [RenderNode] is [Element]; a child is a [RenderNode | string]. *)
Inductive Node : Type :=
| Text (s : string)
| Elem (e : Element)
with Element : Type :=
| mkElement (tagName : string)
            (attributes : Attributes)
            (noteSvgAttributes : option (gmap string Value))
            (renderAttributes : option RenderAttributes)
            (children : list Node).

Definition tagName (e : Element) : string :=
  match e with mkElement t _ _ _ _ => t end.
Definition attributes (e : Element) : Attributes :=
  match e with mkElement _ a _ _ _ => a end.
Definition noteSvgAttributes (e : Element) : option (gmap string Value) :=
  match e with mkElement _ _ n _ _ => n end.
Definition renderAttributes (e : Element) : option RenderAttributes :=
  match e with mkElement _ _ _ r _ => r end.
Definition children (e : Element) : list Node :=
  match e with mkElement _ _ _ _ c => c end.

Definition setRenderAttributes (r : option RenderAttributes) (e : Element) : Element :=
  match e with mkElement t a n _ c => mkElement t a n r c end.
Definition setNoteSvgAttributes (n : option (gmap string Value)) (e : Element) : Element :=
  match e with mkElement t a _ r c => mkElement t a n r c end.
Definition setChildren (c : list Node) (e : Element) : Element :=
  match e with mkElement t a n r _ => mkElement t a n r c end.

(** [node.noteSvgAttributes?.key] *)
Definition noteAttr (k : string) (e : Element) : Value :=
  match noteSvgAttributes e with
  | Some m => default VUndefined (m !! k)
  | None => VUndefined
  end.

Definition isPath (e : Element) : bool := String.eqb (tagName e) "path".


(** ** document-editor.js *)

(** [roundNumber(num, decimals = 1)] *)
Definition roundNumber (num : number) : string := toFixed num 1.

(** The polyline loop of [generatePathData]: [M] for [stroke[0]], then one
    [L] per later point; [fmt] renders a coordinate. *)
Definition polylineData (fmt : number -> string) (stroke : list Point) : string :=
  match stroke with
  | [] => EmptyString
  | p0 :: rest =>
      fold_left
        (fun d p => d +:+ "L " +:+ fmt (fst p) +:+ " " +:+ fmt (snd p) +:+ " ")
        rest
        ("M " +:+ fmt (fst p0) +:+ " " +:+ fmt (snd p0) +:+ " ")
  end.

(** The three [d +=] statements of one loop iteration over the curves. *)
Definition appendCurve (d : string) (curve : Curve) : string :=
  let '(_, c1, c2, p3) := curve in
  let d := d +:+ "C " +:+ roundNumber (fst c1) +:+ " " +:+ roundNumber (snd c1) +:+ ", " in
  let d := d +:+ roundNumber (fst c2) +:+ " " +:+ roundNumber (snd c2) +:+ ", " in
  d +:+ roundNumber (fst p3) +:+ " " +:+ roundNumber (snd p3) +:+ " ".

(** [generatePathData(stroke)].  The [catch] branch is taken when
    [fitCurve] throws; it prints the raw coordinates. *)
Definition generatePathData (stroke : list Point) : string :=
  if (length stroke <? 2)%nat then EmptyString
  else
    match fitCurve stroke (num_of_Z 2) with
    | Some bezierCurves =>
        match bezierCurves with
        | firstCurve :: _ =>
            let '(p0, _, _, _) := firstCurve in
            let d := EmptyString +:+ "M " +:+ roundNumber (fst p0) +:+ " "
                        +:+ roundNumber (snd p0) +:+ " " in
            fold_left appendCurve bezierCurves d
        | [] => polylineData roundNumber stroke
        end
    | None => polylineData num_toString stroke
    end.

Inductive Tool :=
| Pen (color : string) (diameter tolerance : number)
| Eraser (diameter : number).

(** [tool.color] and [tool.diameter] *)
Definition toolColor (t : Tool) : Value :=
  match t with Pen c _ _ => VStr c | Eraser _ => VUndefined end.
Definition toolDiameter (t : Tool) : Value :=
  match t with Pen _ d _ => VNum d | Eraser d => VNum d end.

(** [createPathFromStroke(stroke, tool)] *)
Definition createPathFromStroke (stroke : list Point) (tool : Tool) : Element :=
  let d := generatePathData stroke in
  mkElement "path"
    [("d", d); ("fill", "none")]
    (Some {[ "stroke" := toolColor tool; "strokeWidth" := toolDiameter tool ]})
    (Some (mkRender (Some (new_Path2D (Some d))) (Some stroke) None))
    [].

(** [addPathToDocument(pathNode)] *)
Definition addPathToDocument (document : Element) (pathNode : Element) : Element :=
  setChildren (children document ++ [Elem pathNode]) document.

(** [finalizePenStroke(stroke, tool)]: the updated document and the node. *)
Definition finalizePenStroke (document : Element) (stroke : list Point) (tool : Tool)
  : Element * Element :=
  let pathNode := createPathFromStroke stroke tool in
  (addPathToDocument document pathNode, pathNode).

(** The test made on one child of [filterIntersecting]: the render
    attributes after the two [||=], and [childIntersects] or the error of
    [ShapeInfo.path].  A cached shape is used as it is; when the shape
    cannot be built the render attributes stay without one.
    [Intersection.intersect] is taken to return. *)
Definition intersectChild (line : Shape) (child : Element)
  : option RenderAttributes * Outcome bool :=
  if String.eqb (tagName child) "path" then
    let ra := default emptyRender (renderAttributes child) in
    match match shape ra with
          | Some sh => Ok sh
          | None => ShapeInfo_path (getAttr "d" (attributes child))
          end with
    | Ok sh =>
        (Some (mkRender (path ra) (stroke ra) (Some sh)),
         Ok (String.eqb (Intersection_status sh line) "Intersection"))
    | Throw e => (Some ra, Throw e)
    end
  else (renderAttributes child, Ok false).

(** [filterIntersecting(shape, node, removed, keepIntersecting, recurse)]
    on an element: the element and the [removed] array as the call leaves
    them, and the error when it throws.

    The loop is [node.children.filter(callback)]: it gives the children as
    they are now, the array that [filter] has built, [removed], and the
    error of the callback that threw.  A child pushed on [removed] is a
    reference, so the list holds the child as it is once the callback is
    done with it.  When a callback throws, [filter] is abandoned and
    [node.children] is not assigned: the children are all still there,
    those visited so far with what their callbacks did to them. *)
Fixpoint filterIntersectingElement (line : Shape) (node : Element) (removed : list Node)
    (keepIntersecting recurse : bool) {struct node}
  : Element * list Node * option Error :=
  match node with
  | mkElement t a n r cs =>
      let fix filter (cs : list Node) (removed : list Node) {struct cs}
          : list Node * list Node * list Node * option Error :=
        match cs with
        | [] => ([], [], removed, None)
        | Text s :: rest =>
            let '(now, kept, removed, err) := filter rest removed in
            (Text s :: now, Text s :: kept, removed, err)
        | Elem child :: rest =>
            let '(child', childIntersects, err) :=
              match intersectChild line child with
              | (ra, Throw e) => (setRenderAttributes ra child, false, Some e)
              | (ra, Ok childIntersects) =>
                  if recurse then
                    let '(c, _, err) :=
                      filterIntersectingElement line child [] keepIntersecting recurse in
                    (setRenderAttributes ra c, childIntersects, err)
                  else (setRenderAttributes ra child, childIntersects, None)
              end in
            let removed := if childIntersects then removed ++ [Elem child'] else removed in
            match err with
            | Some e => (Elem child' :: rest, [], removed, Some e)
            | None =>
                let '(now, kept, removed, err) := filter rest removed in
                (Elem child' :: now,
                 if keepIntersecting || negb childIntersects
                 then Elem child' :: kept else kept,
                 removed, err)
            end
        end in
      let '(now, kept, removed, err) := filter cs removed in
      (mkElement t a n r (match err with None => kept | Some _ => now end),
       removed, err)
  end.

Definition filterIntersecting (line : Shape) (node : Node) (removed : list Node)
    (keepIntersecting recurse : bool) : Node * list Node * option Error :=
  match node with
  | Text _ => (node, removed, None)
  | Elem e =>
      let '(e', removed, err) :=
        filterIntersectingElement line e removed keepIntersecting recurse in
      (Elem e', removed, err)
  end.

(** [processEraserStroke(start, end)]; [ShapeInfo.line] is taken to
    return. *)
Definition processEraserStroke (document : Element) (start end_ : Point)
  : Element * list Node * option Error :=
  let line := ShapeInfo_line start end_ in
  filterIntersectingElement line document [] false true.

(** [clearPaths(node, removed, recurse)] on an element.  [children] is
    always an array in this model, so the [!node.children] branch is not
    taken. *)
Fixpoint clearPathsElement (node : Element) (removed : list Node) (recurse : bool)
    {struct node} : Element * list Node :=
  match node with
  | mkElement t a n r cs =>
      let fix filter (cs : list Node) (removed : list Node) {struct cs}
          : list Node * list Node :=
        match cs with
        | [] => ([], removed)
        | Text s :: rest =>
            let '(rest', removed) := filter rest removed in
            (Text s :: rest', removed)
        | Elem child :: rest =>
            if String.eqb (tagName child) "path" then
              filter rest (removed ++ [Elem child])
            else
              let '(child', removed) :=
                if recurse then clearPathsElement child removed recurse
                else (child, removed) in
              let '(rest', removed) := filter rest removed in
              (Elem child' :: rest', removed)
        end in
      let '(cs', removed) := filter cs removed in
      (mkElement t a n r cs', removed)
  end.

Definition clearPaths (node : Node) (removed : list Node) (recurse : bool)
  : Node * list Node :=
  match node with
  | Text _ => (node, removed)
  | Elem e =>
      let '(e', removed) := clearPathsElement e removed recurse in
      (Elem e', removed)
  end.


(** ** notesvg.js *)

(** [parseFloat(x)] where [x] may be [undefined] *)
Definition parseFloatArg (x : option string) : number :=
  parseFloat (default "undefined" x).

(** [attributes[k] || fallback] *)
Definition attrOr (k : string) (a : Attributes) (fallback : Value) : Value :=
  orElse (from_option VStr VUndefined (getAttr k a)) fallback.

(** [transform(node)] on an element: adds [noteSvgAttributes] according to
    the tag and deletes the attributes it has parsed. *)
Fixpoint transformElement (node : Element) : Element :=
  match node with
  | mkElement t a n r cs =>
      let '(a', n') :=
        if String.eqb t "svg" then
          (deleteAttr "height" (deleteAttr "width" a),
           Some {[ "width" := VNum (num_of_Z (default 0 (Utils.parseIntArg (getAttr "width" a))));
                   "height" := VNum (num_of_Z (default 0 (Utils.parseIntArg (getAttr "height" a)))) ]})
        else if String.eqb t "notesvg" then
          (deleteAttr "version" a,
           Some {[ "version" := attrOr "version" a VUndefined ]})
        else if String.eqb t "path" then
          (deleteAttr "stroke-width" (deleteAttr "stroke" a),
           Some {[ "stroke" := attrOr "stroke" a (VStr "#000");
                   "strokeWidth" :=
                     orElse (VNum (parseFloatArg (getAttr "stroke-width" a)))
                            (VNum (num_of_Z 1)) ]})
        else (a, n) in
      mkElement t a' n' r
        (map (fun c => match c with
                       | Text s => Text s
                       | Elem e => Elem (transformElement e)
                       end) cs)
  end.

Definition transform (node : Node) : Node :=
  match node with
  | Text s => Text s
  | Elem e => Elem (transformElement e)
  end.

(** ** main.js *)

Section Deserialize.
(** [txml.parse] *)
Variable txml_parse : string -> list Node.

(** [deserializeDocument(svgString)]: the inputs handed to [txml.parse] on
    the way, and the result. *)
Definition deserializeDocument (svgString : string) : list string * Outcome Node :=
  if negb (Utils.isValidSvg svgString) then
    ([], Throw (JsError "Invalid SVG string"))
  else
    let parsedNodes := txml_parse svgString in
    match parsedNodes with
    | svgNode :: _ => ([svgString], Ok (transform svgNode))
    | [] => ([svgString], Throw (JsError "Failed to parse SVG"))
    end.
End Deserialize.

(** ** stroke.js *)

(** Calls made on a canvas context, oldest first.  Device pixel scaling is
    left out. *)
Inductive CanvasOp :=
| ClearRect
| SetSize (width height : Value)
| Line (from to : Point) (strokeStyle lineWidth : Value)
| Arc (center : Point) (diameter : Value)
| StrokePath (p : Path2D) (strokeStyle lineWidth : Value).

Record LiveStroke := mkLive { liveTool : Tool; liveStroke : list Point }.

(** [renderer.svg], [documentEditor.document] and [noteDocument] are one
    object; it is the field [svg]. *)
Record StrokeRenderer := mkRenderer {
  svg : Element;
  liveStrokes : gmap Z LiveStroke;
  tool : Tool;
  ctxFront : list CanvasOp;
  ctxBack : list CanvasOp
}.

Definition setSvg (d : Element) (st : StrokeRenderer) : StrokeRenderer :=
  mkRenderer d (liveStrokes st) (tool st) (ctxFront st) (ctxBack st).
Definition setLiveStrokes (l : gmap Z LiveStroke) (st : StrokeRenderer) : StrokeRenderer :=
  mkRenderer (svg st) l (tool st) (ctxFront st) (ctxBack st).
Definition front (ops : list CanvasOp) (st : StrokeRenderer) : StrokeRenderer :=
  mkRenderer (svg st) (liveStrokes st) (tool st) (ctxFront st ++ ops) (ctxBack st).
Definition back (ops : list CanvasOp) (st : StrokeRenderer) : StrokeRenderer :=
  mkRenderer (svg st) (liveStrokes st) (tool st) (ctxFront st) (ctxBack st ++ ops).

(** [drawNode(node)] on an element, with [recurse = true]: the element with
    its [Path2D] cached and the strokes painted, in order. *)
Fixpoint drawElement (node : Element) : Element * list CanvasOp :=
  match node with
  | mkElement t a n r cs =>
      let '(r', ops) :=
        if String.eqb t "path" then
          let ra := default emptyRender r in
          let p := default (new_Path2D (getAttr "d" a)) (path ra) in
          (Some (mkRender (Some p) (stroke ra) (shape ra)),
           [StrokePath p
              (orElse (noteAttr "stroke" node) (VStr "#000"))
              (orElse (noteAttr "strokeWidth" node) (VNum (num_of_Z 2)))])
        else (r, []) in
      let fix draw (cs : list Node) : list Node * list CanvasOp :=
        match cs with
        | [] => ([], [])
        | Text s :: rest =>
            let '(rest', ops) := draw rest in (Text s :: rest', ops)
        | Elem child :: rest =>
            let '(child', ops1) := drawElement child in
            let '(rest', ops2) := draw rest in
            (Elem child' :: rest', ops1 ++ ops2)
        end in
      let '(cs', ops') := draw cs in
      (mkElement t a n r' cs', ops ++ ops')
  end.

(** [drawBack()] *)
Definition drawBack (st : StrokeRenderer) : StrokeRenderer :=
  let '(svg', ops) := drawElement (svg st) in
  back (ClearRect :: ops) (setSvg svg' st).

(** [drawStrokeDiff(tool, stroke)].  The eraser circle uses the diameter of
    the renderer's current tool.  The hand-over of the pen trail to the
    Ink API, when the browser has one, is asynchronous and touches neither
    the tree nor the sessions; it is left out. *)
Definition drawStrokeDiff (t : Tool) (stroke : list Point) (st : StrokeRenderer)
  : StrokeRenderer :=
  if (length stroke <? 2)%nat then st
  else
    match t with
    | Pen _ _ _ =>
        match stroke !! (length stroke - 2)%nat, stroke !! (length stroke - 1)%nat with
        | Some latestStart, Some latestEnd =>
            front [Line latestStart latestEnd (toolColor t) (toolDiameter t)] st
        | _, _ => st
        end
    | Eraser _ =>
        match stroke !! (length stroke - 1)%nat with
        | Some latestEnd =>
            front [ClearRect; ClearRect; Arc latestEnd (toolDiameter (tool st))] st
        | None => st
        end
    end.

Record PointerEvent := mkEvent { clientX : number; clientY : number }.
(** [canvas.getBoundingClientRect()] *)
Record Rect := mkRect { left : number; top : number }.

Definition eventPoint (rect : Rect) (event : PointerEvent) : Point :=
  (num_sub (clientX event) (left rect), num_sub (clientY event) (top rect)).

(** [beginStroke(id, event)] *)
Definition beginStroke (id : Z) (rect : Rect) (event : PointerEvent)
    (st : StrokeRenderer) : StrokeRenderer :=
  let stroke := [eventPoint rect event] in
  let st := setLiveStrokes (<[id := mkLive (tool st) stroke]> (liveStrokes st)) st in
  drawStrokeDiff (tool st) stroke st.

(** [moveStroke(id, event)].  An error of [processEraserStroke] leaves
    the handler before the point is recorded. *)
Definition moveStroke (id : Z) (rect : Rect) (event : PointerEvent)
    (st : StrokeRenderer) : Outcome unit * StrokeRenderer :=
  match liveStrokes st !! id with
  | None => (Ok tt, st)
  | Some (mkLive t stroke) =>
      let '(erased, st) :=
        match t with
        | Eraser _ =>
            match stroke !! (length stroke - 1)%nat with
            | Some latestStart =>
                let '(doc, removed, err) :=
                  processEraserStroke (svg st) latestStart (eventPoint rect event) in
                let st := setSvg doc st in
                match err with
                | Some e => (Throw e, st)
                | None => (Ok tt, if (0 <? length removed)%nat then drawBack st else st)
                end
            | None => (Ok tt, st)
            end
        | Pen _ _ _ => (Ok tt, st)
        end in
      match erased with
      | Throw e => (Throw e, st)
      | Ok _ =>
          let stroke := stroke ++ [eventPoint rect event] in
          let st := setLiveStrokes (<[id := mkLive t stroke]> (liveStrokes st)) st in
          (Ok tt, drawStrokeDiff t stroke st)
      end
  end.

(** [endStroke(id, event)].  An error of the inner [moveStroke] leaves the
    handler at once.  Destructuring [this.liveStrokes[id]] throws a
    TypeError when the entry is [undefined]. *)
Definition endStroke (id : Z) (rect : Rect) (event : PointerEvent)
    (st : StrokeRenderer) : Outcome unit * StrokeRenderer :=
  match moveStroke id rect event st with
  | (Throw e, st) => (Throw e, st)
  | (Ok _, st) =>
      match liveStrokes st !! id with
      | None => (Throw (TypeError "Cannot destructure property 'stroke' of undefined"), st)
      | Some (mkLive t stroke) =>
          let st :=
            match t with
            | Pen _ _ _ =>
                if (2 <=? length stroke)%nat
                then setSvg (fst (finalizePenStroke (svg st) stroke t)) st
                else st
            | Eraser _ => st
            end in
          let st := front [ClearRect] st in
          let st := setLiveStrokes (delete id (liveStrokes st)) st in
          (Ok tt, drawBack st)
      end
  end.

(** [resizeCanvas()] *)
Definition resizeCanvas (st : StrokeRenderer) : Outcome unit * StrokeRenderer :=
  if negb (String.eqb (tagName (svg st)) "svg") then
    (Throw (JsError "Document root is not an SVG node!"), st)
  else
    match noteSvgAttributes (svg st) with
    | None => (Throw (TypeError "Cannot read properties of undefined"), st)
    | Some _ =>
        let op := SetSize (noteAttr "width" (svg st)) (noteAttr "height" (svg st)) in
        (Ok tt, front [op] (back [op] st))
    end.

(** ** ui.js *)

(** [updateDocument(noteDocument, renderer)].  The container styles and the
    copy written to localStorage are outside the model; the latter is
    serialised with [addLink = false], which only reads the tree. *)
Definition updateDocument (st : StrokeRenderer) : Outcome unit * StrokeRenderer :=
  match noteSvgAttributes (svg st) with
  | None => (Throw (TypeError "Cannot read properties of undefined"), st)
  | Some _ =>
      match resizeCanvas st with
      | (Ok _, st) => (Ok tt, drawBack st)
      | (Throw e, st) => (Throw e, st)
      end
  end.

(** [noteDocument.noteSvgAttributes.width = w; ....height = h] *)
Definition setSize (size : Utils.Size) (m : gmap string Value) : gmap string Value :=
  <["height" := VNum (num_of_Z (Utils.height size))]>
    (<["width" := VNum (num_of_Z (Utils.width size))]> m).

(** The click handler installed by [setupResizeButton]; [answer] is what
    [prompt] returned, [None] for a cancelled dialog. *)
Definition resizeClick (answer : option string) (st : StrokeRenderer)
  : Outcome unit * StrokeRenderer :=
  match noteSvgAttributes (svg st) with
  | None => (Throw (TypeError "Cannot read properties of undefined"), st)
  | Some m =>
      let sizeStr := default EmptyString answer in
      match Utils.parseSizeString sizeStr with
      | Some size =>
          updateDocument (setSvg (setNoteSvgAttributes (Some (setSize size m)) (svg st)) st)
      | None => (Ok tt, st)
      end
  end.

End Model.

(** ** The path codec as the specification words it

    [encode] and [encodePolyline] follow the specification of the codec:
    one leading move-to, then one command per segment or point.  They are
    compared with [generatePathData] below. *)

Section Codec.
Context `{P : Platform}.

Inductive Command :=
| MoveTo (x y : string)
| LineTo (x y : string)
| CurveTo (x1 y1 x2 y2 x y : string).

Definition renderCommand (c : Command) : string :=
  match c with
  | MoveTo x y => "M " +:+ x +:+ " " +:+ y +:+ " "
  | LineTo x y => "L " +:+ x +:+ " " +:+ y +:+ " "
  | CurveTo x1 y1 x2 y2 x y =>
      "C " +:+ x1 +:+ " " +:+ y1 +:+ ", " +:+ x2 +:+ " " +:+ y2 +:+ ", "
           +:+ x +:+ " " +:+ y +:+ " "
  end.

Fixpoint renderPath (cs : list Command) : string :=
  match cs with
  | [] => EmptyString
  | c :: r => renderCommand c +:+ renderPath r
  end.

(** A number rounded to one decimal place: [Number.prototype.toFixed]
    with one digit after the point. *)
Definition oneDecimal (x : number) : string := toFixed x 1.

Definition curveCommand (fmt : number -> string) (c : Curve) : Command :=
  let '(_, c1, c2, p3) := c in
  CurveTo (fmt (fst c1)) (fmt (snd c1)) (fmt (fst c2)) (fmt (snd c2))
          (fmt (fst p3)) (fmt (snd p3)).

Definition encode (fmt : number -> string) (segments : list Curve) : list Command :=
  match segments with
  | [] => []
  | (p0, _, _, _) :: _ =>
      MoveTo (fmt (fst p0)) (fmt (snd p0)) :: map (curveCommand fmt) segments
  end.

Definition encodePolyline (fmt : number -> string) (points : list Point) : list Command :=
  match points with
  | [] => []
  | p0 :: rest =>
      MoveTo (fmt (fst p0)) (fmt (snd p0))
        :: map (fun p => LineTo (fmt (fst p)) (fmt (snd p))) rest
  end.

End Codec.

(** ** Predicates and relations on trees *)

Section TreePredicates.
Context `{P : Platform}.

(** The callback of [node.children.filter] in [filterIntersecting] on an
    element child: the child as the callback leaves it, [childIntersects],
    and the error when it throws. *)
Definition visitChild (line : Shape) (keepIntersecting recurse : bool) (child : Element)
  : Element * bool * option Error :=
  match intersectChild line child with
  | (ra, Throw e) => (setRenderAttributes ra child, false, Some e)
  | (ra, Ok childIntersects) =>
      if recurse then
        let '(c, _, err) :=
          filterIntersectingElement line child [] keepIntersecting recurse in
        (setRenderAttributes ra c, childIntersects, err)
      else (setRenderAttributes ra child, childIntersects, None)
  end.

(** The [node.children.filter] loop of [filterIntersecting], named so that
    it can be reasoned about on its own. *)
Definition filterChildren (line : Shape) (keepIntersecting recurse : bool)
  : list Node -> list Node -> list Node * list Node * list Node * option Error :=
  fix filter (cs : list Node) (removed : list Node) {struct cs} :=
    match cs with
    | [] => ([], [], removed, None)
    | Text s :: rest =>
        let '(now, kept, removed, err) := filter rest removed in
        (Text s :: now, Text s :: kept, removed, err)
    | Elem child :: rest =>
        let '(child', childIntersects, err) :=
          visitChild line keepIntersecting recurse child in
        let removed := if childIntersects then removed ++ [Elem child'] else removed in
        match err with
        | Some e => (Elem child' :: rest, [], removed, Some e)
        | None =>
            let '(now, kept, removed, err) := filter rest removed in
            (Elem child' :: now,
             if keepIntersecting || negb childIntersects
             then Elem child' :: kept else kept,
             removed, err)
        end
    end.

(** An element child as the callback of [filterIntersecting] leaves it:
    its shape cached when it is a Path and the shape could be built, its
    own children filtered when [recurse] is set. *)
Definition visited (line : Shape) (keepIntersecting recurse : bool) (child : Element)
  : Element :=
  fst (fst (visitChild line keepIntersecting recurse child)).

Definition visitedNode (line : Shape) (keepIntersecting recurse : bool) (c : Node)
  : Node :=
  match c with
  | Text s => Text s
  | Elem e => Elem (visited line keepIntersecting recurse e)
  end.

(** The intersection test on an element came out positive. *)
Definition hits (line : Shape) (e : Element) : bool :=
  match snd (intersectChild line e) with
  | Ok childIntersects => childIntersects
  | Throw _ => false
  end.

(** The intersection test on an element returned, and came out negative. *)
Definition misses (line : Shape) (e : Element) : bool :=
  match snd (intersectChild line e) with
  | Ok childIntersects => negb childIntersects
  | Throw _ => false
  end.

(** The children that stay, and the children whose test is positive. *)
Definition keptChildren (line : Shape) (keepIntersecting recurse : bool)
    (cs : list Node) : list Node :=
  flat_map (fun c => match c with
                     | Text s => [Text s]
                     | Elem e =>
                         if keepIntersecting || negb (hits line e)
                         then [Elem (visited line keepIntersecting recurse e)]
                         else []
                     end) cs.

Definition hitChildren (line : Shape) (keepIntersecting recurse : bool)
    (cs : list Node) : list Node :=
  flat_map (fun c => match c with
                     | Text s => []
                     | Elem e =>
                         if hits line e
                         then [Elem (visited line keepIntersecting recurse e)]
                         else []
                     end) cs.

(** The same for [clearPaths]. *)
Definition clearChildren (recurse : bool)
  : list Node -> list Node -> list Node * list Node :=
  fix filter (cs : list Node) (removed : list Node) {struct cs} :=
    match cs with
    | [] => ([], removed)
    | Text s :: rest =>
        let '(rest', removed) := filter rest removed in
        (Text s :: rest', removed)
    | Elem child :: rest =>
        if String.eqb (tagName child) "path" then
          filter rest (removed ++ [Elem child])
        else
          let '(child', removed) :=
            if recurse then clearPathsElement child removed recurse
            else (child, removed) in
          let '(rest', removed) := filter rest removed in
          (Elem child' :: rest', removed)
    end.

(** The loop over the children in [drawNode]. *)
Definition drawChildren : list Node -> list Node * list CanvasOp :=
  fix draw (cs : list Node) :=
    match cs with
    | [] => ([], [])
    | Text s :: rest =>
        let '(rest', ops) := draw rest in (Text s :: rest', ops)
    | Elem child :: rest =>
        let '(child', ops1) := drawElement child in
        let '(rest', ops2) := draw rest in
        (Elem child' :: rest', ops1 ++ ops2)
    end.

(** A property of every element child of a list. *)
Definition childrenAll (Q : Element -> Prop) (cs : list Node) : Prop :=
  Forall (fun c => match c with Elem e => Q e | Text _ => True end) cs.

Definition allElements (f : Element -> bool) (cs : list Node) : bool :=
  forallb (fun c => match c with Elem e => f e | Text _ => true end) cs.

(** Number of nodes of a tree that are not Path elements, text leaves
    included. *)
Fixpoint nonPathCountElement (e : Element) : nat :=
  match e with
  | mkElement t _ _ _ cs =>
      ((if String.eqb t "path" then 0 else 1)
       + list_sum (map (fun c => match c with
                                 | Text _ => 1
                                 | Elem c => nonPathCountElement c
                                 end) cs))%nat
  end.

Definition nonPathCount (n : Node) : nat :=
  match n with
  | Text _ => 1%nat
  | Elem e => nonPathCountElement e
  end.

(** The data-model invariant: a Path element has no children. *)
Fixpoint pathLeavesElement (e : Element) : bool :=
  match e with
  | mkElement t _ _ _ cs =>
      (if String.eqb t "path" then match cs with [] => true | _ => false end else true)
      && forallb (fun c => match c with
                           | Text _ => true
                           | Elem c => pathLeavesElement c
                           end) cs
  end.

Definition pathLeaves (n : Node) : bool :=
  match n with
  | Text _ => true
  | Elem e => pathLeavesElement e
  end.

(** [Pruned line n n']: [n'] is [n] with some Path children, at any depth,
    left out, each of them one whose test against [line] is positive; an
    element that stays keeps its tag, attributes and note attributes, and
    its render attributes are as before or as the test leaves them. *)
Inductive Pruned (line : Shape) : Node -> Node -> Prop :=
| Pruned_text s : Pruned line (Text s) (Text s)
| Pruned_elem t a n r r' cs cs' :
    PrunedList line cs cs' ->
    r' = r \/ r' = fst (intersectChild line (mkElement t a n r cs)) ->
    Pruned line (Elem (mkElement t a n r cs)) (Elem (mkElement t a n r' cs'))
with PrunedList (line : Shape) : list Node -> list Node -> Prop :=
| Pruned_nil : PrunedList line [] []
| Pruned_keep c c' cs cs' :
    Pruned line c c' -> PrunedList line cs cs' ->
    PrunedList line (c :: cs) (c' :: cs')
| Pruned_drop e cs cs' :
    isPath e = true -> hits line e = true -> PrunedList line cs cs' ->
    PrunedList line (Elem e :: cs) cs'.

(** No Path element strictly below [e]. *)
Fixpoint pathFree (e : Element) : bool :=
  match e with
  | mkElement _ _ _ _ cs =>
      forallb (fun c => match c with
                        | Text _ => true
                        | Elem c => negb (String.eqb (tagName c) "path") && pathFree c
                        end) cs
  end.

Definition pathFreeNode (c : Node) : bool :=
  match c with
  | Text _ => true
  | Elem c => negb (isPath c) && pathFree c
  end.

(** No Path element among the children of [e]. *)
Definition pathFreeChildren (e : Element) : bool :=
  allElements (fun c => negb (isPath c)) (children e).

(** Every Path element of the tree carries its [Path2D]: the state of a
    document once [drawBack] has run. *)
Fixpoint painted (e : Element) : bool :=
  match e with
  | mkElement t _ _ r cs =>
      (if String.eqb t "path"
       then match r with
            | Some ra => match path ra with Some _ => true | None => false end
            | None => false
            end
       else true)
      && forallb (fun c => match c with
                           | Text _ => true
                           | Elem c => painted c
                           end) cs
  end.

(** The tree as [drawBack] leaves it. *)
Definition drawn (e : Element) : Element := fst (drawElement e).

End TreePredicates.

(** ** A concrete platform

    Integer coordinates and a toy geometry, used to run the definitions on
    explicit documents. *)

Module Demo.

Definition show (z : Z) : string := Utils.showInt z.

Inductive DemoShape :=
| PathShape (d : option string)
| LineShape (a b : Z * Z).

(** A path is crossed by every segment of non-zero length when its data
    starts with a move-to. *)
Definition status (s line : DemoShape) : string :=
  match s, line with
  | PathShape (Some d), LineShape a b =>
      if Utils.startsWith d "M" && negb (Z.eqb (fst a) (fst b) && Z.eqb (snd a) (snd b))
      then "Intersection" else "No Intersection"
  | _, _ => "No Intersection"
  end.

(** One straight cubic per pair of consecutive points; throws on a stroke
    that starts at a negative abscissa, and fits nothing to two points. *)
Fixpoint fit (pts : list (Z * Z)) : list ((Z * Z) * (Z * Z) * (Z * Z) * (Z * Z)) :=
  match pts with
  | p :: ((q :: _) as rest) => (p, p, q, q) :: fit rest
  | _ => []
  end.

Definition demoFitCurve (pts : list (Z * Z)) (maxError : Z)
  : option (list ((Z * Z) * (Z * Z) * (Z * Z) * (Z * Z))) :=
  match pts with
  | (x, _) :: _ =>
      if x <? 0 then None
      else if (length pts <=? 2)%nat then Some []
      else Some (fit pts)
  | [] => None
  end.

(** [ShapeInfo.path]: throws when there is no path data. *)
Definition demoPath (d : option string) : Outcome DemoShape :=
  match d with
  | Some s => Ok (PathShape (Some s))
  | None => Throw (TypeError "Cannot read properties of undefined")
  end.

(** [toFixed] on an integer: the digits, then a point and [decimals]
    zeros when [decimals] is not zero. *)
Fixpoint zeros (n : nat) : string :=
  match n with
  | O => EmptyString
  | S n => String "0" (zeros n)
  end.

Definition demoToFixed (z : Z) (decimals : nat) : string :=
  match decimals with
  | O => show z
  | S _ => show z +:+ "." +:+ zeros decimals
  end.

Definition platform : Platform := {|
  number := Z;
  num_of_Z := fun z => z;
  num_sub := Z.sub;
  num_truthy := fun z => negb (Z.eqb z 0);
  toFixed := demoToFixed;
  num_toString := show;
  parseFloat := fun s => default 0 (Utils.parseInt s);
  Shape := DemoShape;
  ShapeInfo_path := demoPath;
  ShapeInfo_line := LineShape;
  Intersection_status := status;
  fitCurve := demoFitCurve
|}.

Definition penTool : @Tool platform := @Pen platform "#000" 2 1.
Definition eraserTool : @Tool platform := @Eraser platform 10.

(** [<path d=... fill="none"/>] as [createPathFromStroke] builds it *)
Definition pathOf (pts : list (Z * Z)) : @Element platform :=
  @createPathFromStroke platform pts penTool.

Definition group (cs : list (@Node platform)) : @Element platform :=
  @mkElement platform "g" [] None None cs.

Definition root (cs : list (@Node platform)) : @Element platform :=
  @mkElement platform "svg" [("xmlns", "http://www.w3.org/2000/svg")]
    (Some {[ "width" := @VNum platform 360; "height" := @VNum platform 360 ]})
    None cs.

(** A document holding a stroke inside a group and a text leaf, an idle
    renderer on it, and the same renderer after a pen and after an eraser
    have been put down. *)
Definition doc0 : @Element platform :=
  root [Elem (group [Elem (pathOf [(0, 0); (10, 0); (20, 0)])]); Text "note"].

Definition idle : @StrokeRenderer platform :=
  @mkRenderer platform doc0 ∅ penTool [] [].

Definition rect0 : @Rect platform := @mkRect platform 0 0.

Definition penDown : @StrokeRenderer platform :=
  @beginStroke platform 1 rect0 (@mkEvent platform 0 0) idle.

Definition eraserDown : @StrokeRenderer platform :=
  @beginStroke platform 2 rect0 (@mkEvent platform 5 (-5))
    (@mkRenderer platform doc0 ∅ eraserTool [] []).



End Demo.

(** ** notesvg.js: serialization *)

Section Serialization.
Context `{P : Platform}.

(** The double quote that delimits an attribute value. *)
Definition dquote : string := String "034"%char EmptyString.

(** ToString, as a template literal applies it. *)
Definition valueToString (v : Value) : string :=
  match v with
  | VNum n => num_toString n
  | VStr s => s
  | VUndefined => "undefined"
  end.

(** [obj[k] = v] on an object whose keys are listed in insertion order:
    an existing key keeps its place.  Keys are taken not to be array
    indices, which JavaScript would enumerate first. *)
Fixpoint setProp (k : string) (v : Value) (a : list (string * Value))
  : list (string * Value) :=
  match a with
  | [] => [(k, v)]
  | (k', v') :: r =>
      if String.eqb k' k then (k, v) :: r else (k', v') :: setProp k v r
  end.

(** ToBoolean on a [string | null] argument *)
Definition truthyStr (o : option string) : bool :=
  match o with
  | Some s => negb (String.eqb s EmptyString)
  | None => false
  end.

(** [{ ...node.attributes }] *)
Definition asProps (a : Attributes) : list (string * Value) :=
  map (fun kv => (fst kv, VStr (snd kv))) a.

(** The [attributes] object that [toSvg] builds for an element: a copy of
    the node's attributes, merged with its note attributes according to
    the tag.  Reading a note attribute of an element that has none throws
    a TypeError. *)
Definition svgProps (node : Element) (overrideStroke overrideBg : option string)
  : Outcome (list (string * Value)) :=
  let attrs := asProps (attributes node) in
  if String.eqb (tagName node) "svg" then
    match noteSvgAttributes node with
    | None => Throw (TypeError "Cannot read properties of undefined")
    | Some m =>
        let attrs := setProp "width" (default VUndefined (m !! "width")) attrs in
        let attrs := setProp "height" (default VUndefined (m !! "height")) attrs in
        Ok (if truthyStr overrideStroke && truthyStr overrideBg
            then setProp "style"
                   (VStr ("border: 2px solid " +:+ default EmptyString overrideStroke
                          +:+ "; background-color: "
                          +:+ default EmptyString overrideBg +:+ ";")) attrs
            else attrs)
    end
  else if String.eqb (tagName node) "notesvg" then
    match noteSvgAttributes node with
    | None => Throw (TypeError "Cannot read properties of undefined")
    | Some m => Ok (setProp "version" (default VUndefined (m !! "version")) attrs)
    end
  else if String.eqb (tagName node) "path" then
    match noteSvgAttributes node with
    | None => Throw (TypeError "Cannot read properties of undefined")
    | Some m =>
        let attrs :=
          setProp "stroke"
            (if truthyStr overrideStroke
             then VStr (default EmptyString overrideStroke)
             else default VUndefined (m !! "stroke")) attrs in
        Ok (setProp "stroke-width" (default VUndefined (m !! "strokeWidth")) attrs)
    end
  else Ok attrs.

(** The [for (const key in attributes)] loop *)
Definition attrString (props : list (string * Value)) : string :=
  fold_left
    (fun acc kv =>
       acc +:+ " " +:+ fst kv +:+ "=" +:+ dquote +:+ valueToString (snd kv) +:+ dquote)
    props EmptyString.

(** [toSvg(node, overrideStroke, overrideBg)] on an element *)
Fixpoint toSvgElement (node : Element) (overrideStroke overrideBg : option string)
    {struct node} : Outcome string :=
  match node with
  | mkElement t a n r cs =>
      match svgProps (mkElement t a n r cs) overrideStroke overrideBg with
      | Throw e => Throw e
      | Ok props =>
          let svg := "<" +:+ t +:+ attrString props +:+ ">" in
          let fix loop (cs : list Node) (svg : string) {struct cs} : Outcome string :=
            match cs with
            | [] => Ok svg
            | Text s :: rest => loop rest (svg +:+ s)
            | Elem child :: rest =>
                match toSvgElement child overrideStroke overrideBg with
                | Ok s => loop rest (svg +:+ s)
                | Throw e => Throw e
                end
            end in
          match loop cs svg with
          | Ok svg => Ok (svg +:+ "</" +:+ t +:+ ">")
          | Throw e => Throw e
          end
      end
  end.

Definition toSvg (node : Node) (overrideStroke overrideBg : option string)
  : Outcome string :=
  match node with
  | Text s => Ok s
  | Elem e => toSvgElement e overrideStroke overrideBg
  end.

(** The loop over the children in [toSvg], named for the proofs. *)
Definition toSvgChildren (overrideStroke overrideBg : option string)
  : list Node -> string -> Outcome string :=
  fix loop (cs : list Node) (svg : string) {struct cs} :=
    match cs with
    | [] => Ok svg
    | Text s :: rest => loop rest (svg +:+ s)
    | Elem child :: rest =>
        match toSvgElement child overrideStroke overrideBg with
        | Ok s => loop rest (svg +:+ s)
        | Throw e => Throw e
        end
    end.

(** ** ui.js: serializing the document *)

(** [LINK_ELEMENT]; [origin] is [window.location.origin]. *)
Definition LINK_ELEMENT (origin : string) : Element :=
  mkElement "a" [("href", origin); ("target", "_blank")] None None
    [Elem (mkElement "text"
             [("x", "100%"); ("y", "100%"); ("dx", "-5"); ("dy", "-5");
              ("text-anchor", "end"); ("dominant-baseline", "text-after-edge");
              ("fill", "#000"); ("font-family", "sans-serif");
              ("font-size", "12px"); ("font-weight", "bold");
              ("text-decoration", "underline")]
             None None [Text "Edit"])].

(** The predicate of [noteDocument.children.find] *)
Definition isLink (origin : string) (item : Node) : bool :=
  match item with
  | Text _ => false
  | Elem e =>
      String.eqb (tagName e) "a"
      && match getAttr "href" (attributes e) with
         | Some h => String.eqb h origin
         | None => false
         end
  end.

(** [serializeDocument(noteDocument, addLink)]: the document as the call
    leaves it, and the string or the error of [toSvg]. *)
Definition serializeDocument (origin : string) (noteDocument : Element) (addLink : bool)
  : Element * Outcome string :=
  let noteDocument :=
    if addLink then
      if existsb (isLink origin) (children noteDocument) then noteDocument
      else setChildren (children noteDocument ++ [Elem (LINK_ELEMENT origin)]) noteDocument
    else noteDocument in
  (noteDocument, toSvgElement noteDocument None None).

(** ** utils.js: localStorage

    The stored item is an [option string]; [getItem] and [setItem] are
    taken to return. *)

(** [saveToLocalStorage(document, serializeDocument)]: the stored item
    afterwards.  An error of the serializer is caught and logged. *)
Definition saveToLocalStorage (document : Element)
    (serialize : Element -> bool -> Element * Outcome string)
    (storage : option string) : Element * option string :=
  match serialize document false with
  | (document, Ok svgString) => (document, Some svgString)
  | (document, Throw _) => (document, storage)
  end.

(** [loadFromLocalStorage(deserializeDocument, createDefaultDocument)] *)
Definition loadFromLocalStorage (deserialize : string -> Outcome Node)
    (createDefault : Node) (storage : option string) : Node :=
  match storage with
  | Some svgString =>
      if negb (String.eqb svgString EmptyString) && Utils.isValidSvg svgString then
        match deserialize svgString with
        | Ok document => document
        | Throw _ => createDefault
        end
      else createDefault
  | None => createDefault
  end.

(** ** main.js: the default document *)

(** [createDefaultDocument()] *)
Definition createDefaultDocument : Element :=
  mkElement "svg"
    [("xmlns", "http://www.w3.org/2000/svg"); ("style", "border: 2px solid #000")]
    (Some {[ "width" := VNum (num_of_Z 360); "height" := VNum (num_of_Z 360) ]})
    None
    [Elem (mkElement "metadata" [] (Some ∅) None
             [Elem (mkElement "notesvg" [] (Some {[ "version" := VStr "1.0" ]}) None [])])].

(** ** ui.js: erasing everything *)

(** The double-click handler of the eraser button; [confirmed] is the
    answer to [confirm]. *)
Definition eraseAllClick (confirmed : bool) (st : StrokeRenderer) : StrokeRenderer :=
  if confirmed then
    drawBack (setSvg (fst (clearPathsElement (svg st) [] true)) st)
  else st.

(** [renderer.tool = t], as the pencil and eraser buttons do *)
Definition setTool (t : Tool) (st : StrokeRenderer) : StrokeRenderer :=
  mkRenderer (svg st) (liveStrokes st) t (ctxFront st) (ctxBack st).

(** ** More predicates on trees *)

(** What [drawNode] does on the node itself, before it visits the
    children: the render attributes it leaves and the stroke it paints. *)
Definition paintHere (node : Element) : option RenderAttributes * list CanvasOp :=
  if String.eqb (tagName node) "path" then
    let ra := default emptyRender (renderAttributes node) in
    let p := default (new_Path2D (getAttr "d" (attributes node))) (path ra) in
    (Some (mkRender (Some p) (stroke ra) (shape ra)),
     [StrokePath p
        (orElse (noteAttr "stroke" node) (VStr "#000"))
        (orElse (noteAttr "strokeWidth" node) (VNum (num_of_Z 2)))])
  else (renderAttributes node, []).

(** The tree without its render attributes. *)
Fixpoint skeleton (e : Element) : Element :=
  match e with
  | mkElement t a n _ cs =>
      mkElement t a n None
        (map (fun c => match c with
                       | Text s => Text s
                       | Elem c => Elem (skeleton c)
                       end) cs)
  end.

Definition skeletonNode (c : Node) : Node :=
  match c with
  | Text s => Text s
  | Elem c => Elem (skeleton c)
  end.

(** Number of Path elements of a tree, the root included. *)
Fixpoint pathCount (e : Element) : nat :=
  match e with
  | mkElement t _ _ _ cs =>
      ((if String.eqb t "path" then 1 else 0)
       + list_sum (map (fun c => match c with
                                 | Text _ => 0
                                 | Elem c => pathCount c
                                 end) cs))%nat
  end.

Definition pathCountNode (c : Node) : nat :=
  match c with
  | Text _ => 0%nat
  | Elem c => pathCount c
  end.

(** On every element of the tree, the root included, the test returns
    and comes out negative. *)
Fixpoint noHit (line : Shape) (e : Element) : bool :=
  match e with
  | mkElement t a n r cs =>
      misses line (mkElement t a n r cs)
      && forallb (fun c => match c with
                           | Text _ => true
                           | Elem c => noHit line c
                           end) cs
  end.

Definition noHitNode (line : Shape) (c : Node) : bool :=
  match c with
  | Text _ => true
  | Elem c => noHit line c
  end.

(** The caches of an element agree with its path data: a cached [Path2D]
    and a cached shape are the ones built from the [d] attribute. *)
Definition coherentHere (e : Element) : Prop :=
  match renderAttributes e with
  | None => True
  | Some ra =>
      (forall p, path ra = Some p -> p = new_Path2D (getAttr "d" (attributes e))) /\
      (forall s, shape ra = Some s -> ShapeInfo_path (getAttr "d" (attributes e)) = Ok s)
  end.

(** Every Path element of the tree has coherent caches. *)
Fixpoint Coherent (e : Element) : Prop :=
  match e with
  | mkElement t a n r cs =>
      (String.eqb t "path" = true -> coherentHere (mkElement t a n r cs))
      /\ (fix all (cs : list Node) : Prop :=
            match cs with
            | [] => True
            | Text _ :: rest => all rest
            | Elem c :: rest => Coherent c /\ all rest
            end) cs
  end.

Fixpoint CoherentList (cs : list Node) : Prop :=
  match cs with
  | [] => True
  | Text _ :: rest => CoherentList rest
  | Elem c :: rest => Coherent c /\ CoherentList rest
  end.

(** Every [svg], [notesvg] and [path] element of the tree has note
    attributes, as [transform] and the editor leave them. *)
Fixpoint annotated (e : Element) : bool :=
  match e with
  | mkElement t _ n _ cs =>
      (if String.eqb t "svg" || String.eqb t "notesvg" || String.eqb t "path"
       then match n with Some _ => true | None => false end
       else true)
      && forallb (fun c => match c with
                           | Text _ => true
                           | Elem c => annotated c
                           end) cs
  end.

Definition annotatedNode (c : Node) : bool :=
  match c with
  | Text _ => true
  | Elem c => annotated c
  end.

End Serialization.


(** ** stroke.js: a drag, and the bounding box *)

Section Dragging.
Context `{P : Platform}.

(** The [pointermove] handler of [setupCanvas] run on a sequence of
    events of one pointer; an error ends the handler that raised it, not
    the later ones. *)
Definition moveAll (id : Z) (rect : Rect) (events : list PointerEvent)
    (st : StrokeRenderer) : StrokeRenderer :=
  fold_left (fun st event => snd (moveStroke id rect event st)) events st.

(** The segments that join consecutive points, drawn with a pen. *)
Fixpoint segments (t : Tool) (p : Point) (pts : list Point) : list CanvasOp :=
  match pts with
  | [] => []
  | q :: rest => Line p q (toolColor t) (toolDiameter t) :: segments t q rest
  end.

(** [{ min: [x0, y0], max: [x1, y1] }] *)
Record BBox := mkBBox { bmin : Value * Value; bmax : Value * Value }.

Section BoundingBox.
(** [Math.min] on two arguments *)
Variable Math_min : Value -> Value -> Value.
(** [shape.getBoundingBox()] on a shape of kld-intersections: whether the
    call returns; its result is only logged. *)
Variable Shape_getBoundingBox : Shape -> Outcome unit.

(** The update of [bbox] by the box of one child. *)
Definition mergeBox (bbox childBbox : BBox) : BBox :=
  mkBBox (Math_min (fst (bmin bbox)) (fst (bmin childBbox)),
          Math_min (snd (bmin bbox)) (snd (bmin childBbox)))
         (Math_min (fst (bmax bbox)) (fst (bmax childBbox)),
          Math_min (snd (bmax bbox)) (snd (bmax childBbox))).

(** The statements of [getBoundingBox] on a Path node: the render
    attributes after [||=], and the error of
    [console.log(node.renderAttributes.shape?.getBoundingBox())], which
    calls the method when a shape is cached. *)
Definition logShape (t : string) (r : option RenderAttributes)
  : option RenderAttributes * option Error :=
  if String.eqb t "path" then
    let ra := default emptyRender r in
    (Some ra,
     match shape ra with
     | Some sh =>
         match Shape_getBoundingBox sh with
         | Ok _ => None
         | Throw e => Some e
         end
     | None => None
     end)
  else (r, None).

(** [getBoundingBox(node, recurse)] on an element, [width] and [height]
    being the note attributes of the document root: the element as the
    call leaves it, and the box or the error.  When the call on a child
    throws, the loop is left and the later children are not visited. *)
Fixpoint getBoundingBoxElement (width height : Value) (node : Element) (recurse : bool)
    {struct node} : Element * Outcome BBox :=
  match node with
  | mkElement t a n r cs =>
      let bbox := mkBBox (VNum (num_of_Z 0), VNum (num_of_Z 0)) (width, height) in
      let '(r', err) := logShape t r in
      let fix loop (cs : list Node) (bbox : BBox) {struct cs}
          : list Node * Outcome BBox :=
        match cs with
        | [] => ([], Ok bbox)
        | Text s :: rest =>
            let '(rest', res) := loop rest bbox in (Text s :: rest', res)
        | Elem child :: rest =>
            match getBoundingBoxElement width height child true with
            | (child', Throw e) => (Elem child' :: rest, Throw e)
            | (child', Ok childBbox) =>
                let '(rest', res) := loop rest (mergeBox bbox childBbox) in
                (Elem child' :: rest', res)
            end
        end in
      match err with
      | Some e => (mkElement t a n r' cs, Throw e)
      | None =>
          if recurse then
            let '(cs', res) := loop cs bbox in (mkElement t a n r' cs', res)
          else (mkElement t a n r' cs, Ok bbox)
      end
  end.


(** [getBoundingBox(node, recurse)]: the node as the call leaves it, and
    the box or the error, [None] standing for [null].  Reading the size of
    a root without note attributes throws a TypeError. *)
Definition getBoundingBox (st : StrokeRenderer) (node : Node) (recurse : bool)
  : Node * Outcome (option BBox) :=
  match node with
  | Text s => (Text s, Ok None)
  | Elem e =>
      match noteSvgAttributes (svg st) with
      | None => (Elem e, Throw (TypeError "Cannot read properties of undefined"))
      | Some _ =>
          let '(e', res) :=
            getBoundingBoxElement (noteAttr "width" (svg st)) (noteAttr "height" (svg st))
              e recurse in
          (Elem e',
           match res with
           | Ok bbox => Ok (Some bbox)
           | Throw err => Throw err
           end)
      end
  end.


End BoundingBox.

End Dragging.

(** ** ui.js: loading a document *)

Section Loading.
Context `{P : Platform}.
(** [txml.parse] *)
Variable txml_parse : string -> list Node.

(** [Object.assign(noteDocument, newDocument)]: every property that
    [newDocument] has replaces the one of [noteDocument]. *)
Definition objectAssign (noteDocument newDocument : Element) : Element :=
  mkElement (tagName newDocument) (attributes newDocument)
    (match noteSvgAttributes newDocument with
     | Some m => Some m
     | None => noteSvgAttributes noteDocument
     end)
    (match renderAttributes newDocument with
     | Some r => Some r
     | None => renderAttributes noteDocument
     end)
    (children newDocument).

(** What the user is told when a load fails. *)
Inductive Alert :=
| NotAnSvg
| LoadError (e : Error).

(** [Object.assign(noteDocument, newDocument); updateDocument(...)].  A
    string has index properties only, which the record does not hold. *)
Definition replaceDocument (newDocument : Node) (st : StrokeRenderer)
  : option Alert * StrokeRenderer :=
  let st :=
    match newDocument with
    | Elem d => setSvg (objectAssign (svg st) d) st
    | Text _ => st
    end in
  match updateDocument st with
  | (Ok _, st) => (None, st)
  | (Throw e, st) => (Some (LoadError e), st)
  end.

(** The [onload] handler of the file reader in [setupUploadButton];
    [result] is the text of the file. *)
Definition uploadLoaded (result : string) (st : StrokeRenderer)
  : option Alert * StrokeRenderer :=
  match snd (deserializeDocument txml_parse result) with
  | Ok newDocument => replaceDocument newDocument st
  | Throw e => (Some (LoadError e), st)
  end.

(** The click handler of [setupPasteButton]; [text] is what the clipboard
    or the prompt gave. *)
Definition pasteClick (text : string) (st : StrokeRenderer)
  : option Alert * StrokeRenderer :=
  if Utils.isValidSvg text then
    match snd (deserializeDocument txml_parse text) with
    | Ok newDocument => replaceDocument newDocument st
    | Throw e => (Some (LoadError e), st)
    end
  else (Some NotAnSvg, st).

End Loading.

(** A [Math.min] for the demo platform, whose numbers are integers. *)
Module DemoMath.
Definition Math_min (a b : @Value Demo.platform) : @Value Demo.platform :=
  match a, b with
  | VNum x, VNum y => @VNum Demo.platform (Z.min x y)
  | _, _ => @VUndefined Demo.platform
  end.

(** [getBoundingBox] on a demo shape: shapes of paths have one, line
    shapes do not. *)
Definition Shape_getBoundingBox (s : Demo.DemoShape) : Outcome unit :=
  match s with
  | Demo.PathShape _ => Ok tt
  | Demo.LineShape _ _ => Throw (TypeError "getBoundingBox is not a function")
  end.

(** [txml.parse] on the one document of the demo *)
Definition txml_parse (s : string) : list (@Node Demo.platform) :=
  [Elem (@mkElement Demo.platform "svg" [("width", "20"); ("height", "10")] None None
           [Elem (@mkElement Demo.platform "path"
                    [("d", "M 0 0 L 1 1"); ("stroke", "#123456")] None None [])])].
End DemoMath.
(** * Properties *)

(** ** utils.js *)

Module UtilsFacts.
Import Utils.

Lemma append_nil_r (s : string) : s +:+ EmptyString = s.
Proof. induction s as [|c s IH]; simpl; congruence. Qed.

Lemma append_assoc (a b c : string) : (a +:+ b) +:+ c = a +:+ (b +:+ c).
Proof. induction a as [|x a IH]; simpl; congruence. Qed.

Lemma length_append (a b : string) :
  String.length (a +:+ b) = (String.length a + String.length b)%nat.
Proof. induction a as [|x a IH]; simpl; congruence. Qed.

Lemma startsWith_spec (s p : string) :
  startsWith s p = true <-> exists r, s = p +:+ r.
Proof.
  revert s; induction p as [|a p IH]; intros s; simpl.
  - split; [intros _; exists s; reflexivity | intros _; now destruct s].
  - destruct s as [|b s]; simpl.
    + split; [discriminate | intros [r H]; discriminate H].
    + destruct (Ascii.eqb_spec a b) as [->|Hne].
      * split.
        -- intros H. apply IH in H as [r ->]. now exists r.
        -- intros [r Hr]. apply IH. exists r. now injection Hr.
      * split; [discriminate | intros [r H]; injection H; congruence].
Qed.

Lemma substring_all (p : string) : substring 0 (String.length p) p = p.
Proof. induction p as [|c p IH]; simpl; congruence. Qed.

Lemma substring_suffix (r p : string) :
  substring (String.length r) (String.length p) (r +:+ p) = p.
Proof.
  induction r as [|c r IH]; simpl.
  - apply substring_all.
  - exact IH.
Qed.

Lemma substring_split (s : string) (i : nat) :
  (i <= String.length s)%nat ->
  s = substring 0 i s +:+ substring i (String.length s - i) s.
Proof.
  revert i; induction s as [|c s IH]; intros i Hi; simpl in *.
  - destruct i; reflexivity.
  - destruct i as [|i]; simpl.
    + now rewrite substring_all.
    + f_equal. apply IH. lia.
Qed.

Lemma endsWith_spec (s p : string) :
  endsWith s p = true <-> exists r, s = r +:+ p.
Proof.
  unfold endsWith. split.
  - destruct (Nat.leb_spec (String.length p) (String.length s)) as [Hle|]; [|discriminate].
    intros H. apply String.eqb_eq in H.
    exists (substring 0 (String.length s - String.length p) s).
    pose proof (substring_split s (String.length s - String.length p)) as Hs.
    replace (String.length s - (String.length s - String.length p))%nat
      with (String.length p) in Hs by lia.
    rewrite H in Hs. apply Hs. lia.
  - intros [r ->]. rewrite length_append.
    destruct (Nat.leb_spec (String.length p) (String.length r + String.length p)); [|lia].
    replace (String.length r + String.length p - String.length p)%nat
      with (String.length r) by lia.
    rewrite substring_suffix. apply String.eqb_refl.
Qed.

(** [isValidSvg] holds exactly of the strings whose trimmed form opens with
    [<svg] and closes with [</svg>]. *)
Lemma isValidSvg_spec (text : string) :
  isValidSvg text = true <->
  (exists r, trim text = "<svg" +:+ r) /\ (exists r, trim text = r +:+ "</svg>").
Proof.
  unfold isValidSvg. rewrite andb_true_iff, startsWith_spec, endsWith_spec.
  reflexivity.
Qed.

(** C10. A size string whose first two [x]-separated fields are read as
    integers by [parseInt] yields a non-null size holding exactly those
    integers; no sign condition is imposed, so zero and negative
    dimensions are accepted. *)
Theorem parseSizeString_accepts_any_integers (sizeStr a b : string) (w h : Z) :
  split "x" sizeStr !! 0%nat = Some a ->
  split "x" sizeStr !! 1%nat = Some b ->
  parseInt (trim a) = Some w ->
  parseInt (trim b) = Some h ->
  parseSizeString sizeStr = Some (mkSize w h).
Proof.
  intros Ha Hb Hw Hh. unfold parseSizeString.
  rewrite Ha, Hb. simpl. now rewrite Hw, Hh.
Qed.

Lemma parseSizeString_accepts_any_integers_witness :
  parseSizeString "0x0" = Some (mkSize 0 0) /\
  parseSizeString "-5x10" = Some (mkSize (-5) 10).
Proof.
  split.
  - apply (parseSizeString_accepts_any_integers "0x0" "0" "0" 0 0); reflexivity.
  - apply (parseSizeString_accepts_any_integers "-5x10" "-5" "10" (-5) 10); reflexivity.
Defined.

(** The converse: a null result means one of the two fields is missing or
    is not read as an integer. *)
Lemma parseSizeString_null (sizeStr : string) :
  parseSizeString sizeStr = None <->
  parseIntArg (trim <$> split "x" sizeStr !! 0%nat) = None \/
  parseIntArg (trim <$> split "x" sizeStr !! 1%nat) = None.
Proof.
  unfold parseSizeString.
  destruct (parseIntArg (trim <$> split "x" sizeStr !! 0%nat)),
           (parseIntArg (trim <$> split "x" sizeStr !! 1%nat));
    split; intros H; try discriminate; auto; destruct H; discriminate.
Qed.

(** *** Sizes printed in decimal are read back *)

Lemma allChars_impl (f g : ascii -> bool) (s : string) :
  (forall c, f c = true -> g c = true) ->
  allChars f s = true -> allChars g s = true.
Proof.
  intros Hfg. induction s as [|c s IH]; [reflexivity|]. simpl.
  intros [Hc Hs]%andb_true_iff. now rewrite (Hfg c Hc), (IH Hs).
Qed.

Lemma isIntChar_not_x (c : ascii) :
  isIntChar c = true -> negb (Ascii.eqb c "x") = true.
Proof.
  destruct c as [[|] [|] [|] [|] [|] [|] [|] [|]]; intros H;
    solve [reflexivity | discriminate H].
Qed.

Lemma isIntChar_not_space (c : ascii) :
  isIntChar c = true -> negb (isWhiteSpace c) = true.
Proof.
  destruct c as [[|] [|] [|] [|] [|] [|] [|] [|]]; intros H;
    solve [reflexivity | discriminate H].
Qed.

Lemma uint_chars (d : Decimal.uint) :
  allChars isIntChar (NilEmpty.string_of_uint d) = true.
Proof. induction d; simpl; auto. Qed.

Lemma showInt_chars (z : Z) : allChars isIntChar (showInt z) = true.
Proof.
  unfold showInt. destruct z as [|p|p]; [reflexivity| |];
    cbn [Z.to_int NilZero.string_of_int allChars];
    unfold NilZero.string_of_uint;
    try (rewrite andb_true_l);
    destruct (Pos.to_uint p) eqn:Hd; rewrite <- ?Hd; auto using uint_chars.
Qed.

Lemma split_single (sep : ascii) (a : string) :
  allChars (fun c => negb (Ascii.eqb c sep)) a = true -> split sep a = [a].
Proof.
  induction a as [|c a IH]; [reflexivity|]. simpl.
  intros [Hc Ha]%andb_true_iff. apply negb_true_iff in Hc.
  now rewrite Hc, (IH Ha).
Qed.

Lemma split_append (sep : ascii) (a b : string) :
  allChars (fun c => negb (Ascii.eqb c sep)) a = true ->
  split sep (a +:+ String sep b) = a :: split sep b.
Proof.
  induction a as [|c a IH]; simpl.
  - intros _. now rewrite Ascii.eqb_refl.
  - intros [Hc Ha]%andb_true_iff. apply negb_true_iff in Hc.
    now rewrite Hc, (IH Ha).
Qed.

Lemma trimEnd_id (s : string) :
  allChars (fun c => negb (isWhiteSpace c)) s = true -> trimEnd s = s.
Proof.
  induction s as [|c s IH]; [reflexivity|]. simpl.
  intros [Hc Hs]%andb_true_iff. apply negb_true_iff in Hc.
  rewrite (IH Hs), Hc. now destruct s.
Qed.

Lemma trim_id (s : string) :
  allChars (fun c => negb (isWhiteSpace c)) s = true -> trim s = s.
Proof.
  intros H. unfold trim.
  assert (Hs : trimStart s = s).
  { destruct s as [|c s]; [reflexivity|]. simpl in *.
    apply andb_true_iff in H as [Hc _]. apply negb_true_iff in Hc. now rewrite Hc. }
  rewrite Hs. now apply trimEnd_id.
Qed.

Lemma parseDigits_acc (d : Decimal.uint) (acc : positive) :
  parseDigits 10 (NilEmpty.string_of_uint d) (Some (Z.pos acc))
  = Some (Z.pos (Pos.of_uint_acc d acc)).
Proof.
  revert acc; induction d; intros acc; [reflexivity|..];
    cbn [NilEmpty.string_of_uint parseDigits Pos.of_uint_acc];
    (match goal with
     | |- context [digitValue ?c] =>
         let v := eval vm_compute in (digitValue c) in
         change (digitValue c) with v
     end);
    cbn [default Z.ltb Z.compare Pos.compare Pos.compare_cont option_rect id];
    rewrite <- IHd; f_equal; f_equal; lia.
Qed.

Lemma parseDigits_uint (d : Decimal.uint) (acc0 : option Z) :
  (acc0 = None /\ d <> Decimal.Nil) \/ acc0 = Some 0 ->
  parseDigits 10 (NilEmpty.string_of_uint d) acc0 = Some (Z.of_N (Pos.of_uint d)).
Proof.
  revert acc0; induction d; intros acc0 H;
    [destruct H as [[_ H]| ->]; [congruence | reflexivity] | ..];
    assert (H0 : default 0 acc0 = 0) by (destruct H as [[-> _]| ->]; reflexivity);
    cbn [NilEmpty.string_of_uint parseDigits Pos.of_uint];
    (match goal with
     | |- context [digitValue ?c] =>
         let v := eval vm_compute in (digitValue c) in
         change (digitValue c) with v
     end);
    cbn [Z.ltb Z.compare Pos.compare Pos.compare_cont]; rewrite H0;
    [apply IHd; now right | ..];
    cbn [Z.mul Z.add]; apply parseDigits_acc.
Qed.

Lemma uint_prefixes (d : Decimal.uint) :
  d <> Decimal.Nil ->
  let s := NilEmpty.string_of_uint d in
  trimStart s = s /\ stripSign s = (1, s) /\ stripPrefix s = (10, s).
Proof.
  intros Hd. destruct d; [congruence|..]; cbn zeta;
    (split; [reflexivity | split; [reflexivity | destruct d; reflexivity]]).
Qed.

Lemma to_uint_not_nil (p : positive) : Pos.to_uint p <> Decimal.Nil.
Proof.
  intros H. pose proof (DecimalPos.Unsigned.of_to p) as Hp.
  rewrite H in Hp. discriminate Hp.
Qed.

Lemma parseInt_uint (p : positive) :
  parseInt (NilEmpty.string_of_uint (Pos.to_uint p)) = Some (Z.pos p).
Proof.
  pose proof (to_uint_not_nil p) as Hn.
  destruct (uint_prefixes _ Hn) as (Ht & Hs & Hp).
  unfold parseInt. rewrite Ht, Hs, Hp.
  rewrite parseDigits_uint by (left; auto).
  rewrite DecimalPos.Unsigned.of_to. reflexivity.
Qed.

(** [parseInt] reads back every integer printed in decimal. *)
Lemma parseInt_showInt (z : Z) : parseInt (showInt z) = Some z.
Proof.
  unfold showInt. destruct z as [|p|p]; [reflexivity| |];
    cbn [Z.to_int NilZero.string_of_int]; unfold NilZero.string_of_uint;
    pose proof (to_uint_not_nil p) as Hn.
  - destruct (Pos.to_uint p) eqn:Hd; [congruence|..]; rewrite <- Hd;
      apply parseInt_uint.
  - assert (Hs : match Pos.to_uint p with
                 | Decimal.Nil => "0"
                 | _ => NilEmpty.string_of_uint (Pos.to_uint p)
                 end = NilEmpty.string_of_uint (Pos.to_uint p))
      by (destruct (Pos.to_uint p); [congruence | reflexivity..]).
    rewrite Hs.
    destruct (uint_prefixes _ Hn) as (_ & _ & Hp).
    unfold parseInt. cbn [trimStart].
    change (isWhiteSpace "-") with false. cbn [stripSign].
    rewrite Hp, parseDigits_uint by (left; auto).
    rewrite DecimalPos.Unsigned.of_to. reflexivity.
Qed.

(** Every pair of integers, zero and negative ones included, written as
    [w] [x] [h] is accepted and read back. *)
Lemma parseSizeString_showInt (w h : Z) :
  parseSizeString (showInt w +:+ "x" +:+ showInt h) = Some (mkSize w h).
Proof.
  assert (Hx : forall z, allChars (fun c => negb (Ascii.eqb c "x")) (showInt z) = true)
    by (intros z; apply allChars_impl with isIntChar;
        [apply isIntChar_not_x | apply showInt_chars]).
  assert (Ht : forall z, trim (showInt z) = showInt z)
    by (intros z; apply trim_id, allChars_impl with isIntChar;
        [apply isIntChar_not_space | apply showInt_chars]).
  unfold parseSizeString.
  change ("x" +:+ showInt h) with (String "x" (showInt h)).
  rewrite split_append, split_single by apply Hx.
  cbn [lookup list_lookup fmap option_fmap option_map parseIntArg].
  now rewrite !Ht, !parseInt_showInt.
Qed.

End UtilsFacts.

Example split_size : Utils.split "x" "480x360" = ["480"; "360"].
Proof. reflexivity. Qed.

Example parseInt_px : Utils.parseInt " 7px" = Some 7.
Proof. reflexivity. Qed.

Example parseInt_hex : Utils.parseInt "0X1f" = Some 31.
Proof. reflexivity. Qed.

Example parseInt_nan : Utils.parseInt "px" = None.
Proof. reflexivity. Qed.

Example parseSizeString_one_field : Utils.parseSizeString "480" = None.
Proof. reflexivity. Qed.

Example parseSizeString_spaces :
  Utils.parseSizeString " 12 x 7px" = Some (Utils.mkSize 12 7).
Proof. reflexivity. Qed.

Example isValidSvg_padded : Utils.isValidSvg "  <svg><path/></svg>  " = true.
Proof. reflexivity. Qed.

Example isValidSvg_open_only : Utils.isValidSvg "<svg>" = false.
Proof. reflexivity. Qed.

(** ** main.js: loading a document *)

Section DeserializeFacts.
Context `{P : Platform}.

(** C4. A string that, once trimmed, does not both open with [<svg] and
    close with [</svg>] is rejected with an error, whatever the parser
    is: nothing is handed to [txml.parse] and no tree is built. *)
Theorem deserializeDocument_rejects_before_parsing
    (txml_parse : string -> list Node) (text : string) :
  ~ ((exists r, Utils.trim text = "<svg" +:+ r) /\
     (exists r, Utils.trim text = r +:+ "</svg>")) ->
  deserializeDocument txml_parse text = ([], Throw (JsError "Invalid SVG string")).
Proof.
  intros Hbad. unfold deserializeDocument.
  destruct (Utils.isValidSvg text) eqn:Hv; [|reflexivity].
  apply UtilsFacts.isValidSvg_spec in Hv. contradiction.
Qed.

(** An accepted string reaches the parser exactly once. *)
Lemma deserializeDocument_accepted
    (txml_parse : string -> list Node) (text : string) :
  Utils.isValidSvg text = true ->
  fst (deserializeDocument txml_parse text) = [text].
Proof.
  intros Hv. unfold deserializeDocument. rewrite Hv. simpl.
  now destruct (txml_parse text).
Qed.

End DeserializeFacts.

Lemma deserializeDocument_rejects_before_parsing_witness :
  @deserializeDocument Demo.platform (fun _ => [Elem (Demo.root [])]) "not svg"
  = ([], Throw (JsError "Invalid SVG string")).
Proof.
  apply (@deserializeDocument_rejects_before_parsing Demo.platform).
  vm_compute. intros [[r H] _]. discriminate H.
Defined.

(** ** document-editor.js: path data *)

Section PathDataFacts.
Context `{P : Platform}.

(** C9. A stroke of fewer than two points yields the empty string: no
    command is emitted and nothing is thrown. *)
Theorem generatePathData_short_stroke (stroke : list Point) :
  (length stroke < 2)%nat ->
  generatePathData stroke = EmptyString.
Proof.
  intros H. unfold generatePathData.
  destruct (Nat.ltb_spec (length stroke) 2); [reflexivity | lia].
Qed.

Ltac normalize_append :=
  repeat first [rewrite !UtilsFacts.append_assoc | progress simpl].

Lemma fold_appendCurve (fmt_curves : list Curve) (d : string) :
  fold_left appendCurve fmt_curves d
  = d +:+ renderPath (map (curveCommand roundNumber) fmt_curves).
Proof.
  revert d; induction fmt_curves as [|c cs IH]; intros d; simpl.
  - now rewrite UtilsFacts.append_nil_r.
  - rewrite IH. destruct c as [[[p0 c1] c2] p3].
    normalize_append. reflexivity.
Qed.

Lemma fold_lineTo (fmt : number -> string) (rest : list Point) (d : string) :
  fold_left
    (fun d p => d +:+ "L " +:+ fmt (fst p) +:+ " " +:+ fmt (snd p) +:+ " ") rest d
  = d +:+ renderPath (map (fun p => LineTo (fmt (fst p)) (fmt (snd p))) rest).
Proof.
  revert d; induction rest as [|p rest IH]; intros d; cbn [fold_left map renderPath].
  - now rewrite UtilsFacts.append_nil_r.
  - rewrite IH. normalize_append. reflexivity.
Qed.

Lemma polylineData_encodePolyline (fmt : number -> string) (stroke : list Point) :
  polylineData fmt stroke = renderPath (encodePolyline fmt stroke).
Proof.
  destruct stroke as [|p0 rest]; [reflexivity|].
  unfold polylineData, encodePolyline. rewrite fold_lineTo.
  normalize_append. reflexivity.
Qed.

(** The code rounds as the specification says. *)
Lemma roundNumber_oneDecimal (x : number) : roundNumber x = oneDecimal x.
Proof. reflexivity. Qed.

(** C3. For a stroke of two points or more: when the fitter returns
    segments, the path data is one move-to at the first segment's start
    followed by one cubic command per segment, every number rounded to one
    decimal place; when it returns none (fitting skipped), the path data
    is a move-to followed by one line-to per later point, rounded alike;
    when it throws (fitting failed), the path data is a move-to followed
    by one line-to per later point, the numbers printed as they are. *)
Theorem generatePathData_encodes (stroke : list Point) :
  (2 <= length stroke)%nat ->
  match fitCurve stroke (num_of_Z 2) with
  | Some (c :: cs) =>
      generatePathData stroke = renderPath (encode oneDecimal (c :: cs))
      /\ length (encode oneDecimal (c :: cs)) = S (length (c :: cs))
  | Some [] =>
      generatePathData stroke = renderPath (encodePolyline oneDecimal stroke)
  | None =>
      generatePathData stroke = renderPath (encodePolyline num_toString stroke)
  end.
Proof.
  intros H. unfold generatePathData.
  destruct (Nat.ltb_spec (length stroke) 2); [lia|].
  destruct (fitCurve stroke (num_of_Z 2)) as [[|c cs]|].
  - rewrite polylineData_encodePolyline.
    change roundNumber with oneDecimal. reflexivity.
  - split.
    + destruct c as [[[p0 c1] c2] p3].
      rewrite fold_appendCurve. change roundNumber with oneDecimal.
      normalize_append. reflexivity.
    + destruct c as [[[p0 c1] c2] p3]. simpl. now rewrite length_map.
  - apply polylineData_encodePolyline.
Qed.

End PathDataFacts.

Lemma generatePathData_short_stroke_witness :
  @generatePathData Demo.platform [(3, 4)] = EmptyString.
Proof.
  apply (@generatePathData_short_stroke Demo.platform). simpl. lia.
Defined.

Lemma generatePathData_encodes_witness :
  @generatePathData Demo.platform [(0, 0); (10, 0); (20, 0)]
  = "M 0.0 0.0 C 0.0 0.0, 10.0 0.0, 10.0 0.0 C 10.0 0.0, 20.0 0.0, 20.0 0.0 ".
Proof.
  pose proof (@generatePathData_encodes Demo.platform [(0, 0); (10, 0); (20, 0)]) as H.
  simpl in H. destruct H as [H _]; [lia|]. rewrite H. reflexivity.
Defined.

Example generatePathData_polyline :
  @generatePathData Demo.platform [(0, 0); (10, 0)] = "M 0.0 0.0 L 10.0 0.0 ".
Proof. reflexivity. Qed.

Example generatePathData_caught :
  @generatePathData Demo.platform [(-1, 0); (10, 0)] = "M -1 0 L 10 0 ".
Proof. reflexivity. Qed.

(** ** document-editor.js: the scene tree *)

Section TreeFacts.
Context `{P : Platform}.

Lemma Element_ind' (Q : Element -> Prop) :
  (forall t a n r cs, childrenAll Q cs -> Q (mkElement t a n r cs)) ->
  forall e, Q e.
Proof.
  intros step. fix go 1. intros [t a n r cs]. apply step.
  induction cs as [|c cs IH]; constructor.
  - destruct c as [s|e]; [exact I | apply go].
  - exact IH.
Qed.

Lemma filterIntersectingElement_eq line t a n r cs removed keep recurse :
  filterIntersectingElement line (mkElement t a n r cs) removed keep recurse
  = let '(now, kept, removed', err) := filterChildren line keep recurse cs removed in
    (mkElement t a n r (match err with None => kept | Some _ => now end),
     removed', err).
Proof. reflexivity. Qed.

Lemma clearPathsElement_eq t a n r cs removed recurse :
  clearPathsElement (mkElement t a n r cs) removed recurse
  = let '(cs', removed') := clearChildren recurse cs removed in
    (mkElement t a n r cs', removed').
Proof. reflexivity. Qed.

Lemma drawElement_eq t a n r cs :
  drawElement (mkElement t a n r cs)
  = let '(r', ops) :=
      if String.eqb t "path" then
        let ra := default emptyRender r in
        let p := default (new_Path2D (getAttr "d" a)) (path ra) in
        (Some (mkRender (Some p) (stroke ra) (shape ra)),
         [StrokePath p
            (orElse (noteAttr "stroke" (mkElement t a n r cs)) (VStr "#000"))
            (orElse (noteAttr "strokeWidth" (mkElement t a n r cs)) (VNum (num_of_Z 2)))])
      else (r, []) in
    let '(cs', ops') := drawChildren cs in
    (mkElement t a n r' cs', ops ++ ops').
Proof. reflexivity. Qed.

Lemma filterChildren_text line keep recurse s rest removed :
  filterChildren line keep recurse (Text s :: rest) removed
  = let '(now, kept, removed', err) := filterChildren line keep recurse rest removed in
    (Text s :: now, Text s :: kept, removed', err).
Proof. reflexivity. Qed.

Lemma filterChildren_elem line keep recurse child rest removed :
  filterChildren line keep recurse (Elem child :: rest) removed
  = let '(child', childIntersects, err) := visitChild line keep recurse child in
    let removed := if childIntersects then removed ++ [Elem child'] else removed in
    match err with
    | Some e => (Elem child' :: rest, [], removed, Some e)
    | None =>
        let '(now, kept, removed, err) := filterChildren line keep recurse rest removed in
        (Elem child' :: now,
         if keep || negb childIntersects then Elem child' :: kept else kept,
         removed, err)
    end.
Proof. reflexivity. Qed.

(** *** The callback on one child *)

Lemma filterIntersectingElement_tagName line e removed keep recurse :
  tagName (fst (fst (filterIntersectingElement line e removed keep recurse))) = tagName e.
Proof.
  destruct e as [t a n r cs]. rewrite filterIntersectingElement_eq.
  now destruct (filterChildren line keep recurse cs removed) as [[[now kept] removed'] err].
Qed.

Lemma filterIntersectingElement_attributes line e removed keep recurse :
  attributes (fst (fst (filterIntersectingElement line e removed keep recurse)))
  = attributes e.
Proof.
  destruct e as [t a n r cs]. rewrite filterIntersectingElement_eq.
  now destruct (filterChildren line keep recurse cs removed) as [[[now kept] removed'] err].
Qed.

Lemma filterIntersectingElement_noteSvgAttributes line e removed keep recurse :
  noteSvgAttributes (fst (fst (filterIntersectingElement line e removed keep recurse)))
  = noteSvgAttributes e.
Proof.
  destruct e as [t a n r cs]. rewrite filterIntersectingElement_eq.
  now destruct (filterChildren line keep recurse cs removed) as [[[now kept] removed'] err].
Qed.

Lemma filterIntersectingElement_renderAttributes line e removed keep recurse :
  renderAttributes (fst (fst (filterIntersectingElement line e removed keep recurse)))
  = renderAttributes e.
Proof.
  destruct e as [t a n r cs]. rewrite filterIntersectingElement_eq.
  now destruct (filterChildren line keep recurse cs removed) as [[[now kept] removed'] err].
Qed.

(** The three components of the callback's result. *)
Lemma visitChild_eq line keep recurse child :
  visitChild line keep recurse child
  = (visited line keep recurse child, hits line child,
     snd (visitChild line keep recurse child)).
Proof.
  unfold visited, hits, visitChild.
  destruct (intersectChild line child) as [ra [b|err]]; cbn [snd]; [|reflexivity].
  destruct recurse; [|reflexivity].
  now destruct (filterIntersectingElement line child [] keep true) as [[c rem] err].
Qed.

(** The child after the callback: the render attributes the test leaves,
    on the child as the recursive call leaves it when there is one. *)
Lemma visited_eq line keep recurse child :
  visited line keep recurse child
  = setRenderAttributes (fst (intersectChild line child))
      (match snd (intersectChild line child) with
       | Ok _ =>
           if recurse
           then fst (fst (filterIntersectingElement line child [] keep recurse))
           else child
       | Throw _ => child
       end).
Proof.
  unfold visited, visitChild.
  destruct (intersectChild line child) as [ra [b|err]]; cbn [fst snd]; [|reflexivity].
  destruct recurse; [|reflexivity].
  now destruct (filterIntersectingElement line child [] keep true) as [[c rem] err].
Qed.

(** The error of the callback: that of the test, else that of the
    recursive call. *)
Lemma visitChild_error line keep recurse child :
  snd (visitChild line keep recurse child)
  = match snd (intersectChild line child) with
    | Throw e => Some e
    | Ok _ =>
        if recurse
        then snd (filterIntersectingElement line child [] keep recurse)
        else None
    end.
Proof.
  unfold visitChild.
  destruct (intersectChild line child) as [ra [b|err]]; cbn [fst snd]; [|reflexivity].
  destruct recurse; [|reflexivity].
  now destruct (filterIntersectingElement line child [] keep true) as [[c rem] err].
Qed.

Lemma hits_isPath line e : hits line e = true -> isPath e = true.
Proof.
  unfold hits, intersectChild, isPath.
  destruct (String.eqb (tagName e) "path"); [reflexivity | discriminate].
Qed.

Lemma misses_not_path line e : isPath e = false -> misses line e = true.
Proof. unfold misses, intersectChild, isPath. now intros ->. Qed.

Lemma misses_hits line e : misses line e = true -> hits line e = false.
Proof.
  unfold misses, hits. destruct (snd (intersectChild line e)) as [[]|]; now intros.
Qed.

Lemma setRenderAttributes_tagName r e : tagName (setRenderAttributes r e) = tagName e.
Proof. now destruct e. Qed.

Lemma visited_tagName line keep recurse e :
  tagName (visited line keep recurse e) = tagName e.
Proof.
  rewrite visited_eq, setRenderAttributes_tagName.
  destruct (snd (intersectChild line e)), recurse;
    rewrite ?filterIntersectingElement_tagName; reflexivity.
Qed.

Lemma setRenderAttributes_attributes r e :
  attributes (setRenderAttributes r e) = attributes e.
Proof. now destruct e. Qed.

Lemma setRenderAttributes_noteSvgAttributes r e :
  noteSvgAttributes (setRenderAttributes r e) = noteSvgAttributes e.
Proof. now destruct e. Qed.

Lemma setRenderAttributes_renderAttributes r e :
  renderAttributes (setRenderAttributes r e) = r.
Proof. now destruct e. Qed.

Lemma setRenderAttributes_children r e :
  children (setRenderAttributes r e) = children e.
Proof. now destruct e. Qed.

Lemma visited_attributes line keep recurse e :
  attributes (visited line keep recurse e) = attributes e.
Proof.
  rewrite visited_eq, setRenderAttributes_attributes.
  destruct (snd (intersectChild line e)), recurse;
    rewrite ?filterIntersectingElement_attributes; reflexivity.
Qed.

Lemma visited_noteSvgAttributes line keep recurse e :
  noteSvgAttributes (visited line keep recurse e) = noteSvgAttributes e.
Proof.
  rewrite visited_eq, setRenderAttributes_noteSvgAttributes.
  destruct (snd (intersectChild line e)), recurse;
    rewrite ?filterIntersectingElement_noteSvgAttributes; reflexivity.
Qed.

Lemma visited_renderAttributes line keep recurse e :
  renderAttributes (visited line keep recurse e) = fst (intersectChild line e).
Proof. rewrite visited_eq. apply setRenderAttributes_renderAttributes. Qed.

(** The test reads the tag, the [d] attribute and the cached shape only,
    and what it leaves in the render attributes does not change its
    outcome: a cached shape gives the same answer, a failed attempt fails
    again. *)
Lemma test_cached line e e' :
  tagName e' = tagName e ->
  attributes e' = attributes e ->
  renderAttributes e' = fst (intersectChild line e) ->
  snd (intersectChild line e') = snd (intersectChild line e).
Proof.
  intros Ht Ha Hr. unfold intersectChild in *. rewrite Ht, Ha.
  destruct (String.eqb (tagName e) "path"); [|reflexivity].
  rewrite Hr. clear Hr.
  destruct (renderAttributes e) as [[p s [sh|]]|]; cbn [default from_option id shape fst snd];
    try reflexivity;
    destruct (ShapeInfo_path (getAttr "d" (attributes e))) as [sh|err] eqn:Hs;
    cbn [fst snd default from_option id shape]; rewrite ?Hs; reflexivity.
Qed.

Lemma hits_cached line e e' :
  tagName e' = tagName e ->
  attributes e' = attributes e ->
  renderAttributes e' = fst (intersectChild line e) ->
  hits line e' = hits line e.
Proof. intros Ht Ha Hr. unfold hits. now rewrite (test_cached line e e'). Qed.

Lemma hits_visited line keep recurse e :
  hits line (visited line keep recurse e) = hits line e.
Proof.
  apply hits_cached;
    auto using visited_tagName, visited_attributes, visited_renderAttributes.
Qed.

Lemma misses_visited line keep recurse e :
  misses line (visited line keep recurse e) = misses line e.
Proof.
  unfold misses. rewrite (test_cached line e (visited line keep recurse e));
    auto using visited_tagName, visited_attributes, visited_renderAttributes.
Qed.

Lemma isPath_visited line keep recurse e :
  isPath (visited line keep recurse e) = isPath e.
Proof. unfold isPath. now rewrite visited_tagName. Qed.

(** *** What [filterIntersecting] computes when it returns *)

Lemma filterChildren_ok line keep recurse cs :
  forall removed now kept removed',
    filterChildren line keep recurse cs removed = (now, kept, removed', None) ->
    now = map (visitedNode line keep recurse) cs /\
    kept = keptChildren line keep recurse cs /\
    removed' = removed ++ hitChildren line keep recurse cs /\
    Forall (fun c => match c with
                     | Text _ => True
                     | Elem e => snd (visitChild line keep recurse e) = None
                     end) cs.
Proof.
  induction cs as [|[s|child] rest IH]; intros removed now kept removed'.
  - intros [= <- <- <-]. now rewrite app_nil_r.
  - rewrite filterChildren_text.
    destruct (filterChildren line keep recurse rest removed)
      as [[[now0 kept0] removed0] err0] eqn:Hrest.
    intros [= <- <- <- ->]. destruct (IH _ _ _ _ Hrest) as (-> & -> & -> & Hall).
    repeat split; auto.
  - rewrite filterChildren_elem, visitChild_eq. cbv zeta.
    destruct (snd (visitChild line keep recurse child)) as [e|] eqn:Herr; [discriminate|].
    destruct (filterChildren line keep recurse rest _)
      as [[[now0 kept0] removed0] err0] eqn:Hrest.
    intros [= <- <- <- ->]. destruct (IH _ _ _ _ Hrest) as (-> & -> & -> & Hall).
    unfold keptChildren, hitChildren. cbn [map visitedNode flat_map].
    repeat split; auto.
    + now destruct (keep || negb (hits line child)).
    + destruct (hits line child); cbn [app]; rewrite <- ?app_assoc; reflexivity.
Qed.

(** When the call returns, the node has kept the children that the
    callback kept, and the returned list is [removed] followed by the
    children of [node] itself whose test is positive, in child order: what
    the recursive calls remove further down is pushed on lists of their
    own. *)
Lemma filterIntersectingElement_spec line e removed keep recurse e' removed' :
  filterIntersectingElement line e removed keep recurse = (e', removed', None) ->
  e' = setChildren (keptChildren line keep recurse (children e)) e /\
  removed' = removed ++ hitChildren line keep recurse (children e).
Proof.
  destruct e as [t a n r cs]. rewrite filterIntersectingElement_eq.
  destruct (filterChildren line keep recurse cs removed)
    as [[[now kept] removed0] err] eqn:Hcs.
  intros [= <- <- ->]. destruct (filterChildren_ok _ _ _ _ _ _ _ _ Hcs) as (_ & -> & -> & _).
  now split.
Qed.

Lemma visited_children line keep recurse e :
  snd (visitChild line keep recurse e) = None ->
  children (visited line keep recurse e)
  = if recurse then keptChildren line keep recurse (children e) else children e.
Proof.
  rewrite visitChild_error, visited_eq, setRenderAttributes_children.
  destruct (snd (intersectChild line e)); [|discriminate].
  destruct recurse; [|reflexivity].
  destruct (filterIntersectingElement line e [] keep true) as [[e' removed'] err] eqn:Hf.
  cbn [fst snd]. intros ->.
  destruct (filterIntersectingElement_spec _ _ _ _ _ _ _ Hf) as [-> _].
  now destruct e.
Qed.

(** *** What the call has done in any case *)

(** Whether the call returns or throws, [removed] has only grown, by
    children of the node that are still among [now], each a Path element
    whose test is positive. *)
Lemma filterChildren_removed line keep recurse cs :
  forall removed,
    let '(now, kept, removed', err) := filterChildren line keep recurse cs removed in
    exists new,
      removed' = removed ++ new /\
      Forall (fun c => In c now /\
                       exists e, c = Elem e /\ isPath e = true /\ hits line e = true) new.
Proof.
  induction cs as [|[s|child] rest IH]; intros removed.
  - exists []. now rewrite app_nil_r.
  - rewrite filterChildren_text. specialize (IH removed).
    destruct (filterChildren line keep recurse rest removed)
      as [[[now kept] removed'] err].
    destruct IH as (new & -> & Hnew). exists new. split; [reflexivity|].
    eapply Forall_impl; [exact Hnew|]. cbn beta. intros c [Hin Hc].
    split; [now right | exact Hc].
  - rewrite filterChildren_elem, visitChild_eq. cbv zeta.
    assert (Hpush : hits line child = true ->
                    exists e, Elem (visited line keep recurse child) = Elem e /\
                              isPath e = true /\ hits line e = true).
    { intros Hh. eexists. split; [reflexivity|].
      rewrite isPath_visited, hits_visited.
      split; [now apply hits_isPath with line | exact Hh]. }
    destruct (snd (visitChild line keep recurse child)) as [e|].
    + destruct (hits line child) eqn:Hh.
      * exists [Elem (visited line keep recurse child)]. split; [reflexivity|].
        constructor; [|constructor]. split; [now left | now apply Hpush].
      * exists []. now rewrite app_nil_r.
    + specialize (IH (if hits line child
                      then removed ++ [Elem (visited line keep recurse child)]
                      else removed)).
      destruct (filterChildren line keep recurse rest _) as [[[now kept] removed'] err].
      destruct IH as (new & -> & Hnew).
      assert (Hnew' : Forall
                (fun c => In c (Elem (visited line keep recurse child) :: now) /\
                          exists e, c = Elem e /\ isPath e = true /\ hits line e = true)
                new).
      { eapply Forall_impl; [exact Hnew|]. cbn beta. intros c [Hin Hc].
        split; [now right | exact Hc]. }
      destruct (hits line child) eqn:Hh.
      * exists (Elem (visited line keep recurse child) :: new).
        split; [now rewrite <- app_assoc|].
        constructor; [|exact Hnew']. split; [now left | now apply Hpush].
      * exists new. now split.
Qed.

(** With [keepIntersecting] the array that [filter] returns holds every
    child. *)
Lemma filterChildren_keep line recurse cs :
  forall removed now kept removed',
    filterChildren line true recurse cs removed = (now, kept, removed', None) ->
    kept = now.
Proof.
  induction cs as [|[s|child] rest IH]; intros removed now kept removed'.
  - now intros [= <- <- <-].
  - rewrite filterChildren_text.
    destruct (filterChildren line true recurse rest removed)
      as [[[now0 kept0] removed0] err0] eqn:Hrest.
    intros [= <- <- <- ->]. now rewrite (IH _ _ _ _ Hrest).
  - rewrite filterChildren_elem, visitChild_eq. cbv zeta.
    destruct (snd (visitChild line true recurse child)); [discriminate|].
    destruct (filterChildren line true recurse rest _)
      as [[[now0 kept0] removed0] err0] eqn:Hrest.
    intros [= <- <- <- ->]. cbn [orb]. now rewrite (IH _ _ _ _ Hrest).
Qed.

(** *** Only Path elements that test positive leave the tree *)

Scheme Pruned_mind := Minimality for Pruned Sort Prop
  with PrunedList_mind := Minimality for PrunedList Sort Prop.
Combined Scheme Pruned_mutind from Pruned_mind, PrunedList_mind.

Lemma PrunedList_refl line cs :
  childrenAll (fun e => Pruned line (Elem e) (Elem e)) cs ->
  PrunedList line cs cs.
Proof.
  induction 1 as [|c cs Hc _ IH]; constructor; try exact IH.
  destruct c as [s|e]; [constructor | exact Hc].
Qed.

Lemma Pruned_refl_elem line e : Pruned line (Elem e) (Elem e).
Proof.
  induction e as [t a n r cs IH] using Element_ind'.
  constructor; [now apply PrunedList_refl | now left].
Qed.

Lemma PrunedList_same line cs : PrunedList line cs cs.
Proof.
  induction cs as [|[s|e] cs IH]; constructor; auto using Pruned_refl_elem.
  constructor.
Qed.

Lemma Pruned_cache line e e' :
  Pruned line (Elem e) (Elem e') ->
  Pruned line (Elem e) (Elem (setRenderAttributes (fst (intersectChild line e)) e')).
Proof.
  inversion 1; subst. simpl. constructor; [assumption | now right].
Qed.

Lemma Pruned_visited line keep recurse e :
  (forall removed,
      Pruned line (Elem e)
        (Elem (fst (fst (filterIntersectingElement line e removed keep recurse))))) ->
  Pruned line (Elem e) (Elem (visited line keep recurse e)).
Proof.
  intros IH. rewrite visited_eq. apply Pruned_cache.
  destruct (snd (intersectChild line e)); [|apply Pruned_refl_elem].
  destruct recurse; [apply IH | apply Pruned_refl_elem].
Qed.

(** The children as the loop leaves them are the former children with
    Path elements that tested positive left out, whether the loop ends or
    is abandoned. *)
Lemma filterChildren_Pruned line keep recurse cs :
  childrenAll
    (fun e => forall removed,
         Pruned line (Elem e)
           (Elem (fst (fst (filterIntersectingElement line e removed keep recurse))))) cs ->
  forall removed,
    let '(now, kept, removed', err) := filterChildren line keep recurse cs removed in
    PrunedList line cs now /\ (err = None -> PrunedList line cs kept).
Proof.
  induction 1 as [|c cs Hc _ IH]; intros removed.
  - split; constructor.
  - destruct c as [s|child].
    + rewrite filterChildren_text. specialize (IH removed).
      destruct (filterChildren line keep recurse cs removed)
        as [[[now kept] removed'] err].
      destruct IH as [Hnow Hkept].
      split; [|intros Herr]; apply Pruned_keep; auto; constructor.
    + rewrite filterChildren_elem, visitChild_eq. cbv zeta.
      pose proof (Pruned_visited line keep recurse child Hc) as Hv.
      destruct (snd (visitChild line keep recurse child)) as [e|].
      * split; [|discriminate]. apply Pruned_keep; [exact Hv | apply PrunedList_same].
      * specialize (IH (if hits line child
                        then removed ++ [Elem (visited line keep recurse child)]
                        else removed)).
        destruct (filterChildren line keep recurse cs _) as [[[now kept] removed'] err].
        destruct IH as [Hnow Hkept].
        split; [now apply Pruned_keep|]. intros Herr. specialize (Hkept Herr).
        destruct (hits line child) eqn:Hh, keep; cbn [orb negb];
          try (now apply Pruned_keep).
        apply Pruned_drop; [now apply hits_isPath with line | exact Hh | exact Hkept].
Qed.

Lemma filterIntersectingElement_Pruned line keep recurse e :
  forall removed,
    Pruned line (Elem e)
      (Elem (fst (fst (filterIntersectingElement line e removed keep recurse)))).
Proof.
  induction e as [t a n r cs IH] using Element_ind'. intros removed.
  rewrite filterIntersectingElement_eq.
  pose proof (filterChildren_Pruned line keep recurse cs IH removed) as H.
  destruct (filterChildren line keep recurse cs removed) as [[[now kept] removed'] err].
  destruct H as [Hnow Hkept]. cbn [fst].
  constructor; [|now left]. destruct err; auto.
Qed.

Lemma nonPathCountElement_eq t a n r cs :
  nonPathCountElement (mkElement t a n r cs)
  = ((if String.eqb t "path" then 0 else 1) + list_sum (map nonPathCount cs))%nat.
Proof. reflexivity. Qed.

Lemma pathLeavesElement_eq t a n r cs :
  pathLeavesElement (mkElement t a n r cs)
  = (if String.eqb t "path" then match cs with [] => true | _ => false end else true)
    && forallb pathLeaves cs.
Proof. reflexivity. Qed.

Lemma path_leaf_count e :
  isPath e = true -> pathLeavesElement e = true -> nonPathCountElement e = 0%nat.
Proof.
  destruct e as [t a n r cs]. unfold isPath. cbn [tagName]. intros Ht.
  rewrite pathLeavesElement_eq, nonPathCountElement_eq, Ht.
  destruct cs; [reflexivity | discriminate].
Qed.

Lemma Pruned_nonPathCount line :
  (forall n n', Pruned line n n' ->
     pathLeaves n = true -> nonPathCount n' = nonPathCount n) /\
  (forall cs cs', PrunedList line cs cs' ->
     forallb pathLeaves cs = true ->
     list_sum (map nonPathCount cs') = list_sum (map nonPathCount cs)).
Proof.
  apply Pruned_mutind.
  - reflexivity.
  - intros t a n r r' cs cs' _ IH _ Hl.
    change (pathLeavesElement (mkElement t a n r cs) = true) in Hl.
    change (nonPathCountElement (mkElement t a n r' cs')
            = nonPathCountElement (mkElement t a n r cs)).
    rewrite pathLeavesElement_eq in Hl. apply andb_true_iff in Hl as [_ Hl].
    rewrite !nonPathCountElement_eq, (IH Hl). reflexivity.
  - reflexivity.
  - intros c c' cs cs' _ IHc _ IHcs Hl. unfold list_sum in *. cbn [forallb map fold_right] in *.
    apply andb_true_iff in Hl as [Hc Hl]. now rewrite (IHc Hc), (IHcs Hl).
  - intros e cs cs' Hp _ _ IH Hl. unfold list_sum in *. cbn [forallb map fold_right] in *.
    apply andb_true_iff in Hl as [He Hl].
    change (nonPathCount (Elem e)) with (nonPathCountElement e).
    rewrite (path_leaf_count e Hp He), (IH Hl). reflexivity.
Qed.

(** C7 (as amended). With [keepIntersecting = false], whether the call
    returns or throws: on a tree whose Path elements have no children, as
    the data model has them, the number of non-Path nodes, text leaves
    included, is unchanged; on every tree, the tree is the former one with
    Path elements that tested positive left out, at any depth, each with
    what it holds, and nothing else removed; and every node added to
    [removed] is a Path element whose test against the segment is
    positive. *)
Theorem filterIntersecting_removes_only_hit_paths
    (line : Shape) (node : Node) (removed : list Node) (recurse : bool) :
  (pathLeaves node = true ->
   nonPathCount (fst (fst (filterIntersecting line node removed false recurse)))
     = nonPathCount node) /\
  Pruned line node (fst (fst (filterIntersecting line node removed false recurse))) /\
  exists new,
    snd (fst (filterIntersecting line node removed false recurse)) = removed ++ new /\
    Forall (fun c => exists e, c = Elem e /\ isPath e = true /\ hits line e = true) new.
Proof.
  destruct node as [s|e].
  - simpl. repeat split; [constructor|]. exists []. now rewrite app_nil_r.
  - assert (Hp : Pruned line (Elem e)
                   (fst (fst (filterIntersecting line (Elem e) removed false recurse)))).
    { unfold filterIntersecting.
      pose proof (filterIntersectingElement_Pruned line false recurse e removed) as H.
      now destruct (filterIntersectingElement line e removed false recurse)
        as [[e' removed'] err]. }
    split; [|split].
    + intros Hl. now apply (proj1 (Pruned_nonPathCount line)).
    + exact Hp.
    + unfold filterIntersecting. destruct e as [t a n r cs].
      rewrite filterIntersectingElement_eq.
      pose proof (filterChildren_removed line false recurse cs removed) as H.
      destruct (filterChildren line false recurse cs removed)
        as [[[now kept] removed'] err].
      destruct H as (new & -> & Hnew). exists new. split; [reflexivity|].
      eapply Forall_impl; [exact Hnew|]. cbn beta. now intros c [_ Hc].
Qed.

(** C1 (not met by the code). A Path element excised from a nested
    subtree is missing from the returned list: the recursive call is given
    a fresh list, which is dropped.  Here the only Path of the document
    sits in a group and tests positive: the returned list is empty in
    every case, and when the call into the Path returns, the call
    returns, the Path has left the tree and the returned list is empty. *)
Theorem filterIntersecting_omits_nested_removals
    (line : Shape) (p : Element) a n r a' n' r' :
  hits line p = true ->
  let doc := Elem (mkElement "svg" a n r [Elem (mkElement "g" a' n' r' [Elem p])]) in
  snd (fst (filterIntersecting line doc [] false true)) = []
  /\ (snd (filterIntersectingElement line p [] false true) = None ->
      filterIntersecting line doc [] false true
      = (Elem (mkElement "svg" a n r [Elem (mkElement "g" a' n' r' [])]), [], None)).
Proof.
  intros Hp. cbv zeta. split.
  - unfold filterIntersecting.
    rewrite filterIntersectingElement_eq, filterChildren_elem.
    unfold visitChild at 1. cbn [intersectChild tagName String.eqb Ascii.eqb Bool.eqb].
    destruct (filterIntersectingElement line (mkElement "g" a' n' r' [Elem p]) [] false true)
      as [[c rem] [e|]]; reflexivity.
  - intros Hret.
    assert (Hvp : snd (visitChild line false true p) = None).
    { rewrite visitChild_error. unfold hits in Hp.
      destruct (snd (intersectChild line p)); [exact Hret | discriminate]. }
    assert (Hg : filterIntersectingElement line (mkElement "g" a' n' r' [Elem p]) [] false true
                 = (mkElement "g" a' n' r' [],
                    [Elem (visited line false true p)], None)).
    { rewrite filterIntersectingElement_eq, filterChildren_elem, visitChild_eq, Hvp, Hp.
      reflexivity. }
    unfold filterIntersecting.
    rewrite filterIntersectingElement_eq, filterChildren_elem.
    unfold visitChild at 1. cbn [intersectChild tagName String.eqb Ascii.eqb Bool.eqb].
    rewrite Hg. reflexivity.
Qed.

(** *** [clearPaths] *)

Lemma clearChildren_text recurse s rest removed :
  clearChildren recurse (Text s :: rest) removed
  = let '(rest', removed') := clearChildren recurse rest removed in
    (Text s :: rest', removed').
Proof. reflexivity. Qed.

Lemma clearChildren_elem recurse child rest removed :
  clearChildren recurse (Elem child :: rest) removed
  = if isPath child then clearChildren recurse rest (removed ++ [Elem child])
    else
      let '(child', removed) :=
        if recurse then clearPathsElement child removed recurse
        else (child, removed) in
      let '(rest', removed) := clearChildren recurse rest removed in
      (Elem child' :: rest', removed).
Proof. reflexivity. Qed.

Lemma pathFree_eq t a n r cs :
  pathFree (mkElement t a n r cs) = forallb pathFreeNode cs.
Proof. reflexivity. Qed.

Lemma clearPathsElement_tagName e removed recurse :
  tagName (fst (clearPathsElement e removed recurse)) = tagName e.
Proof.
  destruct e as [t a n r cs]. rewrite clearPathsElement_eq.
  now destruct (clearChildren recurse cs removed).
Qed.

(** After a recursive clear no Path element is left below the node. *)
Lemma clearPathsElement_pathFree e :
  forall removed, pathFree (fst (clearPathsElement e removed true)) = true.
Proof.
  induction e as [t a n r cs IH] using Element_ind'. intros removed.
  rewrite clearPathsElement_eq.
  destruct (clearChildren true cs removed) as [cs' removed'] eqn:Hc.
  cbn [fst]. rewrite pathFree_eq.
  revert removed cs' removed' Hc.
  induction IH as [|c cs Hc' _ IHcs]; intros removed cs' removed' Hc.
  - inversion Hc; subst. reflexivity.
  - destruct c as [s|child].
    + rewrite clearChildren_text in Hc.
      destruct (clearChildren true cs removed) as [rest' rm] eqn:Hr.
      inversion Hc; subst. cbn [forallb pathFreeNode andb]. eauto.
    + rewrite clearChildren_elem in Hc.
      destruct (isPath child) eqn:Hp; [eauto|].
      pose proof (Hc' removed) as Hfree.
      pose proof (clearPathsElement_tagName child removed true) as Htag.
      destruct (clearPathsElement child removed true) as [child' rm1].
      destruct (clearChildren true cs rm1) as [rest' rm2] eqn:Hr.
      inversion Hc; subst. cbn [forallb pathFreeNode fst] in *.
      unfold isPath in *. rewrite Htag, Hp, Hfree. cbn [negb andb]. eauto.
Qed.

(** After any clear no Path element is left among the children. *)
Lemma clearPathsElement_pathFreeChildren e removed recurse :
  pathFreeChildren (fst (clearPathsElement e removed recurse)) = true.
Proof.
  destruct e as [t a n r cs]. rewrite clearPathsElement_eq.
  destruct (clearChildren recurse cs removed) as [cs' removed'] eqn:Hc.
  unfold pathFreeChildren, allElements. cbn [fst children].
  revert removed cs' removed' Hc.
  induction cs as [|[s|child] cs IH]; intros removed cs' removed' Hc.
  - inversion Hc; subst. reflexivity.
  - rewrite clearChildren_text in Hc.
    destruct (clearChildren recurse cs removed) as [rest' rm] eqn:Hr.
    inversion Hc; subst. cbn [forallb andb]. eauto.
  - rewrite clearChildren_elem in Hc.
    destruct (isPath child) eqn:Hp; [eauto|].
    assert (Ht : exists child' rm1,
               (if recurse then clearPathsElement child removed recurse
                else (child, removed)) = (child', rm1) /\ isPath child' = false).
    { destruct recurse.
      - pose proof (clearPathsElement_tagName child removed true) as Htag.
        destruct (clearPathsElement child removed true) as [child' rm1].
        exists child', rm1. split; [reflexivity|].
        unfold isPath in *. cbn [fst] in Htag. now rewrite Htag.
      - now exists child, removed. }
    destruct Ht as (child' & rm1 & Heq & Hp'). rewrite Heq in Hc.
    destruct (clearChildren recurse cs rm1) as [rest' rm2] eqn:Hr.
    inversion Hc; subst. cbn [forallb]. rewrite Hp'. cbn [negb andb]. eauto.
Qed.

(** Clearing a tree without Path elements below the node changes nothing. *)
Lemma clearPathsElement_pathFree_noop e :
  pathFree e = true ->
  forall removed recurse, clearPathsElement e removed recurse = (e, removed).
Proof.
  induction e as [t a n r cs IH] using Element_ind'. intros Hf removed recurse.
  rewrite pathFree_eq in Hf. rewrite clearPathsElement_eq.
  enough (clearChildren recurse cs removed = (cs, removed)) as -> by reflexivity.
  revert removed.
  induction IH as [|c cs Hc _ IHcs]; intros removed; [reflexivity|].
  cbn [forallb] in Hf. apply andb_true_iff in Hf as [Hc0 Hf].
  destruct c as [s|child].
  - rewrite clearChildren_text, (IHcs Hf). reflexivity.
  - cbn [pathFreeNode] in Hc0. apply andb_true_iff in Hc0 as [Hp Hfc].
    apply negb_true_iff in Hp.
    rewrite clearChildren_elem, Hp.
    destruct recurse.
    + rewrite (Hc Hfc), (IHcs Hf). reflexivity.
    + rewrite (IHcs Hf). reflexivity.
Qed.

Lemma clearPathsElement_shallow_noop e :
  pathFreeChildren e = true ->
  forall removed, clearPathsElement e removed false = (e, removed).
Proof.
  destruct e as [t a n r cs]. unfold pathFreeChildren, allElements. cbn [children].
  intros Hf removed. rewrite clearPathsElement_eq.
  enough (clearChildren false cs removed = (cs, removed)) as -> by reflexivity.
  revert removed.
  induction cs as [|[s|child] cs IH]; intros removed; [reflexivity| |];
    cbn [forallb] in Hf; apply andb_true_iff in Hf as [Hc Hf].
  - rewrite clearChildren_text, (IH Hf). reflexivity.
  - apply negb_true_iff in Hc.
    rewrite clearChildren_elem, Hc, (IH Hf). reflexivity.
Qed.

(** C6. A second [clearPaths] on the same node, with the same [recurse]
    flag, returns an empty list and leaves the tree as the first call left
    it; with [recurse] set the first call leaves no Path element anywhere
    below the node, without it none among the node's children. *)
Theorem clearPaths_twice_returns_nothing
    (node : Node) (removed : list Node) (recurse : bool) :
  clearPaths (fst (clearPaths node removed recurse)) [] recurse
    = (fst (clearPaths node removed recurse), [])
  /\ match fst (clearPaths node removed recurse) with
     | Text _ => true
     | Elem e => if recurse then pathFree e else pathFreeChildren e
     end = true.
Proof.
  destruct node as [s|e]; [now split|].
  unfold clearPaths.
  pose proof (clearPathsElement_pathFree e removed) as Hdeep.
  pose proof (clearPathsElement_pathFreeChildren e removed recurse) as Hshallow.
  destruct recurse.
  - destruct (clearPathsElement e removed true) as [e1 removed1]. cbn [fst] in *.
    now rewrite (clearPathsElement_pathFree_noop e1 Hdeep).
  - destruct (clearPathsElement e removed false) as [e1 removed1]. cbn [fst] in *.
    now rewrite (clearPathsElement_shallow_noop e1 Hshallow).
Qed.

End TreeFacts.

(** A document with a stroke inside a group, a text leaf and a stroke at the
    top level. *)
Example demo_erase :
  @filterIntersecting Demo.platform (Demo.LineShape (5, -5) (5, 5))
    (Elem (Demo.root [Elem (Demo.group [Elem (Demo.pathOf [(0, 0); (10, 0); (20, 0)])]);
                      Text "note";
                      Elem (Demo.pathOf [(0, 0); (10, 0); (20, 0)])]))
    [] false true
  = (Elem (Demo.root [Elem (Demo.group []); Text "note"]),
     [Elem (@visited Demo.platform (Demo.LineShape (5, -5) (5, 5)) false true
              (Demo.pathOf [(0, 0); (10, 0); (20, 0)]))],
     None).
Proof. reflexivity. Qed.

Lemma filterIntersecting_removes_only_hit_paths_witness :
  let doc := Elem (Demo.root
                     [Elem (Demo.group [Elem (Demo.pathOf [(0, 0); (10, 0); (20, 0)])]);
                      Text "note";
                      Elem (Demo.pathOf [(0, 0); (10, 0); (20, 0)])]) in
  @nonPathCount Demo.platform
    (fst (fst (@filterIntersecting Demo.platform (Demo.LineShape (5, -5) (5, 5))
                 doc [] false true)))
  = @nonPathCount Demo.platform doc.
Proof.
  intros doc.
  assert (H : @pathLeaves Demo.platform doc = true) by reflexivity.
  exact (proj1 (@filterIntersecting_removes_only_hit_paths Demo.platform
                  (Demo.LineShape (5, -5) (5, 5)) doc [] true) H).
Defined.

Lemma filterIntersecting_omits_nested_removals_witness :
  @filterIntersecting Demo.platform (Demo.LineShape (5, -5) (5, 5))
    (Elem (@mkElement Demo.platform "svg" [] None None
             [Elem (@mkElement Demo.platform "g" [] None None
                      [Elem (Demo.pathOf [(0, 0); (10, 0); (20, 0)])])]))
    [] false true
  = (Elem (@mkElement Demo.platform "svg" [] None None
             [Elem (@mkElement Demo.platform "g" [] None None [])]),
     [], None).
Proof.
  apply (@filterIntersecting_omits_nested_removals Demo.platform
           (Demo.LineShape (5, -5) (5, 5))
           (Demo.pathOf [(0, 0); (10, 0); (20, 0)])); reflexivity.
Defined.

(** Clearing removes the stroke inside the group as well, and reports it. *)
Example clearPaths_demo :
  let stroke := Demo.pathOf [(0, 0); (10, 0); (20, 0)] in
  @clearPaths Demo.platform (Elem Demo.doc0) [] true
  = (Elem (Demo.root [Elem (Demo.group []); Text "note"]), [Elem stroke])
  /\ @clearPaths Demo.platform
       (Elem (Demo.root [Elem (Demo.group []); Text "note"])) [] true
     = (Elem (Demo.root [Elem (Demo.group []); Text "note"]), []).
Proof. split; reflexivity. Qed.

(** C7 as it is worded fails on a Path element that holds a text leaf:
    the leaf leaves the tree with it, and the number of non-Path nodes
    drops from two to one. *)
Lemma filterIntersecting_takes_text_with_path :
  @nonPathCount Demo.platform
    (fst (fst (@filterIntersecting Demo.platform (Demo.LineShape (5, -5) (5, 5))
                 (Elem (Demo.root
                          [Elem (@mkElement Demo.platform "path" [("d", "M 0 0 L 9 9")]
                                   None None [Text "x"])]))
                 [] false true)))
  <> @nonPathCount Demo.platform
       (Elem (Demo.root
                [Elem (@mkElement Demo.platform "path" [("d", "M 0 0 L 9 9")]
                         None None [Text "x"])])).
Proof. change (1%nat <> 2%nat). discriminate. Qed.

(** A Path element without path data: the shape cannot be built, the call
    throws, and the tree keeps every node; the Path has got empty render
    attributes. *)
Example filterIntersecting_throws_demo :
  @filterIntersecting Demo.platform (Demo.LineShape (5, -5) (5, 5))
    (Elem (Demo.root [Text "note";
                      Elem (@mkElement Demo.platform "path" [("fill", "none")]
                              None None [])]))
    [] false true
  = (Elem (Demo.root [Text "note";
                      Elem (@mkElement Demo.platform "path" [("fill", "none")]
                              None (Some (@emptyRender Demo.platform)) [])]),
     [], Some (TypeError "Cannot read properties of undefined")).
Proof. reflexivity. Qed.

(** ** stroke.js: drawing and sessions *)

Section RendererFacts.
Context `{P : Platform}.

Lemma drawChildren_text s rest :
  drawChildren (Text s :: rest)
  = let '(rest', ops) := drawChildren rest in (Text s :: rest', ops).
Proof. reflexivity. Qed.

Lemma drawChildren_elem child rest :
  drawChildren (Elem child :: rest)
  = let '(child', ops1) := drawElement child in
    let '(rest', ops2) := drawChildren rest in
    (Elem child' :: rest', ops1 ++ ops2).
Proof. reflexivity. Qed.

Lemma painted_eq t a n r cs :
  painted (mkElement t a n r cs)
  = (if String.eqb t "path"
     then match r with
          | Some ra => match path ra with Some _ => true | None => false end
          | None => false
          end
     else true)
    && allElements painted cs.
Proof. reflexivity. Qed.

(** Drawing touches the render attributes of Path elements only. *)
Lemma drawn_tagName e : tagName (drawn e) = tagName e.
Proof.
  destruct e as [t a n r cs]. unfold drawn. rewrite drawElement_eq.
  destruct (String.eqb t "path"); now destruct (drawChildren cs).
Qed.

Lemma drawn_attributes e : attributes (drawn e) = attributes e.
Proof.
  destruct e as [t a n r cs]. unfold drawn. rewrite drawElement_eq.
  destruct (String.eqb t "path"); now destruct (drawChildren cs).
Qed.

Lemma drawn_noteSvgAttributes e : noteSvgAttributes (drawn e) = noteSvgAttributes e.
Proof.
  destruct e as [t a n r cs]. unfold drawn. rewrite drawElement_eq.
  destruct (String.eqb t "path"); now destruct (drawChildren cs).
Qed.

Lemma drawn_renderAttributes e :
  isPath e = false -> renderAttributes (drawn e) = renderAttributes e.
Proof.
  destruct e as [t a n r cs]. unfold drawn, isPath. cbn [tagName].
  intros Ht. rewrite drawElement_eq, Ht. now destruct (drawChildren cs).
Qed.

Lemma drawn_children e : children (drawn e) = fst (drawChildren (children e)).
Proof.
  destruct e as [t a n r cs]. unfold drawn. rewrite drawElement_eq.
  cbn [children].
  destruct (String.eqb t "path"); now destruct (drawChildren cs).
Qed.

Lemma drawChildren_app cs1 cs2 :
  fst (drawChildren (cs1 ++ cs2)) = fst (drawChildren cs1) ++ fst (drawChildren cs2).
Proof.
  induction cs1 as [|[s|child] cs1 IH]; [reflexivity | |]; cbn [app].
  - rewrite !drawChildren_text.
    destruct (drawChildren (cs1 ++ cs2)), (drawChildren cs1). cbn [fst] in *.
    now rewrite IH.
  - rewrite !drawChildren_elem. destruct (drawElement child).
    destruct (drawChildren (cs1 ++ cs2)), (drawChildren cs1). cbn [fst] in *.
    now rewrite IH.
Qed.

(** Once painted, a tree is left as it is by a redraw. *)
Lemma drawn_painted_id e : painted e = true -> drawn e = e.
Proof.
  induction e as [t a n r cs IH] using Element_ind'. intros Hp.
  rewrite painted_eq in Hp. apply andb_true_iff in Hp as [Hr Hcs].
  unfold drawn. rewrite drawElement_eq.
  assert (Hc : fst (drawChildren cs) = cs).
  { clear Hr. unfold allElements in Hcs.
    induction IH as [|c cs Hc _ IHcs]; [reflexivity|].
    cbn [forallb] in Hcs. apply andb_true_iff in Hcs as [Hc0 Hcs].
    destruct c as [s|child].
    - rewrite drawChildren_text. destruct (drawChildren cs). cbn [fst] in *.
      now rewrite (IHcs Hcs).
    - rewrite drawChildren_elem. specialize (Hc Hc0). unfold drawn in Hc.
      destruct (drawElement child). destruct (drawChildren cs). cbn [fst] in *.
      now rewrite Hc, (IHcs Hcs). }
  destruct (drawChildren cs) as [cs' ops]. cbn [fst] in Hc. subst cs'.
  destruct (String.eqb t "path"); [|reflexivity].
  destruct r as [[[p|] s sh]|]; try discriminate. reflexivity.
Qed.

Lemma drawn_is_painted e : painted (drawn e) = true.
Proof.
  induction e as [t a n r cs IH] using Element_ind'.
  unfold drawn. rewrite drawElement_eq.
  assert (Hc : allElements painted (fst (drawChildren cs)) = true).
  { unfold allElements. induction IH as [|c cs Hc _ IHcs]; [reflexivity|].
    destruct c as [s|child].
    - rewrite drawChildren_text. now destruct (drawChildren cs).
    - rewrite drawChildren_elem. unfold drawn in Hc.
      destruct (drawElement child). destruct (drawChildren cs). cbn [fst forallb] in *.
      now rewrite Hc, IHcs. }
  destruct (drawChildren cs) as [cs' ops]. cbn [fst] in *.
  destruct (String.eqb t "path") eqn:Ht; cbn [fst]; rewrite painted_eq, Ht, Hc;
    reflexivity.
Qed.

(** *** The tree without its render caches *)

Lemma skeleton_eq t a n r cs :
  skeleton (mkElement t a n r cs) = mkElement t a n None (map skeletonNode cs).
Proof. reflexivity. Qed.

Lemma skeleton_setRenderAttributes r e :
  skeleton (setRenderAttributes r e) = skeleton e.
Proof. now destruct e. Qed.

Lemma skeleton_children e e' :
  tagName e' = tagName e -> attributes e' = attributes e ->
  noteSvgAttributes e' = noteSvgAttributes e ->
  map skeletonNode (children e') = map skeletonNode (children e) ->
  skeleton e' = skeleton e.
Proof.
  destruct e, e'. cbn [tagName attributes noteSvgAttributes children].
  intros -> -> -> H. now rewrite !skeleton_eq, H.
Qed.

Lemma drawElement_parts e :
  drawElement e
  = (mkElement (tagName e) (attributes e) (noteSvgAttributes e)
       (fst (paintHere e)) (fst (drawChildren (children e))),
     snd (paintHere e) ++ snd (drawChildren (children e))).
Proof.
  destruct e as [t a n r cs]. rewrite drawElement_eq. unfold paintHere.
  cbn [tagName attributes noteSvgAttributes renderAttributes children].
  destruct (String.eqb t "path"); now destruct (drawChildren cs).
Qed.

Lemma drawChildren_cons c cs :
  drawChildren (c :: cs)
  = match c with
    | Text s => (Text s :: fst (drawChildren cs), snd (drawChildren cs))
    | Elem e => (Elem (fst (drawElement e)) :: fst (drawChildren cs),
                 snd (drawElement e) ++ snd (drawChildren cs))
    end.
Proof.
  destruct c as [s|e].
  - rewrite drawChildren_text. now destruct (drawChildren cs).
  - rewrite drawChildren_elem. destruct (drawElement e). now destruct (drawChildren cs).
Qed.

Lemma skeleton_drawn_children cs :
  childrenAll (fun e => skeleton (fst (drawElement e)) = skeleton e) cs ->
  map skeletonNode (fst (drawChildren cs)) = map skeletonNode cs.
Proof.
  induction 1 as [|c cs Hc _ IH]; [reflexivity|].
  rewrite drawChildren_cons. destruct c as [s|c]; cbn [fst map skeletonNode].
  - now rewrite IH.
  - now rewrite Hc, IH.
Qed.

(** Drawing changes render caches only. *)
Lemma skeleton_drawn e : skeleton (drawn e) = skeleton e.
Proof.
  unfold drawn. induction e as [t a n r cs IH] using Element_ind'.
  rewrite drawElement_parts. cbn [fst tagName attributes noteSvgAttributes children].
  rewrite !skeleton_eq. f_equal. now apply skeleton_drawn_children.
Qed.

Lemma drawBack_svg st : svg (drawBack st) = drawn (svg st).
Proof. unfold drawBack, drawn. now destruct (drawElement (svg st)). Qed.

Lemma drawBack_liveStrokes st : liveStrokes (drawBack st) = liveStrokes st.
Proof. unfold drawBack. now destruct (drawElement (svg st)). Qed.

Lemma drawBack_tool st : tool (drawBack st) = tool st.
Proof. unfold drawBack. now destruct (drawElement (svg st)). Qed.

Lemma drawStrokeDiff_svg t stroke st : svg (drawStrokeDiff t stroke st) = svg st.
Proof.
  unfold drawStrokeDiff. destruct (length stroke <? 2)%nat; [reflexivity|].
  destruct t; repeat (case_match; try reflexivity).
Qed.

Lemma drawStrokeDiff_liveStrokes t stroke st :
  liveStrokes (drawStrokeDiff t stroke st) = liveStrokes st.
Proof.
  unfold drawStrokeDiff. destruct (length stroke <? 2)%nat; [reflexivity|].
  destruct t; repeat (case_match; try reflexivity).
Qed.


(** The eraser keeps a painted tree painted, whether it returns or
    throws: what it leaves in the render attributes keeps the [Path2D]. *)
Lemma Pruned_painted line :
  (forall n n', Pruned line n n' ->
     forall e e', n = Elem e -> n' = Elem e' -> painted e = true -> painted e' = true) /\
  (forall cs cs', PrunedList line cs cs' ->
     allElements painted cs = true -> allElements painted cs' = true).
Proof.
  apply Pruned_mutind.
  - discriminate.
  - intros t a n r r' cs cs' _ IH Hr e e' [= <-] [= <-].
    rewrite !painted_eq. intros [Hp Hcs]%andb_true_iff.
    rewrite (IH Hcs), andb_true_r.
    destruct Hr as [->| ->]; [exact Hp|].
    unfold intersectChild. cbn [tagName renderAttributes attributes].
    destruct (String.eqb t "path"); [|reflexivity].
    destruct r as [[[p|] s sh]|]; try discriminate.
    cbn [default from_option id shape path stroke].
    destruct sh as [sh|]; [reflexivity|].
    now destruct (ShapeInfo_path (getAttr "d" a)).
  - reflexivity.
  - intros c c' cs cs' Hc IHc _ IHcs. unfold allElements in *. cbn [forallb].
    intros [Hc0 Hcs]%andb_true_iff. rewrite (IHcs Hcs), andb_true_r.
    inversion Hc; subst; [reflexivity|]. eapply IHc; eauto.
  - intros e cs cs' _ _ _ IH. unfold allElements in *. cbn [forallb].
    intros [_ Hcs]%andb_true_iff. now apply IH.
Qed.

Lemma filterIntersectingElement_painted line keep recurse e :
  painted e = true ->
  forall removed,
    painted (fst (fst (filterIntersectingElement line e removed keep recurse))) = true.
Proof.
  intros Hp removed.
  eapply (proj1 (Pruned_painted line));
    [apply (filterIntersectingElement_Pruned line keep recurse e removed) | | | exact Hp];
    reflexivity.
Qed.

Lemma createPathFromStroke_painted stroke t :
  painted (createPathFromStroke stroke t) = true.
Proof. reflexivity. Qed.


(** *** Sessions *)

(** [extend] on an identifier with no live session: nothing happens. *)
Lemma moveStroke_idle id rect event st :
  liveStrokes st !! id = None -> moveStroke id rect event st = (Ok tt, st).
Proof. intros H. unfold moveStroke. now rewrite H. Qed.

(** A pen never meets the intersection library. *)
Lemma moveStroke_pen id rect event st c d tol stroke :
  liveStrokes st !! id = Some (mkLive (Pen c d tol) stroke) ->
  moveStroke id rect event st
  = (Ok tt,
     drawStrokeDiff (Pen c d tol) (stroke ++ [eventPoint rect event])
       (setLiveStrokes
          (<[id := mkLive (Pen c d tol) (stroke ++ [eventPoint rect event])]>
             (liveStrokes st)) st)).
Proof. intros H. unfold moveStroke. now rewrite H. Qed.

(** The session after [moveStroke]: one point longer when the handler
    returns, untouched when it throws, which only an eraser can cause. *)
Lemma moveStroke_liveStrokes id rect event st t stroke :
  liveStrokes st !! id = Some (mkLive t stroke) ->
  match fst (moveStroke id rect event st) with
  | Ok _ =>
      liveStrokes (snd (moveStroke id rect event st))
      = <[id := mkLive t (stroke ++ [eventPoint rect event])]> (liveStrokes st)
  | Throw _ =>
      liveStrokes (snd (moveStroke id rect event st)) = liveStrokes st /\
      exists d, t = Eraser d
  end.
Proof.
  intros H. unfold moveStroke. rewrite H.
  destruct t as [c d tol|d].
  - cbn [fst snd]. now rewrite drawStrokeDiff_liveStrokes.
  - destruct (stroke !! (length stroke - 1)%nat) as [p|].
    + destruct (processEraserStroke (svg st) p (eventPoint rect event))
        as [[doc removed] [e|]]; cbn [fst snd].
      * split; [reflexivity | now exists d].
      * rewrite drawStrokeDiff_liveStrokes. cbn [liveStrokes setLiveStrokes].
        destruct (0 <? length removed)%nat; [|reflexivity].
        now rewrite drawBack_liveStrokes.
    + cbn [fst snd]. now rewrite drawStrokeDiff_liveStrokes.
Qed.

Lemma moveStroke_pen_svg id rect event st c d tol stroke :
  liveStrokes st !! id = Some (mkLive (Pen c d tol) stroke) ->
  svg (snd (moveStroke id rect event st)) = svg st.
Proof.
  intros H. rewrite (moveStroke_pen _ _ _ _ _ _ _ _ H). cbn [snd].
  now rewrite drawStrokeDiff_svg.
Qed.

(** Where the document of an extended stroke comes from, whether the
    handler returns or throws. *)
Lemma moveStroke_svg id rect event st :
  svg (snd (moveStroke id rect event st)) = svg st \/
  exists line,
    svg (snd (moveStroke id rect event st))
      = fst (fst (filterIntersectingElement line (svg st) [] false true)) \/
    svg (snd (moveStroke id rect event st))
      = drawn (fst (fst (filterIntersectingElement line (svg st) [] false true))).
Proof.
  unfold moveStroke.
  destruct (liveStrokes st !! id) as [[t stroke]|]; [|now left].
  destruct t as [c d tol|d].
  - cbn [snd]. rewrite drawStrokeDiff_svg. now left.
  - destruct (stroke !! (length stroke - 1)%nat) as [p|].
    + right. exists (ShapeInfo_line p (eventPoint rect event)).
      unfold processEraserStroke.
      destruct (filterIntersectingElement _ (svg st) [] false true)
        as [[doc removed] [e|]]; cbn [fst snd].
      * now left.
      * rewrite drawStrokeDiff_svg. cbn [svg setLiveStrokes].
        destruct (0 <? length removed)%nat; [right | left].
        -- now rewrite drawBack_svg.
        -- reflexivity.
    + cbn [snd]. rewrite drawStrokeDiff_svg. now left.
Qed.


(** When the eraser's call returns, every element left below the node has
    a test that returns and comes out negative. *)
Lemma filterIntersectingElement_noHit line e :
  forall removed e' removed',
    filterIntersectingElement line e removed false true = (e', removed', None) ->
    forallb (noHitNode line) (children e') = true.
Proof.
  induction e as [t a n r cs IH] using Element_ind'. intros removed e' removed'.
  rewrite filterIntersectingElement_eq.
  destruct (filterChildren line false true cs removed)
    as [[[now kept] removed0] err] eqn:Hcs.
  intros [= <- <- ->]. cbn [children].
  destruct (filterChildren_ok _ _ _ _ _ _ _ _ Hcs) as (_ & -> & _ & Hall).
  clear Hcs. unfold keptChildren.
  induction IH as [|c cs Hc _ IHcs]; [reflexivity|].
  apply Forall_cons in Hall as [Hv Hall].
  cbn [flat_map]. rewrite forallb_app, (IHcs Hall), andb_true_r.
  destruct c as [s|c]; [reflexivity|]. cbn [orb].
  assert (Htest : misses line c = negb (hits line c)).
  { rewrite visitChild_error in Hv. unfold misses, hits.
    now destruct (snd (intersectChild line c)). }
  destruct (hits line c) eqn:Hh; cbn [negb forallb]; [reflexivity|].
  rewrite andb_true_r. cbn [noHitNode].
  destruct (visited line false true c) as [t' a' n' r' cs'] eqn:Hvis.
  change (misses line (mkElement t' a' n' r' cs')
          && forallb (noHitNode line) cs' = true).
  rewrite <- Hvis, misses_visited, Htest. cbn [negb andb].
  replace cs' with (children (visited line false true c)) by now rewrite Hvis.
  rewrite visited_eq, setRenderAttributes_children.
  rewrite visitChild_error in Hv.
  destruct (snd (intersectChild line c)); [|discriminate].
  destruct (filterIntersectingElement line c [] false true) as [[c' rem] e0] eqn:Hf.
  cbn [fst snd] in *. subst e0. exact (Hc _ _ _ Hf).
Qed.

(** One step of an eraser on a painted document.  In any case the tree is
    the former one with Path elements crossed by the segment left out;
    when the handler returns, no element crossed by the segment is left
    below the root. *)
Lemma moveStroke_eraser_step id rect event st d (stroke : list Point) (p : Point) :
  liveStrokes st !! id = Some (mkLive (Eraser d) stroke) ->
  stroke !! (length stroke - 1)%nat = Some p ->
  painted (svg st) = true ->
  Pruned (ShapeInfo_line p (eventPoint rect event))
    (Elem (svg st)) (Elem (svg (snd (moveStroke id rect event st)))) /\
  (fst (moveStroke id rect event st) = Ok tt ->
   forallb (noHitNode (ShapeInfo_line p (eventPoint rect event)))
     (children (svg (snd (moveStroke id rect event st)))) = true).
Proof.
  intros Hl Hlast Hp. unfold moveStroke. rewrite Hl, Hlast. unfold processEraserStroke.
  pose proof (filterIntersectingElement_Pruned
                (ShapeInfo_line p (eventPoint rect event)) false true (svg st) []) as Hpr.
  pose proof (filterIntersectingElement_painted
                (ShapeInfo_line p (eventPoint rect event)) false true (svg st) Hp [])
    as Hpaint.
  pose proof (filterIntersectingElement_noHit
                (ShapeInfo_line p (eventPoint rect event)) (svg st) []) as Hno.
  destruct (filterIntersectingElement _ (svg st) [] false true)
    as [[doc removed] [e|]]; cbn [fst snd] in *.
  - split; [exact Hpr | discriminate].
  - rewrite drawStrokeDiff_svg. cbn [svg setLiveStrokes].
    assert (Hdoc : svg (if (0 <? length removed)%nat
                        then drawBack (setSvg doc st) else setSvg doc st) = doc).
    { destruct (0 <? length removed)%nat; [|reflexivity].
      rewrite drawBack_svg. cbn [svg setSvg]. now apply drawn_painted_id. }
    rewrite Hdoc. split; [exact Hpr|]. intros _. now apply (Hno doc removed).
Qed.

(** C2 (not met by the code for [end]). [endStroke] on an identifier with
    no live session throws a TypeError: after the inner [moveStroke] has
    returned without effect, the entry that is destructured is
    [undefined].  The session map and the tree are as before. *)
Theorem endStroke_idle_throws id rect event st :
  liveStrokes st !! id = None ->
  endStroke id rect event st
  = (Throw (TypeError "Cannot destructure property 'stroke' of undefined"), st).
Proof.
  intros H. unfold endStroke. rewrite (moveStroke_idle _ _ _ _ H). now rewrite H.
Qed.



(** ** ui.js: resizing *)

Lemma resizeCanvas_frame st :
  svg (snd (resizeCanvas st)) = svg st /\
  liveStrokes (snd (resizeCanvas st)) = liveStrokes st /\
  tool (snd (resizeCanvas st)) = tool st.
Proof.
  unfold resizeCanvas.
  destruct (negb (String.eqb (tagName (svg st)) "svg")); [now repeat split|].
  destruct (noteSvgAttributes (svg st)); now repeat split.
Qed.

Lemma resizeCanvas_ok st st' :
  resizeCanvas st = (Ok tt, st') -> tagName (svg st) = "svg".
Proof.
  unfold resizeCanvas.
  destruct (String.eqb_spec (tagName (svg st)) "svg"); [auto | discriminate].
Qed.

(** [updateDocument] either stops before drawing or redraws. *)
Lemma updateDocument_svg st :
  svg (snd (updateDocument st)) = svg st \/
  (tagName (svg st) = "svg" /\ svg (snd (updateDocument st)) = drawn (svg st)).
Proof.
  unfold updateDocument.
  destruct (noteSvgAttributes (svg st)); [|now left].
  pose proof (resizeCanvas_frame st) as (Hs & _ & _).
  destruct (resizeCanvas st) as [[[]|err] st1] eqn:Hr; cbn [snd] in *.
  - right. split; [now apply resizeCanvas_ok with st1|].
    now rewrite drawBack_svg, Hs.
  - now left.
Qed.

Lemma updateDocument_sessions st :
  liveStrokes (snd (updateDocument st)) = liveStrokes st /\
  tool (snd (updateDocument st)) = tool st.
Proof.
  unfold updateDocument.
  destruct (noteSvgAttributes (svg st)); [|now split].
  pose proof (resizeCanvas_frame st) as (_ & Hl & Ht).
  destruct (resizeCanvas st) as [[[]|err] st1]; cbn [snd] in *.
  - now rewrite drawBack_liveStrokes, drawBack_tool.
  - now split.
Qed.

Lemma setSize_other size (m : gmap string Value) k :
  k <> "width" -> k <> "height" -> setSize size m !! k = m !! k.
Proof.
  intros Hw Hh. unfold setSize.
  rewrite lookup_insert_ne by congruence. now rewrite lookup_insert_ne by congruence.
Qed.

Lemma setSize_width size (m : gmap string Value) :
  setSize size m !! "width" = Some (VNum (num_of_Z (Utils.width size))).
Proof.
  unfold setSize. rewrite lookup_insert_ne by discriminate. apply lookup_insert_eq.
Qed.

Lemma setSize_height size (m : gmap string Value) :
  setSize size m !! "height" = Some (VNum (num_of_Z (Utils.height size))).
Proof. unfold setSize. apply lookup_insert_eq. Qed.

(** What a click on the resize button leaves in the document. *)
Lemma resizeClick_svg answer st :
  svg (snd (resizeClick answer st)) = svg st \/
  exists size m,
    Utils.parseSizeString (default EmptyString answer) = Some size /\
    noteSvgAttributes (svg st) = Some m /\
    let resized := setNoteSvgAttributes (Some (setSize size m)) (svg st) in
    svg (snd (resizeClick answer st)) = resized \/
    (tagName (svg st) = "svg" /\ svg (snd (resizeClick answer st)) = drawn resized).
Proof.
  unfold resizeClick.
  destruct (noteSvgAttributes (svg st)) as [m|] eqn:Hn; [|now left].
  destruct (Utils.parseSizeString (default EmptyString answer)) as [size|] eqn:Hp; [|now left].
  right. exists size, m. split; [reflexivity|]. split; [reflexivity|]. cbn zeta.
  destruct (updateDocument_svg
              (setSvg (setNoteSvgAttributes (Some (setSize size m)) (svg st)) st))
    as [H|[Ht H]]; cbn [svg setSvg] in *.
  - now left.
  - right. split; [|exact H]. now destruct (svg st).
Qed.

(** C8. A click on the resize button, whatever is typed, leaves the tag,
    the attributes and the render attributes of the root as they were, and
    every entry of its note attributes other than [width] and [height];
    the children are the former children, repainted if the canvas is
    redrawn, hence unchanged on a painted document and on one whose root
    is not [svg] (which is never redrawn); the sessions and the tool are
    untouched. *)
Theorem resizeClick_changes_only_root_size answer st :
  let doc := svg st in
  let st' := snd (resizeClick answer st) in
  tagName (svg st') = tagName doc /\
  attributes (svg st') = attributes doc /\
  renderAttributes (svg st') = renderAttributes doc /\
  (forall k, k <> "width" -> k <> "height" ->
     noteSvgAttributes (svg st') ≫= (fun m => m !! k)
     = noteSvgAttributes doc ≫= (fun m => m !! k)) /\
  (children (svg st') = children doc \/ children (svg st') = children (drawn doc)) /\
  (painted doc = true \/ tagName doc <> "svg" ->
     children (svg st') = children doc) /\
  liveStrokes st' = liveStrokes st /\
  tool st' = tool st.
Proof.
  cbn zeta.
  assert (Hsess : liveStrokes (snd (resizeClick answer st)) = liveStrokes st /\
                  tool (snd (resizeClick answer st)) = tool st).
  { unfold resizeClick.
    destruct (noteSvgAttributes (svg st)) as [m|]; [|now split].
    destruct (Utils.parseSizeString (default EmptyString answer)) as [size|]; [|now split].
    apply (updateDocument_sessions
             (setSvg (setNoteSvgAttributes (Some (setSize size m)) (svg st)) st)). }
  destruct Hsess as [Hl Ht].
  destruct (resizeClick_svg answer st) as [H|(size & m & _ & Hn & [H|[Htag H]])];
    rewrite H; clear H.
  - repeat split; auto.
  - destruct (svg st) as [t a n r cs]. cbn in Hn. subst n.
    cbn [tagName attributes renderAttributes noteSvgAttributes children
         setNoteSvgAttributes].
    repeat split; auto.
    intros k Hw Hh. cbn. now apply setSize_other.
  - rewrite drawn_tagName, drawn_attributes, drawn_noteSvgAttributes, !drawn_children.
    rewrite drawn_renderAttributes
      by (unfold isPath; destruct (svg st); cbn in *; now subst).
    destruct (svg st) as [t a n r cs] eqn:Hdoc. cbn in Hn. subst n.
    cbn [tagName attributes renderAttributes noteSvgAttributes children
         setNoteSvgAttributes].
    repeat split; auto.
    + intros k Hw Hh. cbn. now apply setSize_other.
    + intros [Hp|Hne]; [|cbn in Htag; congruence].
      apply drawn_painted_id in Hp.
      apply (f_equal children) in Hp. rewrite drawn_children in Hp. exact Hp.
Qed.

(** The document is painted after every [updateDocument] and [endStroke]
    that returns, and a resize keeps it painted. *)
Lemma updateDocument_ok_painted st st' :
  updateDocument st = (Ok tt, st') -> painted (svg st') = true.
Proof.
  unfold updateDocument.
  destruct (noteSvgAttributes (svg st)); [|discriminate].
  destruct (resizeCanvas st) as [[[]|err] st1]; [|discriminate].
  intros [= <-]. rewrite drawBack_svg. apply drawn_is_painted.
Qed.

Lemma endStroke_ok_painted id rect event st st' :
  endStroke id rect event st = (Ok tt, st') -> painted (svg st') = true.
Proof.
  unfold endStroke.
  destruct (moveStroke id rect event st) as [[[]|e] st1]; [|discriminate].
  destruct (liveStrokes st1 !! id) as [[t stroke]|]; [|discriminate].
  intros [= <-]. rewrite drawBack_svg. apply drawn_is_painted.
Qed.

Lemma resizeClick_painted answer st :
  painted (svg st) = true -> painted (svg (snd (resizeClick answer st))) = true.
Proof.
  intros Hp.
  destruct (resizeClick_svg answer st) as [H|(size & m & _ & Hn & [H|[_ H]])];
    rewrite H.
  - exact Hp.
  - destruct (svg st) as [t a n r cs]. exact Hp.
  - apply drawn_is_painted.
Qed.

(** An accepted size is what the root then holds. *)
Lemma resizeClick_sets_size answer st size m :
  noteSvgAttributes (svg st) = Some m ->
  Utils.parseSizeString (default EmptyString answer) = Some size ->
  noteAttr "width" (svg (snd (resizeClick answer st)))
    = VNum (num_of_Z (Utils.width size)) /\
  noteAttr "height" (svg (snd (resizeClick answer st)))
    = VNum (num_of_Z (Utils.height size)).
Proof.
  intros Hn Hp.
  assert (Hm : noteSvgAttributes (svg (snd (resizeClick answer st)))
               = Some (setSize size m)).
  { unfold resizeClick. rewrite Hn, Hp.
    destruct (updateDocument_svg
                (setSvg (setNoteSvgAttributes (Some (setSize size m)) (svg st)) st))
      as [H|[_ H]]; rewrite H; cbn [svg setSvg];
      rewrite ?drawn_noteSvgAttributes; now destruct (svg st). }
  unfold noteAttr. rewrite Hm, setSize_width, setSize_height. now split.
Qed.

End RendererFacts.

Lemma endStroke_idle_throws_witness :
  @endStroke Demo.platform 7 Demo.rect0 (@mkEvent Demo.platform 3 4) Demo.idle
  = (Throw (TypeError "Cannot destructure property 'stroke' of undefined"), Demo.idle).
Proof.
  apply (@endStroke_idle_throws Demo.platform). reflexivity.
Defined.



Example endStroke_eraser_demo :
  let st' := snd (@endStroke Demo.platform 2 Demo.rect0 (@mkEvent Demo.platform 5 5)
                    Demo.eraserDown) in
  @children Demo.platform (@svg Demo.platform st') = [Elem (Demo.group []); Text "note"] /\
  @liveStrokes Demo.platform st' = ∅.
Proof. split; reflexivity. Qed.

Lemma resizeClick_changes_only_root_size_witness :
  @children Demo.platform
    (@svg Demo.platform (snd (@resizeClick Demo.platform (Some "480x240") Demo.idle)))
  = @children Demo.platform Demo.doc0.
Proof.
  destruct (@resizeClick_changes_only_root_size Demo.platform (Some "480x240") Demo.idle)
    as (_ & _ & _ & _ & _ & H & _).
  apply H. left. reflexivity.
Defined.

Example resizeClick_demo :
  @noteAttr Demo.platform "width"
    (@svg Demo.platform (snd (@resizeClick Demo.platform (Some "480x240") Demo.idle)))
  = @VNum Demo.platform 480.
Proof. reflexivity. Qed.

(** * Further properties of the code *)

(** ** utils.js: size strings *)

Module UtilsMore.
Import Utils UtilsFacts.

Lemma split_fields_no_sep (sep : ascii) (s : string) :
  Forall (fun f => allChars (fun c => negb (Ascii.eqb c sep)) f = true) (split sep s).
Proof.
  induction s as [|c s IH]; simpl.
  - repeat constructor.
  - destruct (Ascii.eqb c sep) eqn:Hc.
    + constructor; [reflexivity | exact IH].
    + destruct (split sep s) as [|h t]; [repeat constructor; simpl; now rewrite Hc|].
      inversion IH; subst. constructor; [|assumption].
      simpl. now rewrite Hc.
Qed.

(** X1. A size string without any [x] is rejected: the second field is
    missing, [parseInt(undefined)] is NaN, and the result is [null]
    whatever the first field holds. *)
Theorem parseSizeString_without_separator (sizeStr : string) :
  allChars (fun c => negb (Ascii.eqb c "x")) sizeStr = true ->
  parseSizeString sizeStr = None.
Proof.
  intros H. unfold parseSizeString. rewrite (split_single "x" sizeStr H).
  cbn [lookup list_lookup fmap option_fmap option_map parseIntArg].
  change (parseInt "undefined") with (@None Z).
  now destruct (parseInt (trim sizeStr)).
Qed.

Lemma parseSizeString_without_separator_witness :
  parseSizeString "480" = None /\ parseSizeString "-12 by 7" = None.
Proof.
  split; apply parseSizeString_without_separator; reflexivity.
Defined.

(** X2. Only the first two [x]-separated fields are read: whatever
    follows a second [x] has no influence on the result. *)
Theorem parseSizeString_ignores_further_fields (sizeStr a b : string) (rest : list string) :
  split "x" sizeStr = a :: b :: rest ->
  parseSizeString sizeStr = parseSizeString (a +:+ "x" +:+ b).
Proof.
  intros Hs.
  pose proof (split_fields_no_sep "x" sizeStr) as Hf. rewrite Hs in Hf.
  inversion Hf as [|? ? Ha Hf']; subst. inversion Hf' as [|? ? Hb _]; subst.
  unfold parseSizeString. rewrite Hs.
  change ("x" +:+ b) with (String "x" b).
  rewrite (split_append "x" a b Ha), (split_single "x" b Hb).
  reflexivity.
Qed.

Lemma parseSizeString_ignores_further_fields_witness :
  parseSizeString "480x360x999" = Some (mkSize 480 360).
Proof.
  rewrite (parseSizeString_ignores_further_fields "480x360x999" "480" "360" ["999"]);
    reflexivity.
Defined.

End UtilsMore.

(** ** document-editor.js: path data *)

Ltac flatten_append :=
  repeat first [rewrite !UtilsFacts.append_assoc | progress simpl].

Section PathDataMore.
Context `{P : Platform}.

(** X3. The path data of a stroke of two points or more always opens with
    a move-to, whether the fitter returns segments, returns none or
    throws. *)
Theorem generatePathData_starts_with_move (stroke : list Point) :
  (2 <= length stroke)%nat ->
  Utils.startsWith (generatePathData stroke) "M " = true.
Proof.
  intros H. apply UtilsFacts.startsWith_spec.
  unfold generatePathData.
  destruct (Nat.ltb_spec (length stroke) 2); [lia|].
  assert (Hpoly : forall fmt, exists r, polylineData fmt stroke = "M " +:+ r).
  { intros fmt. rewrite polylineData_encodePolyline.
    destruct stroke as [|p0 rest]; [simpl in H; lia|].
    eexists. cbn [encodePolyline renderPath renderCommand].
    flatten_append. reflexivity. }
  destruct (fitCurve stroke (num_of_Z 2)) as [[|c cs]|]; auto.
  destruct c as [[[p0 c1] c2] p3]. rewrite fold_appendCurve.
  eexists. flatten_append. reflexivity.
Qed.

End PathDataMore.

Lemma generatePathData_starts_with_move_witness :
  Utils.startsWith (@generatePathData Demo.platform [(-1, 0); (10, 0)]) "M " = true.
Proof.
  apply (@generatePathData_starts_with_move Demo.platform). simpl. lia.
Defined.

(** ** document-editor.js: more on the scene tree *)

Section TreeMore.
Context `{P : Platform}.

Lemma skeleton_visited line keep recurse c :
  (forall removed,
      skeleton (fst (fst (filterIntersectingElement line c removed keep recurse)))
      = skeleton c) ->
  skeleton (visited line keep recurse c) = skeleton c.
Proof.
  intros IH. rewrite visited_eq, skeleton_setRenderAttributes.
  destruct (snd (intersectChild line c)); [|reflexivity].
  destruct recurse; [apply IH | reflexivity].
Qed.

(** With [keepIntersecting] the children are all still there after the
    loop, changed in their caches only, whether it ends or is abandoned. *)
Lemma filterChildren_keep_skeleton line recurse cs :
  childrenAll
    (fun c => forall removed,
         skeleton (fst (fst (filterIntersectingElement line c removed true recurse)))
         = skeleton c) cs ->
  forall removed,
    let '(now, kept, removed', err) := filterChildren line true recurse cs removed in
    map skeletonNode now = map skeletonNode cs.
Proof.
  induction 1 as [|c cs Hc _ IH]; intros removed; [reflexivity|].
  destruct c as [s|c].
  - rewrite filterChildren_text. specialize (IH removed).
    destruct (filterChildren line true recurse cs removed) as [[[now kept] removed'] err].
    cbn [map skeletonNode]. now rewrite IH.
  - rewrite filterChildren_elem, visitChild_eq. cbv zeta.
    pose proof (skeleton_visited line true recurse c Hc) as Hv.
    destruct (snd (visitChild line true recurse c)) as [e|].
    + cbn [map skeletonNode]. now rewrite Hv.
    + specialize (IH (if hits line c
                      then removed ++ [Elem (visited line true recurse c)]
                      else removed)).
      destruct (filterChildren line true recurse cs _) as [[[now kept] removed'] err].
      cbn [map skeletonNode]. now rewrite Hv, IH.
Qed.

(** With [keepIntersecting] the children of the node after the call are
    the children as the loop left them. *)
Lemma filterIntersectingElement_keep_children line recurse t a n r cs removed :
  children (fst (fst (filterIntersectingElement line (mkElement t a n r cs)
                        removed true recurse)))
  = fst (fst (fst (filterChildren line true recurse cs removed))).
Proof.
  rewrite filterIntersectingElement_eq.
  destruct (filterChildren line true recurse cs removed)
    as [[[now kept] removed'] [e|]] eqn:Hcs; [reflexivity|].
  cbn [fst children]. exact (filterChildren_keep _ _ _ _ _ _ _ Hcs).
Qed.

Lemma filterIntersectingElement_keep_skeleton line recurse e :
  forall removed,
    skeleton (fst (fst (filterIntersectingElement line e removed true recurse)))
    = skeleton e.
Proof.
  induction e as [t a n r cs IH] using Element_ind'. intros removed.
  apply skeleton_children.
  - apply filterIntersectingElement_tagName.
  - apply filterIntersectingElement_attributes.
  - apply filterIntersectingElement_noteSvgAttributes.
  - rewrite filterIntersectingElement_keep_children.
    pose proof (filterChildren_keep_skeleton line recurse cs IH removed) as H.
    now destruct (filterChildren line true recurse cs removed)
      as [[[now kept] removed'] err].
Qed.

(** X4. With [keepIntersecting = true] nothing leaves the tree, whether
    the call returns or throws: it is the same up to render caches, and
    every node added to [removed] is a Path element with a positive test
    that is still a child of the node. *)
Theorem filterIntersecting_keep_reports_only
    (line : Shape) (e : Element) (removed : list Node) (recurse : bool) :
  skeleton (fst (fst (filterIntersectingElement line e removed true recurse)))
  = skeleton e /\
  exists new,
    snd (fst (filterIntersectingElement line e removed true recurse)) = removed ++ new /\
    Forall (fun c =>
              In c (children (fst (fst (filterIntersectingElement line e removed
                                          true recurse))))
              /\ exists p, c = Elem p /\ isPath p = true /\ hits line p = true) new.
Proof.
  split; [apply filterIntersectingElement_keep_skeleton|].
  destruct e as [t a n r cs]. rewrite filterIntersectingElement_keep_children.
  rewrite filterIntersectingElement_eq.
  pose proof (filterChildren_removed line true recurse cs removed) as H.
  destruct (filterChildren line true recurse cs removed) as [[[now kept] removed'] err].
  exact H.
Qed.

Lemma children_accounting line recurse cs :
  length cs = (length (keptChildren line false recurse cs)
               + length (hitChildren line false recurse cs))%nat.
Proof.
  induction cs as [|[s|e] rest IH]; unfold hitChildren, keptChildren in *;
    cbn [flat_map orb app length] in *; [reflexivity | lia |].
  rewrite !length_app. destruct (hits line e); cbn [negb length]; lia.
Qed.

(** While the loop runs the children stay in place: the array under
    construction is assigned only when the loop ends. *)
Lemma filterChildren_now_length line keep recurse cs removed :
  length (fst (fst (fst (filterChildren line keep recurse cs removed)))) = length cs.
Proof.
  revert removed. induction cs as [|[s|c] rest IH]; intros removed.
  - reflexivity.
  - rewrite filterChildren_text. specialize (IH removed).
    destruct (filterChildren line keep recurse rest removed) as [[[now kept] removed'] err].
    cbn [fst length] in *. now rewrite IH.
  - rewrite filterChildren_elem, visitChild_eq. cbv zeta.
    destruct (snd (visitChild line keep recurse c)); [reflexivity|].
    specialize (IH (if hits line c
                    then removed ++ [Elem (visited line keep recurse c)]
                    else removed)).
    destruct (filterChildren line keep recurse rest
                (if hits line c
                 then removed ++ [Elem (visited line keep recurse c)]
                 else removed)) as [[[now kept] removed'] err].
    cbn [fst length] in *. now rewrite IH.
Qed.

(** X5. With [keepIntersecting = false], when the call returns the node
    has lost exactly as many children as nodes are added to the returned
    list; when it throws, the node still has all its children. *)
Theorem filterIntersecting_children_accounting
    (line : Shape) (e : Element) (removed : list Node) (recurse : bool) :
  let e' := fst (fst (filterIntersectingElement line e removed false recurse)) in
  let removed' := snd (fst (filterIntersectingElement line e removed false recurse)) in
  match snd (filterIntersectingElement line e removed false recurse) with
  | None =>
      (length (children e) + length removed)%nat
      = (length (children e') + length removed')%nat
  | Some _ => length (children e') = length (children e)
  end.
Proof.
  cbv zeta.
  destruct (filterIntersectingElement line e removed false recurse)
    as [[e' removed'] [err|]] eqn:Hf; cbn [fst snd].
  - destruct e as [t a n r cs]. rewrite filterIntersectingElement_eq in Hf.
    pose proof (filterChildren_now_length line false recurse cs removed) as Hl.
    destruct (filterChildren line false recurse cs removed)
      as [[[now kept] removed''] [err'|]]; [|discriminate].
    injection Hf as <- _ _. exact Hl.
  - destruct (filterIntersectingElement_spec _ _ _ _ _ _ _ Hf) as [-> ->].
    rewrite length_app, (children_accounting line recurse (children e)).
    destruct e as [t a n r cs]. cbn [setChildren children]. lia.
Qed.

Lemma noHit_eq line t a n r cs :
  noHit line (mkElement t a n r cs)
  = misses line (mkElement t a n r cs) && forallb (noHitNode line) cs.
Proof. reflexivity. Qed.

(** When every test returns and comes out negative, the loop ends, keeps
    every child and pushes nothing. *)
Lemma filterChildren_noHit line recurse cs :
  childrenAll
    (fun c => noHit line c = true ->
       forall removed, exists c',
         filterIntersectingElement line c removed false recurse = (c', removed, None) /\
         skeleton c' = skeleton c) cs ->
  forallb (noHitNode line) cs = true ->
  forall removed, exists now kept,
    filterChildren line false recurse cs removed = (now, kept, removed, None) /\
    map skeletonNode kept = map skeletonNode cs.
Proof.
  induction 1 as [|c cs Hc _ IH]; intros Hn removed.
  - now exists [], [].
  - cbn [forallb] in Hn. apply andb_true_iff in Hn as [Hc0 Hn].
    destruct c as [s|c].
    + rewrite filterChildren_text.
      destruct (IH Hn removed) as (now & kept & -> & Hk).
      exists (Text s :: now), (Text s :: kept). cbn [map skeletonNode].
      now rewrite Hk.
    + cbn [noHitNode] in Hc0. specialize (Hc Hc0).
      assert (Hm : misses line c = true)
        by (destruct c; rewrite noHit_eq in Hc0; now apply andb_true_iff in Hc0).
      assert (Herr : snd (visitChild line false recurse c) = None).
      { rewrite visitChild_error. unfold misses in Hm.
        destruct (snd (intersectChild line c)); [|discriminate].
        destruct recurse; [|reflexivity].
        destruct (Hc []) as (c' & -> & _). reflexivity. }
      assert (Hsk : skeleton (visited line false recurse c) = skeleton c).
      { rewrite visited_eq, skeleton_setRenderAttributes.
        destruct (snd (intersectChild line c)); [|reflexivity].
        destruct recurse; [|reflexivity].
        destruct (Hc []) as (c' & -> & Hs). exact Hs. }
      rewrite filterChildren_elem, visitChild_eq, Herr, (misses_hits _ _ Hm).
      cbv zeta. destruct (IH Hn removed) as (now & kept & -> & Hk).
      cbn [orb negb]. eexists _, _. split; [reflexivity|].
      cbn [map skeletonNode]. now rewrite Hsk, Hk.
Qed.

Lemma filterIntersectingElement_noHit_returns line recurse e :
  noHit line e = true ->
  forall removed, exists e',
    filterIntersectingElement line e removed false recurse = (e', removed, None) /\
    skeleton e' = skeleton e.
Proof.
  induction e as [t a n r cs IH] using Element_ind'. intros Hn removed.
  rewrite noHit_eq in Hn. apply andb_true_iff in Hn as [_ Hn].
  destruct (filterChildren_noHit line recurse cs IH Hn removed) as (now & kept & Hf & Hk).
  rewrite filterIntersectingElement_eq, Hf. eexists. split; [reflexivity|].
  now rewrite !skeleton_eq, Hk.
Qed.

(** X6. When on every element of the tree the test returns and comes out
    negative, the eraser returns and removes nothing: the tree is the same
    up to render caches and the returned list is the one passed in. *)
Theorem filterIntersecting_no_hit_no_removal
    (line : Shape) (e : Element) (removed : list Node) (recurse : bool) :
  noHit line e = true ->
  snd (filterIntersectingElement line e removed false recurse) = None /\
  skeleton (fst (fst (filterIntersectingElement line e removed false recurse)))
  = skeleton e /\
  snd (fst (filterIntersectingElement line e removed false recurse)) = removed.
Proof.
  intros Hn.
  destruct (filterIntersectingElement_noHit_returns line recurse e Hn removed)
    as (e' & -> & Hs).
  now repeat split.
Qed.

End TreeMore.

Lemma filterIntersecting_no_hit_no_removal_witness :
  snd (fst (@filterIntersectingElement Demo.platform (Demo.LineShape (7, 7) (7, 7))
              Demo.doc0 [] false true)) = [].
Proof.
  apply (@filterIntersecting_no_hit_no_removal Demo.platform). reflexivity.
Defined.

Section ClearMore.
Context `{P : Platform}.

Lemma pathCount_eq t a n r cs :
  pathCount (mkElement t a n r cs)
  = ((if String.eqb t "path" then 1 else 0) + list_sum (map pathCountNode cs))%nat.
Proof. reflexivity. Qed.

Lemma path_leaf_pathCount e :
  isPath e = true -> pathLeavesElement e = true -> pathCount e = 1%nat.
Proof.
  destruct e as [t a n r cs]. unfold isPath. cbn [tagName]. intros Ht.
  rewrite pathLeavesElement_eq, pathCount_eq, Ht.
  destruct cs; [reflexivity | discriminate].
Qed.

(** The accumulator of [clearPaths] only grows at its end. *)
Lemma clearPathsElement_acc e :
  forall removed,
    clearPathsElement e removed true
    = (fst (clearPathsElement e [] true),
       removed ++ snd (clearPathsElement e [] true)).
Proof.
  induction e as [t a n r cs IH] using Element_ind'. intros removed.
  rewrite !clearPathsElement_eq.
  enough (Hc : forall removed,
             clearChildren true cs removed
             = (fst (clearChildren true cs []), removed ++ snd (clearChildren true cs []))).
  { rewrite (Hc removed). now destruct (clearChildren true cs []). }
  clear removed.
  induction IH as [|c cs Hc _ IHcs]; intros removed.
  - simpl. now rewrite app_nil_r.
  - destruct c as [s|c].
    + rewrite !clearChildren_text, (IHcs removed).
      now destruct (clearChildren true cs []).
    + rewrite !clearChildren_elem. destruct (isPath c).
      * rewrite (IHcs (removed ++ [Elem c])), (IHcs ([] ++ [Elem c])).
        cbn [fst snd app]. now rewrite <- app_assoc.
      * rewrite (Hc removed).
        destruct (clearPathsElement c [] true) as [c' out] eqn:Hcc. cbn [fst snd].
        rewrite (IHcs (removed ++ out)), (IHcs out).
        destruct (clearChildren true cs []) as [rest' out']. cbn [fst snd].
        now rewrite app_assoc.
Qed.

Lemma clearChildren_acc cs :
  forall removed,
    clearChildren true cs removed
    = (fst (clearChildren true cs []), removed ++ snd (clearChildren true cs [])).
Proof.
  induction cs as [|[s|c] cs IH]; intros removed.
  - simpl. now rewrite app_nil_r.
  - rewrite !clearChildren_text, (IH removed).
    now destruct (clearChildren true cs []).
  - rewrite !clearChildren_elem. destruct (isPath c).
    + rewrite (IH (removed ++ [Elem c])), (IH ([] ++ [Elem c])).
      cbn [fst snd app]. now rewrite <- app_assoc.
    + rewrite (clearPathsElement_acc c removed).
      destruct (clearPathsElement c [] true) as [c' out]. cbn [fst snd].
      rewrite (IH (removed ++ out)), (IH out).
      destruct (clearChildren true cs []) as [rest' out']. cbn [fst snd].
      now rewrite app_assoc.
Qed.

(** One step of the loop, with the lists it returns spelled out. *)
Lemma clearChildren_cons c cs :
  clearChildren true (c :: cs) []
  = match c with
    | Text s => (Text s :: fst (clearChildren true cs []), snd (clearChildren true cs []))
    | Elem e =>
        if isPath e
        then (fst (clearChildren true cs []), Elem e :: snd (clearChildren true cs []))
        else (Elem (fst (clearPathsElement e [] true)) :: fst (clearChildren true cs []),
              snd (clearPathsElement e [] true) ++ snd (clearChildren true cs []))
    end.
Proof.
  destruct c as [s|e].
  - rewrite clearChildren_text. now destruct (clearChildren true cs []).
  - rewrite clearChildren_elem. destruct (isPath e).
    + now rewrite clearChildren_acc.
    + destruct (clearPathsElement e [] true) as [e' out]. cbn [fst snd].
      rewrite clearChildren_acc. reflexivity.
Qed.

Lemma clearPathsElement_parts t a n r cs :
  clearPathsElement (mkElement t a n r cs) [] true
  = (mkElement t a n r (fst (clearChildren true cs [])), snd (clearChildren true cs [])).
Proof. rewrite clearPathsElement_eq. now destruct (clearChildren true cs []). Qed.

Lemma clearPathsElement_only_paths e :
  Forall (fun c => exists p, c = Elem p /\ isPath p = true)
         (snd (clearPathsElement e [] true)).
Proof.
  induction e as [t a n r cs IH] using Element_ind'.
  rewrite clearPathsElement_parts. cbn [snd].
  induction IH as [|c cs Hc _ IHcs]; [constructor|].
  rewrite clearChildren_cons. destruct c as [s|c]; [exact IHcs|].
  destruct (isPath c) eqn:Hp; cbn [snd].
  - constructor; [now exists c | exact IHcs].
  - apply Forall_app. now split.
Qed.

Lemma clearPathsElement_counts e :
  pathLeavesElement e = true ->
  length (snd (clearPathsElement e [] true)) = list_sum (map pathCountNode (children e))
  /\ nonPathCountElement (fst (clearPathsElement e [] true)) = nonPathCountElement e.
Proof.
  induction e as [t a n r cs IH] using Element_ind'. intros Hl.
  rewrite clearPathsElement_parts. cbn [fst snd children].
  rewrite pathLeavesElement_eq in Hl. apply andb_true_iff in Hl as [_ Hl].
  rewrite !nonPathCountElement_eq.
  enough (Hc : length (snd (clearChildren true cs [])) = list_sum (map pathCountNode cs)
               /\ list_sum (map nonPathCount (fst (clearChildren true cs [])))
                  = list_sum (map nonPathCount cs))
    by (destruct Hc as [H1 H2]; now rewrite H1, H2).
  induction IH as [|c cs Hc _ IHcs]; [now split|].
  cbn [forallb] in Hl. apply andb_true_iff in Hl as [Hlc Hl].
  destruct (IHcs Hl) as [H1 H2]. rewrite clearChildren_cons.
  unfold list_sum in *. destruct c as [s|c]; cbn [fst snd map fold_right length].
  - split; [exact H1 | now rewrite H2].
  - cbn [pathLeaves] in Hlc. destruct (isPath c) eqn:Hp; cbn [fst snd map fold_right length].
    + cbn [pathCountNode nonPathCount].
      rewrite (path_leaf_pathCount c Hp Hlc), (path_leaf_count c Hp Hlc).
      split; [now rewrite H1 | exact H2].
    + destruct (Hc Hlc) as [H3 H4]. rewrite length_app.
      cbn [pathCountNode nonPathCount]. split.
      * rewrite H3, H1.
        destruct c as [t' a' n' r' cs']. unfold isPath in Hp. cbn [tagName] in Hp.
        rewrite pathCount_eq, Hp. cbn [children]. unfold list_sum. lia.
      * now rewrite H4, H2.
Qed.

(** X7. A recursive [clearPaths] adds only Path elements to its list;
    on a tree whose Path elements are leaves it adds every Path element
    below the node and keeps every other node. *)
Theorem clearPaths_returns_every_path (e : Element) (removed : list Node) :
  exists new,
    snd (clearPathsElement e removed true) = removed ++ new /\
    Forall (fun c => exists p, c = Elem p /\ isPath p = true) new /\
    (pathLeavesElement e = true ->
     length new = list_sum (map pathCountNode (children e)) /\
     nonPathCountElement (fst (clearPathsElement e removed true))
       = nonPathCountElement e).
Proof.
  exists (snd (clearPathsElement e [] true)).
  rewrite (clearPathsElement_acc e removed). cbn [fst snd].
  split; [reflexivity|]. split; [apply clearPathsElement_only_paths|].
  apply clearPathsElement_counts.
Qed.

End ClearMore.

Lemma clearPaths_returns_every_path_witness :
  length (snd (@clearPathsElement Demo.platform Demo.doc0 [] true)) = 1%nat.
Proof.
  destruct (@clearPaths_returns_every_path Demo.platform Demo.doc0 [])
    as (new & Hnew & _ & Hcount).
  rewrite Hnew. cbn [app]. destruct Hcount as [Hlen _]; [reflexivity|].
  rewrite Hlen. reflexivity.
Defined.

(** ** stroke.js: drawing *)

Section DrawMore.
Context `{P : Platform}.

Lemma paintHere_again t a n r cs cs' :
  paintHere (mkElement t a n (fst (paintHere (mkElement t a n r cs))) cs')
  = paintHere (mkElement t a n r cs).
Proof.
  unfold paintHere, noteAttr.
  cbn [tagName attributes noteSvgAttributes renderAttributes].
  destruct (String.eqb t "path"); reflexivity.
Qed.

(** X8. Redrawing is idempotent: a second [drawNode] pass leaves the
    tree as the first one left it and paints the same strokes again. *)
Theorem drawElement_idempotent (e : Element) :
  drawElement (fst (drawElement e)) = (fst (drawElement e), snd (drawElement e)).
Proof.
  induction e as [t a n r cs IH] using Element_ind'.
  rewrite (drawElement_parts (mkElement t a n r cs)).
  cbn [fst snd tagName attributes noteSvgAttributes children].
  rewrite drawElement_parts.
  cbn [tagName attributes noteSvgAttributes renderAttributes children].
  rewrite paintHere_again.
  enough (Hc : drawChildren (fst (drawChildren cs))
               = (fst (drawChildren cs), snd (drawChildren cs)))
    by now rewrite Hc.
  induction IH as [|c cs Hc _ IHcs]; [reflexivity|].
  rewrite (drawChildren_cons c cs). destruct c as [s|c]; cbn [fst snd].
  - rewrite drawChildren_cons. now rewrite IHcs.
  - rewrite drawChildren_cons. now rewrite Hc, IHcs.
Qed.

(** X9. One pass of [drawNode] paints exactly one stroke per Path
    element of the tree, the root and the descendants of Path elements
    included, and leaves everything but the render caches as it was. *)
Theorem drawElement_paints_every_path (e : Element) :
  length (snd (drawElement e)) = pathCount e /\
  skeleton (fst (drawElement e)) = skeleton e.
Proof.
  split; [|apply skeleton_drawn].
  induction e as [t a n r cs IH] using Element_ind'.
  rewrite drawElement_parts, pathCount_eq. cbn [snd children].
  rewrite length_app. unfold paintHere at 1. cbn [tagName].
  f_equal; [now destruct (String.eqb t "path")|].
  induction IH as [|c cs Hc _ IHcs]; [reflexivity|].
  rewrite drawChildren_cons. unfold list_sum in *.
  destruct c as [s|c]; cbn [snd map fold_right pathCountNode].
  - exact IHcs.
  - now rewrite length_app, Hc, IHcs.
Qed.

Lemma pathFree_pathCount e :
  pathFree e = true -> pathCount e = if isPath e then 1%nat else 0%nat.
Proof.
  induction e as [t a n r cs IH] using Element_ind'. intros Hf.
  rewrite pathFree_eq in Hf. rewrite pathCount_eq. unfold isPath. cbn [tagName].
  enough (Hc : list_sum (map pathCountNode cs) = 0%nat)
    by (rewrite Hc; destruct (String.eqb t "path"); reflexivity).
  induction IH as [|c cs Hc _ IHcs]; [reflexivity|].
  cbn [forallb] in Hf. apply andb_true_iff in Hf as [Hc0 Hf].
  unfold list_sum in *. cbn [map fold_right]. rewrite (IHcs Hf).
  destruct c as [s|c]; [reflexivity|].
  cbn [pathFreeNode pathCountNode] in *. apply andb_true_iff in Hc0 as [Hp Hfc].
  apply negb_true_iff in Hp. now rewrite (Hc Hfc), Hp.
Qed.

Lemma drawElement_pathFree e :
  isPath e = false -> pathFree e = true -> drawElement e = (e, []).
Proof.
  induction e as [t a n r cs IH] using Element_ind'. unfold isPath. cbn [tagName].
  intros Ht Hf. rewrite pathFree_eq in Hf.
  rewrite drawElement_parts. unfold paintHere.
  cbn [tagName attributes noteSvgAttributes renderAttributes children fst snd].
  rewrite Ht. cbn [fst snd app].
  enough (Hc : drawChildren cs = (cs, [])) by now rewrite Hc.
  induction IH as [|c cs Hc _ IHcs]; [reflexivity|].
  cbn [forallb] in Hf. apply andb_true_iff in Hf as [Hc0 Hf].
  rewrite drawChildren_cons, (IHcs Hf). destruct c as [s|c]; [reflexivity|].
  cbn [pathFreeNode] in Hc0. apply andb_true_iff in Hc0 as [Hp Hfc].
  apply negb_true_iff in Hp. now rewrite (Hc Hp Hfc).
Qed.

(** X10. After a confirmed "erase all" on a document whose root is not
    itself a Path, no Path element is left anywhere and the redraw clears
    the back canvas without painting anything; the live sessions are not
    touched. *)
Theorem eraseAllClick_leaves_blank_canvas (st : StrokeRenderer) :
  isPath (svg st) = false ->
  pathCount (svg (eraseAllClick true st)) = 0%nat /\
  ctxBack (eraseAllClick true st) = ctxBack st ++ [ClearRect] /\
  liveStrokes (eraseAllClick true st) = liveStrokes st.
Proof.
  intros Hroot. unfold eraseAllClick, drawBack. cbn [svg setSvg].
  pose proof (clearPathsElement_pathFree (svg st) []) as Hfree.
  pose proof (clearPathsElement_tagName (svg st) [] true) as Htag.
  destruct (clearPathsElement (svg st) [] true) as [doc removed]. cbn [fst] in *.
  assert (Hp : isPath doc = false) by (unfold isPath in *; now rewrite Htag).
  rewrite (drawElement_pathFree doc Hp Hfree).
  cbn [svg ctxBack liveStrokes back setSvg]. split; [|now split].
  now rewrite (pathFree_pathCount doc Hfree), Hp.
Qed.

End DrawMore.

Lemma eraseAllClick_leaves_blank_canvas_witness :
  @ctxBack Demo.platform (@eraseAllClick Demo.platform true Demo.idle) = [@ClearRect Demo.platform].
Proof.
  destruct (@eraseAllClick_leaves_blank_canvas Demo.platform Demo.idle) as (_ & H & _);
    [reflexivity|].
  rewrite H. reflexivity.
Defined.

(** ** Invariants kept by the stroke handlers *)

Section InvariantsMore.
Context `{P : Platform}.

(** Where the document of a finished stroke comes from. *)
Lemma endStroke_svg id rect event st :
  let st1 := snd (moveStroke id rect event st) in
  svg (snd (endStroke id rect event st)) = svg st1 \/
  svg (snd (endStroke id rect event st)) = drawn (svg st1) \/
  exists t stroke,
    svg (snd (endStroke id rect event st))
    = drawn (addPathToDocument (svg st1) (createPathFromStroke stroke t)).
Proof.
  cbn zeta. unfold endStroke.
  destruct (moveStroke id rect event st) as [[[]|e] st1]; [|now left].
  cbn [snd]. destruct (liveStrokes st1 !! id) as [[t stroke]|]; [|now left].
  cbn [snd]. rewrite drawBack_svg. cbn [svg setLiveStrokes front].
  destruct t as [c d tol|d]; [|right; now left].
  destruct (2 <=? length stroke)%nat; [|right; now left].
  right; right. exists (Pen c d tol), stroke. reflexivity.
Qed.

Lemma pathLeaves_setRenderAttributes r e :
  pathLeavesElement (setRenderAttributes r e) = pathLeavesElement e.
Proof. now destruct e. Qed.

Lemma pathLeaves_skeleton e : pathLeavesElement (skeleton e) = pathLeavesElement e.
Proof.
  induction e as [t a n r cs IH] using Element_ind'.
  rewrite skeleton_eq, !pathLeavesElement_eq. f_equal.
  - destruct cs; reflexivity.
  - induction IH as [|c cs Hc _ IHcs]; [reflexivity|].
    cbn [map forallb]. rewrite IHcs. f_equal.
    destruct c as [s|c]; [reflexivity | exact Hc].
Qed.

Lemma pathLeaves_drawn e : pathLeavesElement (drawn e) = pathLeavesElement e.
Proof.
  now rewrite <- (pathLeaves_skeleton (drawn e)), skeleton_drawn, pathLeaves_skeleton.
Qed.

Lemma Pruned_pathLeaves line :
  (forall n n', Pruned line n n' -> pathLeaves n = true -> pathLeaves n' = true) /\
  (forall cs cs', PrunedList line cs cs' ->
     (cs = [] -> cs' = []) /\
     (forallb pathLeaves cs = true -> forallb pathLeaves cs' = true)).
Proof.
  apply Pruned_mutind.
  - auto.
  - intros t a n r r' cs cs' _ [Hnil IH] _.
    change (pathLeavesElement (mkElement t a n r cs) = true
            -> pathLeavesElement (mkElement t a n r' cs') = true).
    rewrite !pathLeavesElement_eq. intros [Hhead Hcs]%andb_true_iff.
    rewrite (IH Hcs), andb_true_r.
    destruct (String.eqb t "path"); [|reflexivity].
    destruct cs; [|discriminate]. now rewrite Hnil.
  - auto.
  - intros c c' cs cs' _ IHc _ [_ IHcs]. split; [discriminate|].
    cbn [forallb]. intros [Hc Hcs]%andb_true_iff. now rewrite (IHc Hc), (IHcs Hcs).
  - intros e cs cs' _ _ _ [_ IHcs]. split; [discriminate|].
    cbn [forallb]. intros [_ Hcs]%andb_true_iff. now apply IHcs.
Qed.

Lemma pathLeaves_filter line keep recurse e :
  pathLeavesElement e = true ->
  forall removed,
    pathLeavesElement (fst (fst (filterIntersectingElement line e removed keep recurse)))
    = true.
Proof.
  intros Hl removed.
  exact (proj1 (Pruned_pathLeaves line) _ _
           (filterIntersectingElement_Pruned line keep recurse e removed) Hl).
Qed.

Lemma pathLeaves_clear e :
  pathLeavesElement e = true ->
  pathLeavesElement (fst (clearPathsElement e [] true)) = true.
Proof.
  induction e as [t a n r cs IH] using Element_ind'. intros Hl.
  rewrite clearPathsElement_parts. cbn [fst].
  rewrite pathLeavesElement_eq in *. apply andb_true_iff in Hl as [Hhead Hcs].
  apply andb_true_iff. split.
  - destruct (String.eqb t "path"); [|reflexivity].
    destruct cs; [reflexivity | discriminate].
  - clear Hhead.
    induction IH as [|c cs Hc _ IHcs]; [reflexivity|].
    cbn [forallb] in Hcs. apply andb_true_iff in Hcs as [Hc0 Hcs].
    rewrite clearChildren_cons. destruct c as [s|c]; cbn [fst forallb].
    + now apply IHcs.
    + destruct (isPath c); cbn [fst forallb pathLeaves]; [now apply IHcs|].
      now rewrite (Hc Hc0), (IHcs Hcs).
Qed.

Lemma pathLeaves_addPath doc stroke t :
  isPath doc = false -> pathLeavesElement doc = true ->
  pathLeavesElement (addPathToDocument doc (createPathFromStroke stroke t)) = true.
Proof.
  destruct doc as [tg a n r cs]. unfold isPath, addPathToDocument.
  cbn [tagName children setChildren]. intros Ht.
  rewrite !pathLeavesElement_eq, Ht. cbn [andb].
  intros Hcs. now rewrite forallb_app, Hcs.
Qed.

Lemma moveStroke_tagName id rect event st :
  tagName (svg (snd (moveStroke id rect event st))) = tagName (svg st).
Proof.
  destruct (moveStroke_svg id rect event st) as [H|[line [H|H]]]; rewrite H;
    rewrite ?drawn_tagName, ?filterIntersectingElement_tagName; reflexivity.
Qed.

(** X11. The stroke handlers keep Path elements childless: on a document
    whose root is not a Path and whose Path elements are leaves, the
    document left by [moveStroke], by [endStroke] and by "erase all" has
    the same property. *)
Theorem handlers_keep_paths_childless id rect event confirmed st :
  isPath (svg st) = false ->
  pathLeavesElement (svg st) = true ->
  pathLeavesElement (svg (snd (moveStroke id rect event st))) = true /\
  pathLeavesElement (svg (snd (endStroke id rect event st))) = true /\
  pathLeavesElement (svg (eraseAllClick confirmed st)) = true.
Proof.
  intros Hroot Hl.
  assert (Hmove : pathLeavesElement (svg (snd (moveStroke id rect event st))) = true).
  { destruct (moveStroke_svg id rect event st) as [H|[line [H|H]]]; rewrite H;
      rewrite ?pathLeaves_drawn; auto using pathLeaves_filter. }
  assert (Hroot1 : isPath (svg (snd (moveStroke id rect event st))) = false)
    by (unfold isPath in *; now rewrite moveStroke_tagName).
  split; [exact Hmove|]. split.
  - destruct (endStroke_svg id rect event st) as [H|[H|(t & stroke & H)]];
      rewrite H; rewrite ?pathLeaves_drawn; auto using pathLeaves_addPath.
  - unfold eraseAllClick. destruct confirmed; [|exact Hl].
    rewrite drawBack_svg, pathLeaves_drawn. cbn [svg setSvg].
    now apply pathLeaves_clear.
Qed.

End InvariantsMore.

Lemma handlers_keep_paths_childless_witness :
  @pathLeavesElement Demo.platform
    (@svg Demo.platform
       (snd (@endStroke Demo.platform 1 Demo.rect0 (@mkEvent Demo.platform 10 0)
               Demo.penDown))) = true.
Proof.
  destruct (@handlers_keep_paths_childless Demo.platform 1 Demo.rect0
              (@mkEvent Demo.platform 10 0) true Demo.penDown)
    as (_ & H & _); [reflexivity | reflexivity | exact H].
Defined.

Section CoherenceMore.
Context `{P : Platform}.

Lemma Coherent_eq t a n r cs :
  Coherent (mkElement t a n r cs)
  = ((String.eqb t "path" = true -> coherentHere (mkElement t a n r cs))
     /\ CoherentList cs).
Proof. reflexivity. Qed.

Lemma CoherentList_app cs1 cs2 :
  CoherentList (cs1 ++ cs2) <-> CoherentList cs1 /\ CoherentList cs2.
Proof.
  induction cs1 as [|[s|c] cs1 IH]; cbn [app CoherentList]; tauto.
Qed.

(** What the test leaves in the render attributes of a coherent element
    keeps it coherent. *)
Lemma coherentHere_shape line t a n r cs n' cs' :
  coherentHere (mkElement t a n r cs) ->
  coherentHere
    (mkElement t a n' (fst (intersectChild line (mkElement t a n r cs))) cs').
Proof.
  unfold coherentHere, intersectChild.
  cbn [tagName attributes renderAttributes].
  destruct (String.eqb t "path"); cbn [fst]; [|exact (fun H => H)].
  destruct r as [[p s [sh|]]|]; cbn [default from_option id path stroke shape fst].
  - intros [Hp Hs]. split; [exact Hp|]. intros s0 [= <-]. now apply Hs.
  - intros [Hp _].
    destruct (ShapeInfo_path (getAttr "d" a)) as [sh|e] eqn:Hsh;
      cbn [fst path shape]; (split; [exact Hp|]); [now intros s0 [= <-] | discriminate].
  - intros _.
    destruct (ShapeInfo_path (getAttr "d" a)) as [sh|e] eqn:Hsh;
      cbn [fst path shape emptyRender]; (split; [discriminate|]);
      [now intros s0 [= <-] | discriminate].
Qed.

(** The same for the [Path2D] cache. *)
Lemma coherentHere_path t a n r cs n' cs' :
  coherentHere (mkElement t a n r cs) ->
  coherentHere (mkElement t a n' (fst (paintHere (mkElement t a n r cs))) cs').
Proof.
  unfold coherentHere, paintHere.
  cbn [tagName attributes renderAttributes].
  destruct (String.eqb t "path"); cbn [fst]; [|exact (fun H => H)].
  destruct r as [[p s sh]|]; cbn [default path stroke shape].
  - intros [Hp Hs]. split; [|exact Hs].
    intros p0 [= <-]. destruct p as [p1|]; cbn [default]; [now apply Hp | reflexivity].
  - intros _. split; [now intros p0 [= <-] | discriminate].
Qed.

Lemma Pruned_Coherent line :
  (forall n n', Pruned line n n' ->
     forall e e', n = Elem e -> n' = Elem e' -> Coherent e -> Coherent e') /\
  (forall cs cs', PrunedList line cs cs' -> CoherentList cs -> CoherentList cs').
Proof.
  apply Pruned_mutind.
  - discriminate.
  - intros t a n r r' cs cs' _ IH Hr e e' [= <-] [= <-].
    rewrite !Coherent_eq. intros [Hhead Hcs]. split; [|now apply IH].
    intros Hp. specialize (Hhead Hp). destruct Hr as [->| ->].
    + exact Hhead.
    + now apply coherentHere_shape.
  - auto.
  - intros c c' cs cs' Hc IHc _ IHcs.
    inversion Hc; subst; cbn [CoherentList].
    + exact IHcs.
    + intros [Hc0 Hcs]. split; [eapply IHc; eauto | now apply IHcs].
  - intros e cs cs' _ _ _ IH. cbn [CoherentList]. intros [_ Hcs]. now apply IH.
Qed.

Lemma Coherent_filter line keep recurse e :
  Coherent e ->
  forall removed,
    Coherent (fst (fst (filterIntersectingElement line e removed keep recurse))).
Proof.
  intros Hc removed.
  eapply (proj1 (Pruned_Coherent line));
    [apply (filterIntersectingElement_Pruned line keep recurse e removed) | | | exact Hc];
    reflexivity.
Qed.

Lemma Coherent_drawn e : Coherent e -> Coherent (drawn e).
Proof.
  unfold drawn. induction e as [t a n r cs IH] using Element_ind'. intros Hc.
  rewrite drawElement_parts.
  cbn [fst tagName attributes noteSvgAttributes children].
  rewrite Coherent_eq in *. destruct Hc as [Hhead Hcs]. split.
  - intros Hp. apply coherentHere_path. now apply Hhead.
  - clear Hhead. induction IH as [|c cs Hc _ IHcs]; [exact I|].
    rewrite drawChildren_cons. destruct c as [s|c]; cbn [fst CoherentList] in *.
    + now apply IHcs.
    + destruct Hcs as [Hc0 Hcs]. split; [now apply Hc | now apply IHcs].
Qed.

Lemma Coherent_createPath stroke t : Coherent (createPathFromStroke stroke t).
Proof.
  unfold createPathFromStroke. rewrite Coherent_eq. split; [|exact I].
  intros _. unfold coherentHere. cbn. split.
  - now intros p [= <-].
  - discriminate.
Qed.

Lemma Coherent_addPath doc stroke t :
  Coherent doc -> Coherent (addPathToDocument doc (createPathFromStroke stroke t)).
Proof.
  destruct doc as [tg a n r cs]. unfold addPathToDocument.
  cbn [children setChildren]. rewrite !Coherent_eq. intros [Hhead Hcs].
  split; [exact Hhead|]. apply CoherentList_app. split; [exact Hcs|].
  cbn [CoherentList]. split; [apply Coherent_createPath | exact I].
Qed.

Lemma CoherentList_In cs p : CoherentList cs -> In (Elem p) cs -> Coherent p.
Proof.
  induction cs as [|[s|c] cs IH]; cbn [CoherentList In]; [tauto | |].
  - intros H [Heq|Hin]; [discriminate | auto].
  - intros [Hc H] [[= ->]|Hin]; auto.
Qed.

(** X12. The render caches stay coherent with the path data: on a
    document whose Path elements have caches built from their [d]
    attribute, [moveStroke] and [endStroke] leave such a document, whether
    they return or throw, and the test the eraser makes on a Path child is
    the intersection test of the shape built from its current [d], and
    throws when that shape cannot be built. *)
Theorem handlers_keep_caches_coherent id rect event st :
  Coherent (svg st) ->
  Coherent (svg (snd (moveStroke id rect event st))) /\
  Coherent (svg (snd (endStroke id rect event st))) /\
  (forall line p,
     In (Elem p) (children (svg st)) -> isPath p = true ->
     snd (intersectChild line p)
     = match ShapeInfo_path (getAttr "d" (attributes p)) with
       | Ok sh => Ok (String.eqb (Intersection_status sh line) "Intersection")
       | Throw e => Throw e
       end).
Proof.
  intros Hc.
  assert (Hmove : Coherent (svg (snd (moveStroke id rect event st)))).
  { destruct (moveStroke_svg id rect event st) as [H|[line [H|H]]]; rewrite H;
      auto using Coherent_filter, Coherent_drawn. }
  split; [exact Hmove|]. split.
  - destruct (endStroke_svg id rect event st) as [H|[H|(t & stroke & H)]];
      rewrite H; auto using Coherent_drawn, Coherent_addPath.
  - intros line p Hin Hp.
    destruct (svg st) as [tg a n r cs]. rewrite Coherent_eq in Hc.
    destruct Hc as [_ Hcs]. cbn [children] in Hin.
    pose proof (CoherentList_In cs p Hcs Hin) as Hcp.
    destruct p as [tp ap np rp csp]. rewrite Coherent_eq in Hcp.
    destruct Hcp as [Hhere _]. unfold isPath in Hp. cbn [tagName] in Hp.
    specialize (Hhere Hp). unfold intersectChild, coherentHere in *.
    cbn [tagName attributes renderAttributes] in *. rewrite Hp.
    destruct rp as [[pp ss [sh|]]|]; cbn [default from_option Datatypes.id shape] in *.
    + destruct Hhere as [_ Hs]. now rewrite (Hs sh eq_refl).
    + now destruct (ShapeInfo_path (getAttr "d" ap)).
    + now destruct (ShapeInfo_path (getAttr "d" ap)).
Qed.

End CoherenceMore.

Lemma handlers_keep_caches_coherent_witness :
  @Coherent Demo.platform
    (@svg Demo.platform
       (snd (@endStroke Demo.platform 1 Demo.rect0 (@mkEvent Demo.platform 10 0)
               Demo.penDown))).
Proof.
  destruct (@handlers_keep_caches_coherent Demo.platform 1 Demo.rect0
              (@mkEvent Demo.platform 10 0) Demo.penDown)
    as (_ & H & _); [|exact H].
  cbn. repeat split; try discriminate; intros p [= <-]; reflexivity.
Defined.

(** ** stroke.js: sessions *)

Section SessionsMore.
Context `{P : Platform}.

Lemma beginStroke_liveStrokes id rect event st :
  liveStrokes (beginStroke id rect event st)
  = <[id := mkLive (tool st) [eventPoint rect event]]> (liveStrokes st).
Proof. unfold beginStroke. now rewrite drawStrokeDiff_liveStrokes. Qed.

Lemma beginStroke_svg id rect event st : svg (beginStroke id rect event st) = svg st.
Proof. unfold beginStroke. now rewrite drawStrokeDiff_svg. Qed.

Lemma moveStroke_other_session id id' rect event st :
  id' <> id ->
  liveStrokes (snd (moveStroke id rect event st)) !! id' = liveStrokes st !! id'.
Proof.
  intros Hne. destruct (liveStrokes st !! id) as [[t stroke]|] eqn:Hl.
  - pose proof (moveStroke_liveStrokes id rect event st t stroke Hl) as H.
    destruct (fst (moveStroke id rect event st)).
    + rewrite H. now rewrite lookup_insert_ne by congruence.
    + destruct H as [-> _]. reflexivity.
  - now rewrite (moveStroke_idle id rect event st Hl).
Qed.

(** X13. Sessions are independent: [beginStroke], [moveStroke] and
    [endStroke] for one identifier, whether they return or throw, leave
    the session of every other identifier, with its tool and its points,
    as it was. *)
Theorem sessions_are_independent id id' rect event st :
  id' <> id ->
  liveStrokes (beginStroke id rect event st) !! id' = liveStrokes st !! id' /\
  liveStrokes (snd (moveStroke id rect event st)) !! id' = liveStrokes st !! id' /\
  liveStrokes (snd (endStroke id rect event st)) !! id' = liveStrokes st !! id'.
Proof.
  intros Hne.
  pose proof (moveStroke_other_session id id' rect event st Hne) as Hmove.
  split; [|split].
  - rewrite beginStroke_liveStrokes. now rewrite lookup_insert_ne by congruence.
  - exact Hmove.
  - unfold endStroke.
    destruct (moveStroke id rect event st) as [[[]|e] st1]; cbn [snd] in *;
      [|exact Hmove].
    destruct (liveStrokes st1 !! id) as [[t stroke]|]; cbn [snd]; [|exact Hmove].
    rewrite drawBack_liveStrokes. cbn [liveStrokes setLiveStrokes front].
    rewrite lookup_delete_ne by congruence.
    destruct t as [c d tol|d]; [|exact Hmove].
    now destruct (2 <=? length stroke)%nat.
Qed.

(** What [endStroke] does to a pen session that ends with two points or
    more. *)
Lemma endStroke_pen id rect event st c d tol stroke :
  liveStrokes st !! id = Some (mkLive (Pen c d tol) stroke) ->
  (2 <= length (stroke ++ [eventPoint rect event]))%nat ->
  endStroke id rect event st
  = (Ok tt,
     drawBack
       (setLiveStrokes
          (delete id (liveStrokes (snd (moveStroke id rect event st))))
          (front [ClearRect]
             (setSvg
                (addPathToDocument (svg st)
                   (createPathFromStroke (stroke ++ [eventPoint rect event])
                      (Pen c d tol)))
                (snd (moveStroke id rect event st)))))).
Proof.
  intros Hl Hlen. unfold endStroke.
  pose proof (moveStroke_liveStrokes id rect event st _ _ Hl) as Hm.
  pose proof (moveStroke_pen_svg id rect event st c d tol stroke Hl) as Hs.
  rewrite (moveStroke_pen _ _ _ _ _ _ _ _ Hl) in *. cbn [fst snd] in *.
  set (st1 := drawStrokeDiff _ _ _) in *.
  assert (Hlook : liveStrokes st1 !! id
                  = Some (mkLive (Pen c d tol) (stroke ++ [eventPoint rect event])))
    by (rewrite Hm; apply lookup_insert_eq).
  rewrite Hlook.
  destruct (Nat.leb_spec 2 (length (stroke ++ [eventPoint rect event]))); [|lia].
  cbn [finalizePenStroke fst]. rewrite Hs. reflexivity.
Qed.

(** X14. A press followed by a release draws one stroke of exactly the
    two points, with the tool that was selected at the press: a session
    left over under the same identifier is discarded without being drawn,
    and a tool selected in between has no influence. *)
Theorem press_release_draws_two_point_stroke id rect down up newTool st c d tol :
  tool st = Pen c d tol ->
  let pathNode :=
    createPathFromStroke [eventPoint rect down; eventPoint rect up] (Pen c d tol) in
  exists st',
    endStroke id rect up (setTool newTool (beginStroke id rect down st)) = (Ok tt, st') /\
    children (svg st') = children (drawn (svg st)) ++ [Elem pathNode] /\
    liveStrokes st' = delete id (liveStrokes st).
Proof.
  intros Ht. cbn zeta.
  set (st1 := setTool newTool (beginStroke id rect down st)).
  assert (Hl : liveStrokes st1 !! id
               = Some (mkLive (Pen c d tol) [eventPoint rect down])).
  { unfold st1. cbn [liveStrokes setTool].
    rewrite beginStroke_liveStrokes, Ht. apply lookup_insert_eq. }
  assert (Hs : svg st1 = svg st)
    by (unfold st1; cbn [svg setTool]; apply beginStroke_svg).
  rewrite (endStroke_pen id rect up st1 c d tol _ Hl) by (cbn; lia).
  eexists. split; [reflexivity|]. split.
  - rewrite drawBack_svg. cbn [svg setSvg setLiveStrokes front app].
    rewrite Hs, !drawn_children. unfold addPathToDocument.
    destruct (svg st) as [t0 a0 n0 r0 cs0]. cbn [children setChildren].
    rewrite drawChildren_app. reflexivity.
  - rewrite drawBack_liveStrokes. cbn [liveStrokes setLiveStrokes front setSvg].
    pose proof (moveStroke_liveStrokes id rect up st1 _ _ Hl) as Hm.
    rewrite (moveStroke_pen _ _ _ _ _ _ _ _ Hl) in *. cbn [fst snd] in *.
    rewrite Hm, delete_insert_eq. unfold st1. cbn [liveStrokes setTool].
    rewrite beginStroke_liveStrokes. apply delete_insert_eq.
Qed.

(** X15. One step of the eraser on a painted document.  Whether the
    handler returns or throws, the tree is the former one with Path
    elements crossed by the segment from the last recorded point to the
    new one left out, at any depth, every other node staying in place.
    When it returns, all of them are gone: on every element left below
    the root the test returns and comes out negative; and the session has
    recorded the new point.  When it throws, the session is as it was. *)
Theorem eraser_step_removes_only_crossed_paths
    id rect event st d (stroke : list Point) (p : Point) :
  liveStrokes st !! id = Some (mkLive (Eraser d) stroke) ->
  stroke !! (length stroke - 1)%nat = Some p ->
  painted (svg st) = true ->
  Pruned (ShapeInfo_line p (eventPoint rect event))
    (Elem (svg st)) (Elem (svg (snd (moveStroke id rect event st)))) /\
  match fst (moveStroke id rect event st) with
  | Ok _ =>
      forallb (noHitNode (ShapeInfo_line p (eventPoint rect event)))
        (children (svg (snd (moveStroke id rect event st)))) = true /\
      liveStrokes (snd (moveStroke id rect event st)) !! id
      = Some (mkLive (Eraser d) (stroke ++ [eventPoint rect event]))
  | Throw _ => liveStrokes (snd (moveStroke id rect event st)) = liveStrokes st
  end.
Proof.
  intros Hl Hlast Hp.
  destruct (moveStroke_eraser_step id rect event st d stroke p Hl Hlast Hp)
    as [Hpr Hno].
  split; [exact Hpr|].
  pose proof (moveStroke_liveStrokes id rect event st _ _ Hl) as Hm.
  destruct (fst (moveStroke id rect event st)) as [[]|e].
  - split; [now apply Hno|]. rewrite Hm. apply lookup_insert_eq.
  - now destruct Hm.
Qed.

End SessionsMore.

Lemma sessions_are_independent_witness :
  @liveStrokes Demo.platform
    (snd (@endStroke Demo.platform 1 Demo.rect0 (@mkEvent Demo.platform 10 0)
            (@beginStroke Demo.platform 2 Demo.rect0 (@mkEvent Demo.platform 3 4)
               Demo.penDown))) !! 2
  = Some (@mkLive Demo.platform Demo.penTool [(3, 4)]).
Proof.
  destruct (@sessions_are_independent Demo.platform 1 2 Demo.rect0
              (@mkEvent Demo.platform 10 0)
              (@beginStroke Demo.platform 2 Demo.rect0 (@mkEvent Demo.platform 3 4)
                 Demo.penDown)) as (_ & _ & H);
    [lia | rewrite H; reflexivity].
Defined.

Lemma press_release_draws_two_point_stroke_witness :
  exists st',
    @endStroke Demo.platform 1 Demo.rect0 (@mkEvent Demo.platform 10 0)
      (@setTool Demo.platform Demo.eraserTool
         (@beginStroke Demo.platform 1 Demo.rect0 (@mkEvent Demo.platform 0 0) Demo.idle))
    = (Ok tt, st') /\
    length (@children Demo.platform (@svg Demo.platform st')) = 3%nat.
Proof.
  destruct (@press_release_draws_two_point_stroke Demo.platform 1 Demo.rect0
              (@mkEvent Demo.platform 0 0) (@mkEvent Demo.platform 10 0)
              Demo.eraserTool Demo.idle "#000" 2 1 eq_refl)
    as (st' & Heq & Hc & _).
  exists st'. split; [exact Heq|]. rewrite Hc. reflexivity.
Defined.

Lemma eraser_step_removes_only_crossed_paths_witness :
  @Pruned Demo.platform (Demo.LineShape (5, -5) (5, 5))
    (Elem Demo.doc0)
    (Elem (@svg Demo.platform
             (snd (@moveStroke Demo.platform 2 Demo.rect0 (@mkEvent Demo.platform 5 5)
                     Demo.eraserDown)))) /\
  forallb (@noHitNode Demo.platform (Demo.LineShape (5, -5) (5, 5)))
    (@children Demo.platform
       (@svg Demo.platform
          (snd (@moveStroke Demo.platform 2 Demo.rect0 (@mkEvent Demo.platform 5 5)
                  Demo.eraserDown)))) = true.
Proof.
  destruct (@eraser_step_removes_only_crossed_paths Demo.platform 2 Demo.rect0
              (@mkEvent Demo.platform 5 5) Demo.eraserDown 10 [(5, -5)] (5, -5)
              eq_refl eq_refl eq_refl) as [Hpr Hm].
  split; [exact Hpr|].
  assert (Hok : fst (@moveStroke Demo.platform 2 Demo.rect0 (@mkEvent Demo.platform 5 5)
                       Demo.eraserDown) = Ok tt) by reflexivity.
  rewrite Hok in Hm. exact (proj1 Hm).
Defined.

(** ** notesvg.js and ui.js: serialization *)

Section SerializationMore.
Context `{P : Platform}.

Lemma toSvgElement_eq e os ob :
  toSvgElement e os ob
  = match svgProps e os ob with
    | Throw err => Throw err
    | Ok props =>
        match toSvgChildren os ob (children e)
                ("<" +:+ tagName e +:+ attrString props +:+ ">") with
        | Ok svg => Ok (svg +:+ "</" +:+ tagName e +:+ ">")
        | Throw err => Throw err
        end
    end.
Proof. destruct e. reflexivity. Qed.

Lemma transformElement_children e :
  children (transformElement e) = map transform (children e).
Proof.
  destruct e as [t a n r cs]. cbn [transformElement children].
  now destruct (String.eqb t "svg"), (String.eqb t "notesvg"), (String.eqb t "path").
Qed.

Lemma transformElement_tagName e : tagName (transformElement e) = tagName e.
Proof.
  destruct e as [t a n r cs]. cbn [transformElement tagName].
  now destruct (String.eqb t "svg"), (String.eqb t "notesvg"), (String.eqb t "path").
Qed.

Lemma annotated_eq e :
  annotated e
  = (if String.eqb (tagName e) "svg" || String.eqb (tagName e) "notesvg"
        || String.eqb (tagName e) "path"
     then match noteSvgAttributes e with Some _ => true | None => false end
     else true)
    && forallb annotatedNode (children e).
Proof. destruct e. reflexivity. Qed.

(** [transform] leaves note attributes on every element that [toSvg]
    reads them from. *)
Lemma annotated_transform e : annotated (transformElement e) = true.
Proof.
  induction e as [t a n r cs IH] using Element_ind'.
  rewrite annotated_eq, transformElement_children, transformElement_tagName.
  cbn [tagName children]. apply andb_true_iff. split.
  - cbn [transformElement].
    destruct (String.eqb t "svg"), (String.eqb t "notesvg"), (String.eqb t "path");
      reflexivity.
  - induction IH as [|c cs Hc _ IHcs]; [reflexivity|].
    cbn [map forallb]. rewrite IHcs, andb_true_r.
    destruct c as [s|c]; [reflexivity | exact Hc].
Qed.

Lemma svgProps_annotated e os ob :
  annotated e = true -> exists props, svgProps e os ob = Ok props.
Proof.
  rewrite annotated_eq. intros [Hn _]%andb_true_iff. unfold svgProps.
  destruct (String.eqb (tagName e) "svg"); cbn [orb] in Hn.
  { destruct (noteSvgAttributes e); [eauto | discriminate]. }
  destruct (String.eqb (tagName e) "notesvg"); cbn [orb] in Hn.
  { destruct (noteSvgAttributes e); [eauto | discriminate]. }
  destruct (String.eqb (tagName e) "path"); cbn [orb] in Hn.
  { destruct (noteSvgAttributes e); [eauto | discriminate]. }
  eauto.
Qed.

Lemma toSvgElement_annotated e os ob :
  annotated e = true -> exists s, toSvgElement e os ob = Ok s.
Proof.
  induction e as [t a n r cs IH] using Element_ind'. intros Ha.
  rewrite toSvgElement_eq.
  destruct (svgProps_annotated _ os ob Ha) as [props ->].
  rewrite annotated_eq in Ha. apply andb_true_iff in Ha as [_ Hcs].
  cbn [children tagName] in *.
  enough (Hc : forall svg, exists s, toSvgChildren os ob cs svg = Ok s).
  { destruct (Hc ("<" +:+ t +:+ attrString props +:+ ">")) as [s ->]. eauto. }
  induction IH as [|c cs Hc _ IHcs]; intros svg; [now exists svg|].
  cbn [forallb] in Hcs. apply andb_true_iff in Hcs as [Hc0 Hcs].
  destruct c as [s|c]; cbn [toSvgChildren].
  - now apply IHcs.
  - destruct (Hc Hc0) as [s ->]. now apply IHcs.
Qed.

(** X16. A tree that has gone through [transform] always serializes:
    [toSvg] finds the note attributes it reads on every [svg], [notesvg]
    and [path] element and returns a string, whatever the override
    colours are. *)
Theorem toSvg_after_transform_returns (node : Node) (os ob : option string) :
  exists s, toSvg (transform node) os ob = Ok s.
Proof.
  destruct node as [s|e]; [now exists s|].
  cbn [transform toSvg]. apply toSvgElement_annotated, annotated_transform.
Qed.

(** A [toSvg] without note attributes on the root throws. *)
Example toSvg_unannotated_root_throws :
  toSvgElement (mkElement "svg" [] None None []) None None
  = Throw (TypeError "Cannot read properties of undefined").
Proof. reflexivity. Qed.

Lemma toSvgChildren_prefix os ob cs :
  forall svg s, toSvgChildren os ob cs svg = Ok s -> exists m, s = svg +:+ m.
Proof.
  induction cs as [|[t|c] cs IH]; intros svg s; cbn [toSvgChildren].
  - intros [= <-]. exists EmptyString. now rewrite UtilsFacts.append_nil_r.
  - intros H. destruct (IH _ _ H) as [m ->]. exists (t +:+ m).
    now rewrite UtilsFacts.append_assoc.
  - destruct (toSvgElement c os ob) as [sc|]; [|discriminate].
    intros H. destruct (IH _ _ H) as [m ->]. exists (sc +:+ m).
    now rewrite UtilsFacts.append_assoc.
Qed.

(** The string of an element is its open tag, something, its close tag. *)
Lemma toSvgElement_wrapped e os ob s :
  toSvgElement e os ob = Ok s ->
  exists mid, s = "<" +:+ tagName e +:+ mid +:+ "</" +:+ tagName e +:+ ">".
Proof.
  rewrite toSvgElement_eq.
  destruct (svgProps e os ob) as [props|]; [|discriminate].
  destruct (toSvgChildren os ob (children e) _) as [svg|] eqn:Hc; [|discriminate].
  intros [= <-]. destruct (toSvgChildren_prefix _ _ _ _ _ Hc) as [m ->].
  exists (attrString props +:+ ">" +:+ m).
  flatten_append. reflexivity.
Qed.

Lemma trimEnd_closed (y : string) (c : ascii) :
  Utils.isWhiteSpace c = false ->
  Utils.trimEnd (y +:+ String c EmptyString) = y +:+ String c EmptyString.
Proof.
  intros Hc. induction y as [|a y IH]; simpl.
  - now rewrite Hc.
  - simpl in IH. rewrite IH. now destruct (y +:+ String c EmptyString) eqn:Hy;
      [destruct y; discriminate Hy|].
Qed.

Lemma isValidSvg_wrapped (mid : string) :
  Utils.isValidSvg ("<" +:+ "svg" +:+ mid +:+ "</" +:+ "svg" +:+ ">") = true.
Proof.
  apply UtilsFacts.isValidSvg_spec.
  assert (Ht : Utils.trim ("<" +:+ "svg" +:+ mid +:+ "</" +:+ "svg" +:+ ">")
               = "<" +:+ "svg" +:+ mid +:+ "</" +:+ "svg" +:+ ">").
  { unfold Utils.trim.
    change (Utils.trimStart ("<" +:+ "svg" +:+ mid +:+ "</" +:+ "svg" +:+ ">"))
      with ("<" +:+ "svg" +:+ mid +:+ "</" +:+ "svg" +:+ ">").
    replace ("<" +:+ "svg" +:+ mid +:+ "</" +:+ "svg" +:+ ">")
      with (("<svg" +:+ mid +:+ "</svg") +:+ String ">" EmptyString)
      by (flatten_append; reflexivity).
    now apply trimEnd_closed. }
  rewrite Ht. split.
  - exists (mid +:+ "</svg>"). reflexivity.
  - exists ("<svg" +:+ mid). flatten_append. reflexivity.
Qed.

(** X17. What is saved can be loaded: the string [toSvg] returns for a
    document with an [svg] root passes [isValidSvg]; so after
    [saveToLocalStorage] the stored item is that string, and
    [loadFromLocalStorage] hands it to the deserializer instead of
    falling back to the default document on the validity check. *)
Theorem saved_document_is_loadable
    (origin : string) (doc : Element) (s : string)
    (deserialize : string -> Outcome Node) (createDefault : Node)
    (storage : option string) :
  tagName doc = "svg" ->
  toSvgElement doc None None = Ok s ->
  Utils.isValidSvg s = true /\
  saveToLocalStorage doc (serializeDocument origin) storage = (doc, Some s) /\
  loadFromLocalStorage deserialize createDefault
    (snd (saveToLocalStorage doc (serializeDocument origin) storage))
  = match deserialize s with
    | Ok document => document
    | Throw _ => createDefault
    end.
Proof.
  intros Ht Hs.
  assert (Hv : Utils.isValidSvg s = true).
  { destruct (toSvgElement_wrapped _ _ _ _ Hs) as [mid ->]. rewrite Ht.
    apply isValidSvg_wrapped. }
  assert (Hsave : saveToLocalStorage doc (serializeDocument origin) storage
                  = (doc, Some s)).
  { unfold saveToLocalStorage, serializeDocument. now rewrite Hs. }
  split; [exact Hv|]. split; [exact Hsave|].
  rewrite Hsave. cbn [snd loadFromLocalStorage]. rewrite Hv.
  destruct (toSvgElement_wrapped _ _ _ _ Hs) as [mid ->]. reflexivity.
Qed.

Lemma isLink_LINK_ELEMENT origin : isLink origin (Elem (LINK_ELEMENT origin)) = true.
Proof. cbn. apply String.eqb_refl. Qed.

Lemma filter_existsb_false {A} (f : A -> bool) (l : list A) :
  existsb f l = false -> List.filter f l = [].
Proof.
  induction l as [|x l IH]; [reflexivity|]. cbn [existsb List.filter].
  intros [Hx Hl]%orb_false_iff. rewrite Hx. now apply IH.
Qed.

Lemma filter_existsb_true {A} (f : A -> bool) (l : list A) :
  existsb f l = true -> (1 <= length (List.filter f l))%nat.
Proof.
  induction l as [|x l IH]; [discriminate|]. cbn [existsb List.filter].
  destruct (f x); cbn [orb length]; [lia | exact IH].
Qed.

(** X18. [serializeDocument] with [addLink] adds the edit link once: when
    a link to the origin is among the children, wherever it stands, the
    document is left as it is; when there is none, the link is appended
    as the last child; so the number of such links afterwards is the
    number before, or one when there was none; a second call changes
    nothing; and without [addLink] the document is not touched. *)
Theorem serializeDocument_adds_link_once (origin : string) (doc : Element) :
  let doc1 := fst (serializeDocument origin doc true) in
  (existsb (isLink origin) (children doc) = true -> doc1 = doc) /\
  (existsb (isLink origin) (children doc) = false ->
   doc1 = setChildren (children doc ++ [Elem (LINK_ELEMENT origin)]) doc) /\
  length (List.filter (isLink origin) (children doc1))
  = Nat.max 1 (length (List.filter (isLink origin) (children doc))) /\
  fst (serializeDocument origin doc1 true) = doc1 /\
  fst (serializeDocument origin doc false) = doc.
Proof.
  cbn zeta. unfold serializeDocument. cbn [fst].
  destruct (existsb (isLink origin) (children doc)) eqn:Hl.
  - rewrite Hl. repeat split; auto; [discriminate|].
    pose proof (filter_existsb_true _ _ Hl). lia.
  - assert (Hc : children (setChildren (children doc ++ [Elem (LINK_ELEMENT origin)]) doc)
                 = children doc ++ [Elem (LINK_ELEMENT origin)])
      by now destruct doc.
    assert (Hl1 : existsb (isLink origin)
                    (children (setChildren
                                 (children doc ++ [Elem (LINK_ELEMENT origin)]) doc))
                  = true).
    { rewrite Hc, existsb_app. cbn [existsb]. rewrite isLink_LINK_ELEMENT.
      now rewrite orb_true_r. }
    rewrite Hl1. repeat split; auto; [discriminate|].
    rewrite Hc, List.filter_app, length_app, (filter_existsb_false _ _ Hl).
    cbn [List.filter]. now rewrite isLink_LINK_ELEMENT.
Qed.

End SerializationMore.

Lemma saved_document_is_loadable_witness :
  exists s,
    @toSvgElement Demo.platform (@createDefaultDocument Demo.platform) None None = Ok s /\
    Utils.isValidSvg s = true.
Proof.
  destruct (@toSvgElement_annotated Demo.platform (@createDefaultDocument Demo.platform)
              None None eq_refl) as [s Hs].
  exists s. split; [exact Hs|].
  exact (proj1 (@saved_document_is_loadable Demo.platform "http://localhost"
                  (@createDefaultDocument Demo.platform) s
                  (fun _ => Throw (JsError "unused")) (Text "none") None
                  eq_refl Hs)).
Defined.

(** ** notesvg.js: attributes through [transform] and [toSvg] *)

Section RoundTripMore.
Context `{P : Platform}.

Lemma getAttr_deleteAttr_same k a : getAttr k (deleteAttr k a) = None.
Proof.
  induction a as [|[k' v] a IH]; [reflexivity|]. cbn [deleteAttr].
  destruct (String.eqb k' k) eqn:Hk; [exact IH|]. cbn [getAttr]. now rewrite Hk.
Qed.

Lemma getAttr_deleteAttr_other k k' a :
  getAttr k a = None -> getAttr k (deleteAttr k' a) = None.
Proof.
  induction a as [|[k0 v] a IH]; [reflexivity|]. cbn [getAttr deleteAttr].
  destruct (String.eqb k0 k) eqn:Hk; [discriminate|]. intros H.
  destruct (String.eqb k0 k'); [now apply IH|]. cbn [getAttr]. rewrite Hk. now apply IH.
Qed.

(** Setting a key that is absent appends it. *)
Lemma setProp_absent k v a :
  getAttr k a = None -> setProp k v (asProps a) = asProps a ++ [(k, v)].
Proof.
  induction a as [|[k' v'] a IH]; [reflexivity|]. cbn [getAttr asProps map setProp fst snd].
  destruct (String.eqb k' k); [discriminate|]. intros H.
  cbn [app]. f_equal. now apply IH.
Qed.

Lemma setProp_absent_app k v a tail :
  getAttr k a = None ->
  (forall v', In (k, v') tail -> False) ->
  setProp k v (asProps a ++ tail) = asProps a ++ setProp k v tail.
Proof.
  induction a as [|[k' v'] a IH]; [reflexivity|]. cbn [getAttr asProps map app setProp fst snd].
  destruct (String.eqb k' k); [discriminate|]. intros H Ht.
  f_equal. now apply IH.
Qed.


(** X19. The size of a document survives reading and writing: for an
    [svg] element whose [width] and [height] attributes are integers
    printed in decimal, [transform] followed by the attribute merge of
    [toSvg] yields the other attributes, in their order, followed by
    [width] and [height] holding the same integers. *)
Theorem svg_size_survives_round_trip a n r cs (w h : Z) :
  getAttr "width" a = Some (Utils.showInt w) ->
  getAttr "height" a = Some (Utils.showInt h) ->
  svgProps (transformElement (mkElement "svg" a n r cs)) None None
  = Ok (asProps (deleteAttr "height" (deleteAttr "width" a))
        ++ [("width", VNum (num_of_Z w)); ("height", VNum (num_of_Z h))]).
Proof.
  intros Hw Hh. cbn [transformElement String.eqb Ascii.eqb Bool.eqb].
  unfold svgProps. cbn [tagName attributes noteSvgAttributes String.eqb Ascii.eqb Bool.eqb].
  rewrite Hw, Hh. cbn [Utils.parseIntArg]. rewrite !UtilsFacts.parseInt_showInt.
  cbn [default truthyStr andb]. f_equal.
  rewrite lookup_insert_eq, lookup_insert_ne by discriminate.
  rewrite lookup_singleton_eq. cbn [default].
  rewrite setProp_absent
    by (apply getAttr_deleteAttr_other, getAttr_deleteAttr_same).
  rewrite setProp_absent_app.
  - reflexivity.
  - apply getAttr_deleteAttr_same.
  - intros v' [[=]|[]].
Qed.

(** X20. The colour of a stroke survives reading and writing: for a
    [path] element with a non-empty [stroke] attribute, [transform]
    followed by the attribute merge of [toSvg] yields the other
    attributes, in their order, followed by [stroke] with the same colour
    and by [stroke-width]. *)
Theorem path_stroke_survives_round_trip a n r cs (s : string) :
  getAttr "stroke" a = Some s ->
  s <> EmptyString ->
  svgProps (transformElement (mkElement "path" a n r cs)) None None
  = Ok (asProps (deleteAttr "stroke-width" (deleteAttr "stroke" a))
        ++ [("stroke", VStr s);
            ("stroke-width",
             orElse (VNum (parseFloatArg (getAttr "stroke-width" a)))
                    (VNum (num_of_Z 1)))]).
Proof.
  intros Hs Hne. cbn [transformElement String.eqb Ascii.eqb Bool.eqb].
  unfold svgProps. cbn [tagName attributes noteSvgAttributes String.eqb Ascii.eqb Bool.eqb].
  cbn [truthyStr]. f_equal.
  rewrite lookup_insert_eq, lookup_insert_ne by discriminate.
  rewrite lookup_singleton_eq. cbn [default].
  assert (Hcol : attrOr "stroke" a (VStr "#000") = VStr s).
  { unfold attrOr, orElse. rewrite Hs. cbn [from_option truthy].
    destruct (String.eqb_spec s EmptyString); [contradiction | reflexivity]. }
  rewrite Hcol.
  rewrite setProp_absent
    by (apply getAttr_deleteAttr_other, getAttr_deleteAttr_same).
  rewrite setProp_absent_app.
  - reflexivity.
  - apply getAttr_deleteAttr_same.
  - intros v' [[=]|[]].
Qed.

End RoundTripMore.

Lemma svg_size_survives_round_trip_witness :
  @svgProps Demo.platform
    (@transformElement Demo.platform
       (@mkElement Demo.platform "svg"
          [("width", "500"); ("xmlns", "http://www.w3.org/2000/svg"); ("height", "-3")]
          None None []))
    None None
  = Ok [("xmlns", @VStr Demo.platform "http://www.w3.org/2000/svg");
        ("width", @VNum Demo.platform 500); ("height", @VNum Demo.platform (-3))].
Proof.
  exact (@svg_size_survives_round_trip Demo.platform
           [("width", "500"); ("xmlns", "http://www.w3.org/2000/svg"); ("height", "-3")]
           None None [] 500 (-3) eq_refl eq_refl).
Defined.

Lemma path_stroke_survives_round_trip_witness :
  @svgProps Demo.platform
    (@transformElement Demo.platform
       (@mkElement Demo.platform "path"
          [("d", "M 0 0 L 1 1"); ("stroke", "#abcdef"); ("fill", "none")]
          None None []))
    None None
  = Ok [("d", @VStr Demo.platform "M 0 0 L 1 1"); ("fill", @VStr Demo.platform "none");
        ("stroke", @VStr Demo.platform "#abcdef");
        ("stroke-width", @VNum Demo.platform 1)].
Proof.
  assert (Hne : "#abcdef" <> EmptyString) by discriminate.
  exact (@path_stroke_survives_round_trip Demo.platform
           [("d", "M 0 0 L 1 1"); ("stroke", "#abcdef"); ("fill", "none")]
           None None [] "#abcdef" eq_refl Hne).
Defined.

(** ** Editing keeps the document serializable *)

Section SerializableMore.
Context `{P : Platform}.

Lemma annotated_setRenderAttributes r e :
  annotated (setRenderAttributes r e) = annotated e.
Proof. now destruct e. Qed.

Lemma annotated_skeleton e : annotated (skeleton e) = annotated e.
Proof.
  induction e as [t a n r cs IH] using Element_ind'.
  rewrite skeleton_eq, !annotated_eq.
  cbn [tagName noteSvgAttributes children]. f_equal.
  induction IH as [|c cs Hc _ IHcs]; [reflexivity|].
  cbn [map forallb]. rewrite IHcs. f_equal.
  destruct c as [s|c]; [reflexivity | exact Hc].
Qed.

Lemma annotated_drawn e : annotated (drawn e) = annotated e.
Proof.
  now rewrite <- (annotated_skeleton (drawn e)), skeleton_drawn, annotated_skeleton.
Qed.

Lemma Pruned_annotated line :
  (forall n n', Pruned line n n' -> annotatedNode n = true -> annotatedNode n' = true) /\
  (forall cs cs', PrunedList line cs cs' ->
     forallb annotatedNode cs = true -> forallb annotatedNode cs' = true).
Proof.
  apply Pruned_mutind.
  - auto.
  - intros t a n r r' cs cs' _ IH _. cbn [annotatedNode].
    rewrite !annotated_eq. cbn [tagName noteSvgAttributes children].
    intros [Hhead Hcs]%andb_true_iff. now rewrite Hhead, (IH Hcs).
  - auto.
  - intros c c' cs cs' _ IHc _ IHcs. cbn [forallb].
    intros [Hc Hcs]%andb_true_iff. now rewrite (IHc Hc), (IHcs Hcs).
  - intros e cs cs' _ _ _ IH. cbn [forallb]. intros [_ Hcs]%andb_true_iff.
    now apply IH.
Qed.

Lemma annotated_filter line keep recurse e :
  annotated e = true ->
  forall removed,
    annotated (fst (fst (filterIntersectingElement line e removed keep recurse))) = true.
Proof.
  intros Ha removed.
  exact (proj1 (Pruned_annotated line) _ _
           (filterIntersectingElement_Pruned line keep recurse e removed) Ha).
Qed.

Lemma annotated_clear e :
  annotated e = true -> annotated (fst (clearPathsElement e [] true)) = true.
Proof.
  induction e as [t a n r cs IH] using Element_ind'. intros Ha.
  rewrite clearPathsElement_parts. cbn [fst].
  rewrite annotated_eq in *. cbn [tagName noteSvgAttributes children] in *.
  apply andb_true_iff in Ha as [Hhead Hcs].
  apply andb_true_iff. split; [exact Hhead|]. clear Hhead.
  induction IH as [|c cs Hc _ IHcs]; [reflexivity|].
  cbn [forallb] in Hcs. apply andb_true_iff in Hcs as [Hc0 Hcs].
  rewrite clearChildren_cons. destruct c as [s|c]; cbn [fst forallb].
  - now apply IHcs.
  - destruct (isPath c); cbn [fst forallb annotatedNode]; [now apply IHcs|].
    now rewrite (Hc Hc0), (IHcs Hcs).
Qed.

Lemma annotated_append doc e :
  annotated doc = true -> annotated e = true ->
  annotated (setChildren (children doc ++ [Elem e]) doc) = true.
Proof.
  destruct doc as [tg a n r cs]. intros Hd He.
  rewrite annotated_eq in Hd. rewrite annotated_eq.
  cbn [setChildren tagName noteSvgAttributes children] in *.
  apply andb_true_iff in Hd as [Hhead Hcs].
  apply andb_true_iff. split; [exact Hhead|].
  rewrite forallb_app, Hcs. cbn [forallb annotatedNode]. now rewrite He.
Qed.

Lemma annotated_createPath stroke t : annotated (createPathFromStroke stroke t) = true.
Proof. reflexivity. Qed.

Lemma annotated_LINK_ELEMENT origin : annotated (LINK_ELEMENT origin) = true.
Proof. reflexivity. Qed.

Lemma serializeDocument_annotated origin doc addLink :
  annotated doc = true ->
  exists s, snd (serializeDocument origin doc addLink) = Ok s.
Proof.
  intros Ha. unfold serializeDocument. cbn [snd].
  apply toSvgElement_annotated.
  destruct addLink; [|exact Ha].
  destruct (existsb (isLink origin) (children doc)); [exact Ha|].
  apply annotated_append; [exact Ha | apply annotated_LINK_ELEMENT].
Qed.

(** X21. Editing never makes the document unserializable: on a document
    whose [svg], [notesvg] and [path] elements carry note attributes (as
    after [transform]), the document left by [moveStroke], by
    [endStroke], whether they return or throw, and by "erase all" is
    serialized by [serializeDocument] to a string, with or without the
    edit link, and never to an error. *)
Theorem handlers_keep_document_serializable
    id rect event confirmed origin addLink st :
  annotated (svg st) = true ->
  (exists s,
      snd (serializeDocument origin (svg (snd (moveStroke id rect event st))) addLink)
      = Ok s) /\
  (exists s,
      snd (serializeDocument origin (svg (snd (endStroke id rect event st))) addLink)
      = Ok s) /\
  (exists s, snd (serializeDocument origin (svg (eraseAllClick confirmed st)) addLink)
             = Ok s).
Proof.
  intros Ha.
  assert (Hmove : annotated (svg (snd (moveStroke id rect event st))) = true).
  { destruct (moveStroke_svg id rect event st) as [H|[line [H|H]]]; rewrite H;
      rewrite ?annotated_drawn; auto using annotated_filter. }
  split; [now apply serializeDocument_annotated|]. split.
  - apply serializeDocument_annotated.
    destruct (endStroke_svg id rect event st) as [H|[H|(t & stroke & H)]];
      rewrite H; rewrite ?annotated_drawn; auto.
    unfold addPathToDocument. apply annotated_append; [exact Hmove|].
    apply annotated_createPath.
  - apply serializeDocument_annotated.
    unfold eraseAllClick. destruct confirmed; [|exact Ha].
    rewrite drawBack_svg, annotated_drawn. cbn [svg setSvg].
    now apply annotated_clear.
Qed.

End SerializableMore.

Lemma handlers_keep_document_serializable_witness :
  exists s,
    snd (@serializeDocument Demo.platform "http://localhost"
           (@svg Demo.platform
              (snd (@endStroke Demo.platform 1 Demo.rect0 (@mkEvent Demo.platform 10 0)
                      Demo.penDown)))
           true) = Ok s.
Proof.
  destruct (@handlers_keep_document_serializable Demo.platform 1 Demo.rect0
              (@mkEvent Demo.platform 10 0) true "http://localhost" true Demo.penDown)
    as (_ & H & _); [reflexivity | exact H].
Defined.

(** ** ui.js: a resize as the saved file shows it *)

Section ResizeMore.
Context `{P : Platform}.

(** On an [svg] root with note attributes [updateDocument] returns and
    redraws. *)
Lemma updateDocument_svg_root st m :
  tagName (svg st) = "svg" -> noteSvgAttributes (svg st) = Some m ->
  exists st',
    updateDocument st = (Ok tt, st') /\ svg st' = drawn (svg st) /\
    liveStrokes st' = liveStrokes st /\ tool st' = tool st.
Proof.
  intros Ht Hn. unfold updateDocument, resizeCanvas. rewrite Hn, Ht.
  cbn [String.eqb Ascii.eqb Bool.eqb negb]. eexists. split; [reflexivity|].
  rewrite drawBack_svg, drawBack_liveStrokes, drawBack_tool. now repeat split.
Qed.

Lemma svgProps_drawn e os ob : svgProps (drawn e) os ob = svgProps e os ob.
Proof.
  unfold svgProps.
  now rewrite drawn_tagName, drawn_attributes, drawn_noteSvgAttributes.
Qed.

(** X22. A size typed into the resize prompt is the size the saved file
    states: on an [svg] root with note attributes, the answer [w] [x] [h]
    (two integers printed in decimal) makes the handler return, and the
    attributes that [toSvg] then writes for the root are the former ones
    with [width] set to [w] and [height] set to [h]. *)
Theorem typed_size_is_serialized (w h : Z) (st : StrokeRenderer) m :
  tagName (svg st) = "svg" ->
  noteSvgAttributes (svg st) = Some m ->
  exists st',
    resizeClick (Some (Utils.showInt w +:+ "x" +:+ Utils.showInt h)) st = (Ok tt, st') /\
    svgProps (svg st') None None
    = Ok (setProp "height" (VNum (num_of_Z h))
            (setProp "width" (VNum (num_of_Z w)) (asProps (attributes (svg st))))).
Proof.
  intros Ht Hn. unfold resizeClick. rewrite Hn. cbn [from_option id].
  rewrite UtilsFacts.parseSizeString_showInt.
  set (st1 := setSvg _ st).
  assert (Ht1 : tagName (svg st1) = "svg")
    by (unfold st1; cbn [svg setSvg]; now destruct (svg st)).
  assert (Hn1 : noteSvgAttributes (svg st1) = Some (setSize (Utils.mkSize w h) m))
    by (unfold st1; cbn [svg setSvg]; now destruct (svg st)).
  destruct (updateDocument_svg_root st1 _ Ht1 Hn1) as (st' & -> & Hs & _).
  exists st'. split; [reflexivity|].
  rewrite Hs, svgProps_drawn. unfold svgProps. rewrite Ht1, Hn1.
  cbn [String.eqb Ascii.eqb Bool.eqb truthyStr andb].
  rewrite setSize_width, setSize_height. cbn [from_option id Utils.width Utils.height].
  unfold st1. cbn [svg setSvg]. now destruct (svg st).
Qed.

End ResizeMore.

Lemma typed_size_is_serialized_witness :
  exists st',
    @resizeClick Demo.platform (Some "640x-2") Demo.idle = (Ok tt, st') /\
    exists props, @svgProps Demo.platform (@svg Demo.platform st') None None = Ok props.
Proof.
  destruct (@typed_size_is_serialized Demo.platform 640 (-2) Demo.idle
              (default ∅ (@noteSvgAttributes Demo.platform (@svg Demo.platform Demo.idle))))
    as (st' & Hr & Hp); [reflexivity | reflexivity |].
  exists st'. split; [exact Hr | eexists; exact Hp].
Defined.

(** ** stroke.js: a drag with the pen *)

Section DragMore.
Context `{P : Platform}.

(** One [moveStroke] of a pen session draws the segment from the last
    recorded point to the new one on the front canvas. *)
Lemma moveStroke_pen_step id rect event st c d tol (pts : list Point) (p : Point) :
  liveStrokes st !! id = Some (mkLive (Pen c d tol) (pts ++ [p])) ->
  moveStroke id rect event st
  = (Ok tt,
     front [Line p (eventPoint rect event) (VStr c) (VNum d)]
       (setLiveStrokes
          (<[id := mkLive (Pen c d tol) ((pts ++ [p]) ++ [eventPoint rect event])]>
             (liveStrokes st)) st)).
Proof.
  intros Hl. rewrite (moveStroke_pen _ _ _ _ _ _ _ _ Hl). f_equal.
  unfold drawStrokeDiff.
  assert (Hlen : length ((pts ++ [p]) ++ [eventPoint rect event]) = S (S (length pts)))
    by (rewrite !length_app; cbn [length]; lia).
  rewrite Hlen. cbn [Nat.ltb Nat.leb].
  replace (S (S (length pts)) - 2)%nat with (length pts) by lia.
  replace (S (S (length pts)) - 1)%nat with (length (pts ++ [p]))
    by (rewrite length_app; cbn [length]; lia).
  rewrite <- app_assoc at 1. rewrite list_lookup_middle by reflexivity.
  change ([p] ++ [eventPoint rect event]) with (p :: [eventPoint rect event]).
  rewrite list_lookup_middle by reflexivity. reflexivity.
Qed.

Lemma moveAll_cons id rect event events st :
  moveAll id rect (event :: events) st
  = moveAll id rect events (snd (moveStroke id rect event st)).
Proof. reflexivity. Qed.

Lemma moveAll_pen id rect events :
  forall st c d tol (pts : list Point) (p : Point),
    liveStrokes st !! id = Some (mkLive (Pen c d tol) (pts ++ [p])) ->
    let st' := moveAll id rect events st in
    liveStrokes st'
    = <[id := mkLive (Pen c d tol) ((pts ++ [p]) ++ map (eventPoint rect) events)]>
        (liveStrokes st) /\
    ctxFront st'
    = ctxFront st ++ segments (Pen c d tol) p (map (eventPoint rect) events) /\
    ctxBack st' = ctxBack st /\ svg st' = svg st /\ tool st' = tool st.
Proof.
  induction events as [|ev events IH]; intros st c d tol pts p Hl; cbn zeta.
  - cbn [moveAll fold_left map segments]. rewrite !app_nil_r.
    rewrite insert_id by exact Hl. now repeat split.
  - rewrite moveAll_cons.
    rewrite (moveStroke_pen_step id rect ev st c d tol pts p Hl). cbn [snd].
    set (st1 := front _ _).
    assert (Hl1 : liveStrokes st1 !! id
                  = Some (mkLive (Pen c d tol) ((pts ++ [p]) ++ [eventPoint rect ev])))
      by (unfold st1; cbn [liveStrokes front setLiveStrokes]; apply lookup_insert_eq).
    destruct (IH st1 c d tol (pts ++ [p]) (eventPoint rect ev) Hl1)
      as (Hls & Hf & Hb & Hs & Ht).
    rewrite Hls, Hf, Hb, Hs, Ht. unfold st1.
    cbn [liveStrokes ctxFront ctxBack svg tool front setLiveStrokes map segments
         toolColor toolDiameter].
    rewrite insert_insert_eq, <- !app_assoc. now repeat split.
Qed.

(** X23. A drag with the pen draws the polyline of the pointer: after
    [beginStroke] and any sequence of [moveStroke] events of the same
    pointer, the session holds the point of every event in order, the
    front canvas has gained exactly the segments that join consecutive
    points, in the colour and width of the pen, and neither the back
    canvas nor the document has changed. *)
Theorem pen_drag_draws_polyline id rect down events st c d tol :
  tool st = Pen c d tol ->
  let pts := map (eventPoint rect) (down :: events) in
  let st' := moveAll id rect events (beginStroke id rect down st) in
  liveStrokes st' !! id = Some (mkLive (Pen c d tol) pts) /\
  ctxFront st'
  = ctxFront st ++ segments (Pen c d tol) (eventPoint rect down)
                     (map (eventPoint rect) events) /\
  ctxBack st' = ctxBack st /\
  svg st' = svg st.
Proof.
  intros Ht. cbn zeta.
  set (st0 := beginStroke id rect down st).
  assert (Hb : st0 = setLiveStrokes
                       (<[id := mkLive (Pen c d tol) [eventPoint rect down]]>
                          (liveStrokes st)) st)
    by (unfold st0, beginStroke; rewrite Ht; reflexivity).
  assert (Hl : liveStrokes st0 !! id
               = Some (mkLive (Pen c d tol) ([] ++ [eventPoint rect down])))
    by (rewrite Hb; cbn [liveStrokes setLiveStrokes app]; apply lookup_insert_eq).
  destruct (moveAll_pen id rect events st0 c d tol [] _ Hl) as (Hls & Hf & Hbk & Hs & _).
  rewrite Hls, Hf, Hbk, Hs, Hb. cbn [ctxFront ctxBack svg setLiveStrokes app map].
  rewrite lookup_insert_eq. now repeat split.
Qed.

End DragMore.

Lemma pen_drag_draws_polyline_witness :
  @ctxFront Demo.platform
    (@moveAll Demo.platform 1 Demo.rect0
       [@mkEvent Demo.platform 3 4; @mkEvent Demo.platform 6 8]
       (@beginStroke Demo.platform 1 Demo.rect0 (@mkEvent Demo.platform 0 0) Demo.idle))
  = @ctxFront Demo.platform Demo.idle
    ++ [@Line Demo.platform (0, 0) (3, 4) (@VStr Demo.platform "#000") (@VNum Demo.platform 2);
        @Line Demo.platform (3, 4) (6, 8) (@VStr Demo.platform "#000") (@VNum Demo.platform 2)].
Proof.
  destruct (@pen_drag_draws_polyline Demo.platform 1 Demo.rect0
              (@mkEvent Demo.platform 0 0)
              [@mkEvent Demo.platform 3 4; @mkEvent Demo.platform 6 8]
              Demo.idle "#000" 2 1 eq_refl) as (_ & H & _).
  exact H.
Defined.

(** ** stroke.js: the bounding box *)

Section BoxMore.
Context `{P : Platform}.
Variable Math_min : Value -> Value -> Value.
Variable Shape_getBoundingBox : Shape -> Outcome unit.






End BoxMore.


(** A Path element whose cached shape has no [getBoundingBox] that
    returns: the call throws. *)
Example getBoundingBox_throws_demo :
  snd (@getBoundingBox Demo.platform DemoMath.Math_min DemoMath.Shape_getBoundingBox
         Demo.idle
         (Elem (@mkElement Demo.platform "path" [] None
                  (Some (@mkRender Demo.platform None None
                           (Some (Demo.LineShape (0, 0) (1, 1))))) []))
         true)
  = Throw (TypeError "getBoundingBox is not a function").
Proof. reflexivity. Qed.

(** ** main.js and ui.js: loading a document *)

Section LoadMore.
Context `{P : Platform}.
Variable txml_parse : string -> list Node.

Lemma deserializeDocument_annotated (text : string) (node : Node) :
  snd (deserializeDocument txml_parse text) = Ok node -> annotatedNode node = true.
Proof.
  unfold deserializeDocument.
  destruct (negb (Utils.isValidSvg text)); [discriminate|].
  destruct (txml_parse text) as [|[s|e] rest]; cbn [snd]; intros [= <-].
  - reflexivity.
  - apply annotated_transform.
Qed.

(** X25. The document the application starts with always serializes:
    whatever localStorage holds and whatever the parser makes of it,
    [loadFromLocalStorage] with [deserializeDocument] and the default
    document returns a node for which [toSvg] returns a string. *)
Theorem startup_document_serializes (storage : option string) (os ob : option string) :
  exists s,
    toSvg (loadFromLocalStorage (fun text => snd (deserializeDocument txml_parse text))
             (Elem createDefaultDocument) storage) os ob
    = Ok s.
Proof.
  assert (Hnode : forall node, annotatedNode node = true -> exists s, toSvg node os ob = Ok s).
  { intros [s|e]; cbn [annotatedNode toSvg]; [now exists s|].
    apply toSvgElement_annotated. }
  apply Hnode. unfold loadFromLocalStorage.
  destruct storage as [text|]; [|reflexivity].
  destruct (negb (String.eqb text EmptyString) && Utils.isValidSvg text); [|reflexivity].
  destruct (snd (deserializeDocument txml_parse text)) as [node|err] eqn:Hd.
  - now apply deserializeDocument_annotated with text.
  - reflexivity.
Qed.

Lemma annotated_objectAssign old new :
  annotated new = true -> annotated (objectAssign old new) = true.
Proof.
  rewrite !annotated_eq. unfold objectAssign.
  cbn [tagName noteSvgAttributes children].
  intros [Hroot Hcs]%andb_true_iff. rewrite Hcs, andb_true_r.
  destruct (String.eqb (tagName new) "svg" || String.eqb (tagName new) "notesvg"
            || String.eqb (tagName new) "path"); [|reflexivity].
  now destruct (noteSvgAttributes new).
Qed.

Lemma annotated_updateDocument st :
  annotated (svg (snd (updateDocument st))) = annotated (svg st).
Proof.
  destruct (updateDocument_svg st) as [H|[_ H]]; rewrite H;
    rewrite ?annotated_drawn; reflexivity.
Qed.

Lemma replaceDocument_svg node st :
  svg (snd (replaceDocument node st))
  = svg (snd (updateDocument
                match node with
                | Elem d => setSvg (objectAssign (svg st) d) st
                | Text _ => st
                end)).
Proof. unfold replaceDocument. now destruct (updateDocument _) as [[[]|err] st1]. Qed.

Lemma annotated_replaceDocument node st :
  annotatedNode node = true -> annotated (svg st) = true ->
  annotated (svg (snd (replaceDocument node st))) = true.
Proof.
  intros Hn Ha. rewrite replaceDocument_svg, annotated_updateDocument.
  destruct node as [s|d]; [exact Ha|].
  cbn [svg setSvg]. now apply annotated_objectAssign.
Qed.

Lemma pasteClick_state text st :
  snd (pasteClick txml_parse text st) = snd (uploadLoaded txml_parse text st).
Proof.
  unfold pasteClick, uploadLoaded, deserializeDocument.
  now destruct (Utils.isValidSvg text).
Qed.

(** X26. Pasting and uploading keep the document serializable: on a
    document whose [svg], [notesvg] and [path] elements carry note
    attributes, whatever text is pasted or uploaded and whatever the
    parser makes of it, the two handlers leave the same state, and its
    document is serialized by [serializeDocument] to a string, never to
    an error. *)
Theorem loading_keeps_document_serializable
    (text origin : string) (addLink : bool) (st : StrokeRenderer) :
  annotated (svg st) = true ->
  snd (pasteClick txml_parse text st) = snd (uploadLoaded txml_parse text st) /\
  exists s,
    snd (serializeDocument origin (svg (snd (uploadLoaded txml_parse text st))) addLink)
    = Ok s.
Proof.
  intros Ha. split; [apply pasteClick_state|].
  apply serializeDocument_annotated. unfold uploadLoaded.
  destruct (snd (deserializeDocument txml_parse text)) as [node|err] eqn:Hd;
    [|exact Ha].
  apply annotated_replaceDocument; [|exact Ha].
  now apply deserializeDocument_annotated with text.
Qed.

Lemma skeleton_objectAssign old new m :
  noteSvgAttributes new = Some m ->
  skeleton (objectAssign old new) = skeleton new.
Proof.
  intros Hn. destruct new as [t a n r cs]. cbn [noteSvgAttributes] in Hn. subst n.
  reflexivity.
Qed.

(** X27. An accepted load replaces the whole document: when the text
    passes [isValidSvg] and the first node the parser returns is an
    [svg] element, pasting (or uploading) raises no alert, and the
    document afterwards is the transformed element, nothing of the old
    tree being left but render caches; it is painted, and the live
    sessions and the tool are kept. *)
Theorem accepted_load_replaces_document
    (text : string) (d : Element) (rest : list Node) (st : StrokeRenderer) :
  Utils.isValidSvg text = true ->
  txml_parse text = Elem d :: rest ->
  tagName d = "svg" ->
  exists st',
    pasteClick txml_parse text st = (None, st') /\
    uploadLoaded txml_parse text st = (None, st') /\
    skeleton (svg st') = skeleton (transformElement d) /\
    painted (svg st') = true /\
    liveStrokes st' = liveStrokes st /\
    tool st' = tool st.
Proof.
  intros Hv Hp Ht. unfold pasteClick, uploadLoaded, deserializeDocument.
  rewrite Hv, Hp. cbn [negb snd transform]. unfold replaceDocument.
  set (st1 := setSvg _ st).
  assert (Hn : exists m, noteSvgAttributes (transformElement d) = Some m).
  { destruct d as [t a n r cs]. cbn [tagName] in Ht. subst t.
    cbn [transformElement String.eqb Ascii.eqb Bool.eqb noteSvgAttributes]. eauto. }
  destruct Hn as [m Hn].
  assert (Ht1 : tagName (svg st1) = "svg")
    by (unfold st1; cbn [svg setSvg objectAssign tagName];
        now rewrite transformElement_tagName).
  assert (Hn1 : noteSvgAttributes (svg st1) = Some m)
    by (unfold st1; cbn [svg setSvg objectAssign noteSvgAttributes]; now rewrite Hn).
  destruct (updateDocument_svg_root st1 m Ht1 Hn1) as (st' & -> & Hs & Hl & Htool).
  exists st'. repeat split; [| | exact Hl | exact Htool].
  - rewrite Hs, skeleton_drawn. unfold st1. cbn [svg setSvg].
    now apply skeleton_objectAssign with m.
  - rewrite Hs. apply drawn_is_painted.
Qed.

End LoadMore.

Lemma loading_keeps_document_serializable_witness :
  exists s,
    snd (@serializeDocument Demo.platform "http://localhost"
           (@svg Demo.platform
              (snd (@uploadLoaded Demo.platform DemoMath.txml_parse "<svg></svg>" Demo.idle)))
           false) = Ok s.
Proof.
  destruct (@loading_keeps_document_serializable Demo.platform DemoMath.txml_parse
              "<svg></svg>" "http://localhost" false Demo.idle) as (_ & H);
    [reflexivity | exact H].
Defined.

Lemma accepted_load_replaces_document_witness :
  exists st',
    @pasteClick Demo.platform DemoMath.txml_parse "<svg></svg>" Demo.idle = (None, st') /\
    @skeleton Demo.platform (@svg Demo.platform st')
    = @skeleton Demo.platform
        (@transformElement Demo.platform
           (@mkElement Demo.platform "svg" [("width", "20"); ("height", "10")] None None
              [Elem (@mkElement Demo.platform "path"
                       [("d", "M 0 0 L 1 1"); ("stroke", "#123456")] None None [])])).
Proof.
  destruct (@accepted_load_replaces_document Demo.platform DemoMath.txml_parse
              "<svg></svg>" _ _ Demo.idle eq_refl eq_refl eq_refl)
    as (st' & Hp & _ & Hs & _).
  exists st'. split; [exact Hp | exact Hs].
Defined.
